(** * The agent runner of the insurance-marketing system

    A shallow embedding of [src/agent_runner.py] (class [AgentRunner]): the
    static registry of agent descriptors, the loader, the dependency check,
    the pipeline pass, the three run modes, enable/disable/restart, followed
    by the properties of the orchestration engine.

    Conventions of the embedding.
    - The fields of the Python object [self] are the record [runner]; what
      lies outside the object (the wall clock, the sleeps, the calls of
      [run_once], the thread objects) is the record [world].  A method is a
      computation of the monad [M]: state passing with Python exceptions,
      where the state reached when an exception is raised is kept.
    - The agents are opaque.  What their constructors, their [run_once] and
      their threads do is given by an environment [env].  The exceptions of
      the model are instances of Python's class [Exception], which is what
      the handlers of the runner catch; [KeyboardInterrupt] and signal
      delivery are not modelled, and creating a thread object always
      succeeds.  Logging has no effect on the state and is left out.
    - Loops that Python runs until the process is stopped take a fuel. *)

From Stdlib Require Import ZArith List String Bool Lia Permutation Sorted.
Import ListNotations.

Local Open Scope string_scope.
Local Open Scope Z_scope.

(** ** Python dictionaries with string keys

    Insertion ordered, one entry per key: assigning to a key that is present
    replaces the value in place, assigning to a new key appends. *)

Module Dict.
Section Defs.
Context {V : Type}.

Definition t := list (string * V).

Definition empty : t := [].

Fixpoint get (d : t) (k : string) : option V :=
  match d with
  | [] => None
  | (k', v) :: d' => if String.eqb k' k then Some v else get d' k
  end.

Definition mem (d : t) (k : string) : bool :=
  match get d k with Some _ => true | None => false end.

Fixpoint set (d : t) (k : string) (v : V) : t :=
  match d with
  | [] => [(k, v)]
  | (k', v') :: d' =>
      if String.eqb k' k then (k', v) :: d' else (k', v') :: set d' k v
  end.

Definition keys (d : t) : list string := map fst d.

(** [d] is falsy in Python when it is empty. *)
Definition is_empty (d : t) : bool :=
  match d with [] => true | _ => false end.
End Defs.
Arguments t : clear implicits.
End Dict.

(** ** Data model *)

(** One entry of [self.agent_configs]. *)
Record config := mkConfig {
  module : string;
  class : string;
  name : string;
  priority : Z;
  dependencies : list string;
  enabled : bool
}.

(** [config["enabled"] = b] *)
Definition set_enabled (b : bool) (c : config) : config :=
  {| module := module c; class := class c; name := name c;
     priority := priority c; dependencies := dependencies c; enabled := b |}.

(** The ["stats"] dictionary of a loaded agent.  [last_run], [last_result]
    are [None] until the first run; the key ["execution_time"] is absent
    until the first successful run. *)
Record stage_stats := mkStats {
  runs : Z;
  successes : Z;
  errors : Z;
  last_run : option string;
  last_result : option string;
  execution_time : option Z
}.

Definition new_stats : stage_stats :=
  {| runs := 0; successes := 0; errors := 0;
     last_run := None; last_result := None; execution_time := None |}.

(** An entry of [self.agents].  [instance] is the identity of the agent
    object.  [config] is a reference to the descriptor, which is shared with
    [self.agent_configs]: it is kept as the position of the descriptor in
    that list, which is never resized. *)
Record agent_data := mkAgent {
  instance : nat;
  config_ref : nat;
  stats : stage_stats
}.

(** An entry of the list [self.stats["errors"]]. *)
Record error_entry := mkError {
  err_time : string;
  err_agent : string;
  err_error : string
}.

(** The dictionary [self.stats] (its key ["agent_stats"] is never written
    and is left out; the key ["errors"] is [error_log]). *)
Record global_stats := mkGlobal {
  start_time : option string;
  total_cycles : Z;
  error_log : list error_entry
}.

(** A [threading.Thread] object made by the runner: its identity, its name
    and the agent instance whose [run_forever] it runs. *)
Record thread := mkThread {
  thread_id : nat;
  thread_name : string;
  thread_target : nat;
  daemon : bool
}.

(** The fields of [self]. *)
Record runner := mkRunner {
  agent_configs : list config;
  mode : string;
  global_interval : Z;
  max_workers : Z;
  pipeline_delay : Z;
  agents : Dict.t agent_data;
  threads : Dict.t thread;
  running : bool;
  self_stats : global_stats
}.

(** What the runner does to the outside: [clock] counts the readings of the
    wall clock, [calls] lists the keys of the agents whose [run_once] was
    invoked, [sleeps] the arguments of the completed [time.sleep] calls,
    [joins] the threads joined with their timeout, all oldest first;
    [objects] counts the agent and thread objects created. *)
Record world := mkWorld {
  clock : nat;
  calls : list string;
  sleeps : list Z;
  joins : list (nat * Z);
  objects : nat
}.

Record state := mkState {
  self : runner;
  outside : world
}.

(** The report of [get_status] on one agent and on the runner. *)
Record agent_status := mkAgentStatus {
  status_enabled : bool;
  status_priority : Z;
  status_thread_alive : bool;
  status_runs : Z;
  status_successes : Z;
  status_errors : Z;
  status_last_run : option string;
  status_last_result : option string
}.

Record status := mkStatus {
  status_running : bool;
  status_mode : string;
  status_start_time : option string;
  status_total_cycles : Z;
  status_agents : Dict.t agent_status
}.

(** A Python exception: its class and [str(e)]. *)
Record exn := mkExn {
  exn_class : string;
  exn_str : string
}.

(** What a call of an agent's [run_once] or of its constructor does. *)
Inductive outcome (A : Type) :=
| Returns (a : A)
| Raises (e : exn).
Arguments Returns {A} a.
Arguments Raises {A} e.

(** The environment of a run.
    - [construct c]: importing [module c], looking up [class c] and calling
      it; [Raises] covers [ImportError], [AttributeError] and the errors of
      the constructor;
    - [run_once i n]: the call of [run_once] on the instance [i] when [n]
      calls of [run_once] were made before;
    - [isoformat n], [time_time n]: [datetime.now().isoformat()] and
      [time.time()] at the [n]-th reading of the clock;
    - [is_alive t n]: [Thread.is_alive] of the thread [t] at clock [n];
    - [os_sleep secs]: what the operating system does with a sleep of
      [secs] seconds that the interpreter has accepted and that is longer
      than any platform is known to accept ([time_sleep] below). *)
Record env := mkEnv {
  construct : config -> outcome unit;
  run_once : nat -> nat -> outcome string;
  isoformat : nat -> string;
  time_time : nat -> Z;
  is_alive : nat -> nat -> bool;
  os_sleep : Z -> outcome unit
}.

(** ** Methods as computations *)

Inductive result (A : Type) :=
| Ok (a : A)
| Exc (e : exn).
Arguments Ok {A} a.
Arguments Exc {A} e.

Definition M (A : Type) : Type := state -> result A * state.

Definition ret {A} (a : A) : M A := fun s => (Ok a, s).

Definition bind {A B} (m : M A) (k : A -> M B) : M B :=
  fun s =>
    match m s with
    | (Ok a, s') => k a s'
    | (Exc e, s') => (Exc e, s')
    end.

Definition raise {A} (e : exn) : M A := fun s => (Exc e, s).

(** [try: m  except Exception as e: h e] *)
Definition try_except {A} (m : M A) (h : exn -> M A) : M A :=
  fun s =>
    match m s with
    | (Ok a, s') => (Ok a, s')
    | (Exc e, s') => h e s'
    end.

(** [try: m  finally: f] *)
Definition try_finally {A} (m : M A) (f : M unit) : M A :=
  fun s =>
    let (r, s') := m s in
    match f s' with
    | (Ok _, s'') => (r, s'')
    | (Exc e, s'') => (Exc e, s'')
    end.

Declare Scope py_scope.
Delimit Scope py_scope with py.
Notation "x <- m ;; k" := (bind m (fun x => k))
  (at level 61, m at next level, right associativity) : py_scope.
Notation "m ;; k" := (bind m (fun _ => k))
  (at level 61, right associativity) : py_scope.
Local Open Scope py_scope.

Definition gets {A} (f : runner -> A) : M A :=
  fun s => (Ok (f (self s)), s).

Definition modify (f : runner -> runner) : M unit :=
  fun s => (Ok tt, {| self := f (self s); outside := outside s |}).

Definition on_world (f : world -> world) : M unit :=
  fun s => (Ok tt, {| self := self s; outside := f (outside s) |}).

Definition read_world {A} (f : world -> A) : M A :=
  fun s => (Ok (f (outside s)), s).

(** *** Assignments to the fields of [self] *)

Definition with_agent_configs (cs : list config) (r : runner) : runner :=
  {| agent_configs := cs; mode := mode r;
     global_interval := global_interval r; max_workers := max_workers r;
     pipeline_delay := pipeline_delay r; agents := agents r;
     threads := threads r; running := running r;
     self_stats := self_stats r |}.

Definition with_agents (a : Dict.t agent_data) (r : runner) : runner :=
  {| agent_configs := agent_configs r; mode := mode r;
     global_interval := global_interval r; max_workers := max_workers r;
     pipeline_delay := pipeline_delay r; agents := a;
     threads := threads r; running := running r;
     self_stats := self_stats r |}.

Definition with_threads (t : Dict.t thread) (r : runner) : runner :=
  {| agent_configs := agent_configs r; mode := mode r;
     global_interval := global_interval r; max_workers := max_workers r;
     pipeline_delay := pipeline_delay r; agents := agents r;
     threads := t; running := running r;
     self_stats := self_stats r |}.

Definition with_running (b : bool) (r : runner) : runner :=
  {| agent_configs := agent_configs r; mode := mode r;
     global_interval := global_interval r; max_workers := max_workers r;
     pipeline_delay := pipeline_delay r; agents := agents r;
     threads := threads r; running := b;
     self_stats := self_stats r |}.

Definition with_self_stats (g : global_stats) (r : runner) : runner :=
  {| agent_configs := agent_configs r; mode := mode r;
     global_interval := global_interval r; max_workers := max_workers r;
     pipeline_delay := pipeline_delay r; agents := agents r;
     threads := threads r; running := running r;
     self_stats := g |}.

(** [self.agents[key]["stats"]] is updated in place: the entry of [key]
    keeps its instance and its descriptor. *)
Definition update_stats (key : string) (f : stage_stats -> stage_stats)
    (r : runner) : runner :=
  match Dict.get (agents r) key with
  | Some ad =>
      with_agents
        (Dict.set (agents r) key
           {| instance := instance ad; config_ref := config_ref ad;
              stats := f (stats ad) |}) r
  | None => r
  end.

(** [self.stats["errors"].append(entry)] *)
Definition append_error (entry : error_entry) (r : runner) : runner :=
  with_self_stats
    {| start_time := start_time (self_stats r);
       total_cycles := total_cycles (self_stats r);
       error_log := error_log (self_stats r) ++ [entry] |} r.

(** [self.stats["total_cycles"] += 1] *)
Definition count_cycle (r : runner) : runner :=
  with_self_stats
    {| start_time := start_time (self_stats r);
       total_cycles := total_cycles (self_stats r) + 1;
       error_log := error_log (self_stats r) |} r.

(** [self.stats["start_time"] = t] *)
Definition set_start_time (t : string) (r : runner) : runner :=
  with_self_stats
    {| start_time := Some t;
       total_cycles := total_cycles (self_stats r);
       error_log := error_log (self_stats r) |} r.

(** The descriptor an entry of [self.agents] refers to. *)
Definition no_config : config :=
  {| module := ""; class := ""; name := ""; priority := 0;
     dependencies := []; enabled := false |}.

Definition config_of (r : runner) (ad : agent_data) : config :=
  nth (config_ref ad) (agent_configs r) no_config.

(** *** The outside *)

Definition tick (w : world) : world :=
  {| clock := S (clock w); calls := calls w; sleeps := sleeps w;
     joins := joins w; objects := objects w |}.

Definition log_call (key : string) (w : world) : world :=
  {| clock := clock w; calls := calls w ++ [key]; sleeps := sleeps w;
     joins := joins w; objects := objects w |}.

Definition log_sleep (secs : Z) (w : world) : world :=
  {| clock := clock w; calls := calls w; sleeps := sleeps w ++ [secs];
     joins := joins w; objects := objects w |}.

Definition log_join (t : nat) (timeout : Z) (w : world) : world :=
  {| clock := clock w; calls := calls w; sleeps := sleeps w;
     joins := joins w ++ [(t, timeout)]; objects := objects w |}.

Definition allocate (w : world) : world :=
  {| clock := clock w; calls := calls w; sleeps := sleeps w;
     joins := joins w; objects := S (objects w) |}.

(** The longest sleep that the interpreter converts: [time.sleep] holds
    its argument as nanoseconds in a signed 64-bit integer. *)
Definition sleep_max : Z := 9223372036.

(** A sleep that every platform makes: the shortest limit of a platform is
    that of 32-bit milliseconds. *)
Definition sleep_small : Z := 4294967.

(** A new Python object; its identity is returned. *)
Definition new_object : M nat :=
  i <- read_world objects ;;
  on_world allocate ;;
  ret i.

(** [thread.join(timeout=secs)] *)
Definition thread_join (t : thread) (secs : Z) : M unit :=
  on_world (log_join (thread_id t) secs).

(** A started daemon thread [Thread(target=..., name=thread_name)] whose
    target runs [run_forever] of the instance [i]. *)
Definition start_thread (thread_name : string) (i : nat) : M thread :=
  t <- new_object ;;
  ret {| thread_id := t; thread_name := thread_name; thread_target := i;
         daemon := true |}.

(** *** Assignments to the keys of a ["stats"] dictionary *)

Definition incr_runs (st : stage_stats) : stage_stats :=
  {| runs := runs st + 1; successes := successes st; errors := errors st;
     last_run := last_run st; last_result := last_result st;
     execution_time := execution_time st |}.

Definition incr_successes (st : stage_stats) : stage_stats :=
  {| runs := runs st; successes := successes st + 1; errors := errors st;
     last_run := last_run st; last_result := last_result st;
     execution_time := execution_time st |}.

Definition incr_errors (st : stage_stats) : stage_stats :=
  {| runs := runs st; successes := successes st; errors := errors st + 1;
     last_run := last_run st; last_result := last_result st;
     execution_time := execution_time st |}.

Definition set_last_run (t : string) (st : stage_stats) : stage_stats :=
  {| runs := runs st; successes := successes st; errors := errors st;
     last_run := Some t; last_result := last_result st;
     execution_time := execution_time st |}.

Definition set_last_result (v : string) (st : stage_stats) : stage_stats :=
  {| runs := runs st; successes := successes st; errors := errors st;
     last_run := last_run st; last_result := Some v;
     execution_time := execution_time st |}.

Definition set_execution_time (d : Z) (st : stage_stats) : stage_stats :=
  {| runs := runs st; successes := successes st; errors := errors st;
     last_run := last_run st; last_result := last_result st;
     execution_time := Some d |}.

(** *** [sorted(l, key=...)]

    Python's sort is stable.  The model inserts each element, from the last
    to the first, before the first element whose key is not smaller. *)

Fixpoint insert_by {A} (key : A -> Z) (x : A) (l : list A) : list A :=
  match l with
  | [] => [x]
  | y :: l' => if key x <=? key y then x :: l else y :: insert_by key x l'
  end.

Definition sorted {A} (key : A -> Z) (l : list A) : list A :=
  fold_right (insert_by key) [] l.

(** The list [sorted_configs] that [AgentRunner._run_pipeline_once] builds:
    the enabled descriptors, sorted by priority. *)
Definition sorted_configs (r : runner) : list config :=
  sorted priority (filter enabled (agent_configs r)).

Section Runner.

Variable E : env.

(** The exception of [time.sleep(secs)] on an integer, [None] when the
    sleep is made.  The conversion to nanoseconds comes first and raises
    [OverflowError] when they do not fit; then a negative argument raises
    [ValueError]; a sleep of at most [sleep_small] seconds is made; between
    [sleep_small] and [sleep_max] the operating system decides (Linux
    refuses with [OSError] a sleep that ends after the last instant of its
    clock). *)
Definition sleep_error (secs : Z) : option exn :=
  if (secs <? - sleep_max) || (sleep_max <? secs)
  then Some {| exn_class := "OverflowError";
               exn_str := "timestamp too large to convert to C _PyTime_t" |}
  else if secs <? 0
  then Some {| exn_class := "ValueError";
               exn_str := "sleep length must be non-negative" |}
  else if secs <=? sleep_small then None
  else match os_sleep E secs with
       | Returns _ => None
       | Raises e => Some e
       end.

(** [time.sleep(secs)] *)
Definition time_sleep (secs : Z) : M unit :=
  match sleep_error secs with
  | Some e => raise e
  | None => on_world (log_sleep secs)
  end.

(** [datetime.now().isoformat()] *)
Definition now_isoformat : M string :=
  n <- read_world clock ;;
  on_world tick ;;
  ret (isoformat E n).

(** [time.time()] *)
Definition py_time : M Z :=
  n <- read_world clock ;;
  on_world tick ;;
  ret (time_time E n).

(** [thread.is_alive()] *)
Definition thread_is_alive (t : thread) : M bool :=
  n <- read_world clock ;;
  ret (is_alive E (thread_id t) n).

(** [agent.run_once()] on the instance stored under [key]. *)
Definition call_run_once (key : string) (i : nat) : M string :=
  n <- read_world (fun w => List.length (calls w)) ;;
  on_world (log_call key) ;;
  match run_once E i n with
  | Returns r => ret r
  | Raises e => raise e
  end.

(** [import_module(module_name)], [getattr(module, class_name)] and
    [agent_class()].  [import_module] refuses the empty name with a
    [ValueError] before it looks for a module. *)
Definition call_constructor (c : config) : M nat :=
  if (module c =? "")%string
  then raise {| exn_class := "ValueError"; exn_str := "Empty module name" |}
  else
    match construct E c with
    | Returns _ => new_object
    | Raises e => raise e
    end.

(** [AgentRunner._load_agent]: each of the three handlers returns [None]. *)
Definition _load_agent (c : config) : M (option nat) :=
  try_except
    (agent <- call_constructor c ;; ret (Some agent))
    (fun _ => ret None).

(** The loop of [AgentRunner._load_all_agents]; [ix] is the position of the
    head of [cs] in [self.agent_configs]. *)
Fixpoint load_configs (cs : list config) (ix : nat)
    (success_count total_count : Z) : M bool :=
  match cs with
  | [] => ret (success_count =? total_count)
  | c :: cs' =>
      if negb (enabled c)
      then load_configs cs' (S ix) success_count total_count
      else
        agent <- _load_agent c ;;
        match agent with
        | Some i =>
            modify (fun r =>
              with_agents
                (Dict.set (agents r) (module c)
                   {| instance := i; config_ref := ix;
                      stats := new_stats |}) r) ;;
            load_configs cs' (S ix) (success_count + 1) (total_count + 1)
        | None =>
            load_configs cs' (S ix) success_count (total_count + 1)
        end
  end.

Definition _load_all_agents : M bool :=
  cs <- gets agent_configs ;;
  load_configs cs 0 0 0.

(** [AgentRunner._check_dependencies]: the loop returns [False] at the
    first dependency that is not a key of [self.agents]. *)
Fixpoint check_dependencies_loop (a : Dict.t agent_data)
    (deps : list string) : bool :=
  match deps with
  | [] => true
  | dep :: deps' =>
      if negb (Dict.mem a dep) then false
      else check_dependencies_loop a deps'
  end.

Definition _check_dependencies (r : runner) (c : config) : bool :=
  check_dependencies_loop (agents r) (dependencies c).

(** [AgentRunner._run_agent_once] *)
Definition _run_agent_once (agent_key : string) : M bool :=
  a <- gets agents ;;
  match Dict.get a agent_key with
  | None => ret false
  | Some agent_data =>
      cfg <- gets (fun r => config_of r agent_data) ;;
      try_except
        (start_time <- py_time ;;
         result <- call_run_once agent_key (instance agent_data) ;;
         end_time <- py_time ;;
         modify (update_stats agent_key incr_runs) ;;
         modify (update_stats agent_key incr_successes) ;;
         t <- now_isoformat ;;
         modify (update_stats agent_key (set_last_run t)) ;;
         modify (update_stats agent_key (set_last_result result)) ;;
         modify (update_stats agent_key
                   (set_execution_time (end_time - start_time))) ;;
         ret true)
        (fun e =>
         modify (update_stats agent_key incr_runs) ;;
         modify (update_stats agent_key incr_errors) ;;
         t <- now_isoformat ;;
         modify (update_stats agent_key (set_last_run t)) ;;
         modify (update_stats agent_key
                   (set_last_result ("错误: " ++ exn_str e)%string)) ;;
         t' <- now_isoformat ;;
         modify (append_error
           {| err_time := t'; err_agent := name cfg;
              err_error := exn_str e |}) ;;
         ret false)
  end.

(** The loop of [AgentRunner._run_pipeline_once] over [sorted_configs]. *)
Fixpoint run_configs (sorted_configs : list config)
    (results : Dict.t bool) : M (Dict.t bool) :=
  match sorted_configs with
  | [] => ret results
  | c :: rest =>
      let agent_key := module c in
      ok <- gets (fun r => _check_dependencies r c) ;;
      if negb ok
      then run_configs rest (Dict.set results agent_key false)
      else
        success <- _run_agent_once agent_key ;;
        delay <- gets pipeline_delay ;;
        (if success && (0 <? delay) then time_sleep delay else ret tt) ;;
        run_configs rest (Dict.set results agent_key success)
  end.

(** [AgentRunner._run_pipeline_once] *)
Definition _run_pipeline_once : M (Dict.t bool) :=
  cs <- gets sorted_configs ;;
  run_configs cs Dict.empty.

(** The loop of [AgentRunner._run_concurrent_forever] over
    [self.agents.items()]. *)
Fixpoint start_workers (items : list (string * agent_data)) : M unit :=
  match items with
  | [] => ret tt
  | (agent_key, agent_data) :: rest =>
      cfg <- gets (fun r => config_of r agent_data) ;;
      t <- start_thread (name cfg) (instance agent_data) ;;
      modify (fun r => with_threads (Dict.set (threads r) agent_key t) r) ;;
      time_sleep 1 ;;
      start_workers rest
  end.

Definition _run_concurrent_forever : M unit :=
  a <- gets agents ;;
  start_workers a.

(** [AgentRunner._print_final_summary] only logs; it reads the clock once
    when a start time is recorded. *)
Definition _print_final_summary : M unit :=
  st <- gets (fun r => start_time (self_stats r)) ;;
  match st with
  | None => ret tt
  | Some _ => _ <- now_isoformat ;; ret tt
  end.

(** The loop of [AgentRunner.stop] over [self.threads.items()]. *)
Fixpoint join_threads (items : list (string * thread)) : M unit :=
  match items with
  | [] => ret tt
  | (_, t) :: rest =>
      alive <- thread_is_alive t ;;
      (if alive then thread_join t 5 else ret tt) ;;
      join_threads rest
  end.

(** [AgentRunner.stop] *)
Definition stop : M unit :=
  r <- gets running ;;
  if negb r then ret tt
  else
    modify (with_running false) ;;
    ts <- gets threads ;;
    join_threads ts ;;
    _print_final_summary.

(** [AgentRunner._run_mode_once]; [_print_summary] only logs. *)
Definition _run_mode_once : M unit :=
  _ <- _run_pipeline_once ;;
  ret tt.

(** The body of the [while] loop of [AgentRunner._run_mode_pipeline], as a
    function of the computation of [self._run_pipeline_once()]. *)
Definition pipeline_attempt (pass : M (Dict.t bool)) : M unit :=
  try_except
    (cycle_start <- py_time ;;
     results <- pass ;;
     modify count_cycle ;;
     cycle_end <- py_time ;;
     r <- gets running ;;
     if r
     then (interval <- gets global_interval ;; time_sleep interval)
     else ret tt)
    (fun e => time_sleep 60).

(** The loop [while self.running: ...] around that body. *)
Fixpoint pipeline_loop (pass : M (Dict.t bool)) (fuel : nat) : M unit :=
  match fuel with
  | O => ret tt
  | S fuel' =>
      r <- gets running ;;
      if r
      then pipeline_attempt pass ;; pipeline_loop pass fuel'
      else ret tt
  end.

(** [AgentRunner._run_mode_pipeline] *)
Definition _run_mode_pipeline (fuel : nat) : M unit :=
  pipeline_loop _run_pipeline_once fuel.

(** The monitoring loop of [AgentRunner._run_mode_forever]; the count of
    the live threads only feeds a warning of the log. *)
Fixpoint monitor (fuel : nat) : M unit :=
  match fuel with
  | O => ret tt
  | S fuel' =>
      r <- gets running ;;
      if r then time_sleep 10 ;; monitor fuel' else ret tt
  end.

(** [AgentRunner._run_mode_forever] *)
Definition _run_mode_forever (fuel : nat) : M unit :=
  _run_concurrent_forever ;;
  monitor fuel.

(** [AgentRunner.run] *)
Definition run (fuel : nat) : M unit :=
  try_finally
    (try_except
       (ok <- _load_all_agents ;;
        if negb ok then ret tt
        else
          a <- gets agents ;;
          if Dict.is_empty a then ret tt
          else
            modify (with_running true) ;;
            t <- now_isoformat ;;
            modify (set_start_time t) ;;
            m <- gets mode ;;
            if (m =? "run_once")%string then _run_mode_once
            else if (m =? "pipeline")%string then _run_mode_pipeline fuel
            else if (m =? "run_forever")%string then _run_mode_forever fuel
            else ret tt)
       (fun e => ret tt))
    stop.

(** The loop of [enable_agent] and [disable_agent]: the first descriptor
    whose name or module is [agent_name] gets [enabled = b]; [None] when the
    loop ends without a match. *)
Fixpoint assign_enabled (b : bool) (agent_name : string)
    (cs : list config) : option (list config) :=
  match cs with
  | [] => None
  | c :: cs' =>
      if ((name c =? agent_name) || (module c =? agent_name))%string
      then Some (set_enabled b c :: cs')
      else
        match assign_enabled b agent_name cs' with
        | Some cs'' => Some (c :: cs'')
        | None => None
        end
  end.

(** [AgentRunner.enable_agent] *)
Definition enable_agent (agent_name : string) : M bool :=
  cs <- gets agent_configs ;;
  match assign_enabled true agent_name cs with
  | Some cs' => modify (with_agent_configs cs') ;; ret true
  | None => ret false
  end.

(** [AgentRunner.disable_agent] *)
Definition disable_agent (agent_name : string) : M bool :=
  cs <- gets agent_configs ;;
  match assign_enabled false agent_name cs with
  | Some cs' => modify (with_agent_configs cs') ;; ret true
  | None => ret false
  end.

(** The search loop of [AgentRunner.restart_agent] over
    [self.agents.items()]. *)
Fixpoint find_agent (r : runner) (items : list (string * agent_data))
    (agent_name : string) : option string :=
  match items with
  | [] => None
  | (agent_key, agent_data) :: rest =>
      let cfg := config_of r agent_data in
      if ((name cfg =? agent_name) || (module cfg =? agent_name))%string
      then Some agent_key
      else find_agent r rest agent_name
  end.

(** [AgentRunner.restart_agent].  [not target_key] holds of [None] and of
    the empty string; [self.agents[target_key]] raises [KeyError] on a
    missing key. *)
Definition restart_agent (agent_name : string) : M bool :=
  m <- gets mode ;;
  if negb (m =? "run_forever")%string then ret false
  else
    found <- gets (fun r => find_agent r (agents r) agent_name) ;;
    match found with
    | None => ret false
    | Some target_key =>
        if (target_key =? "")%string then ret false
        else
          try_except
            (ts <- gets threads ;;
             match Dict.get ts target_key with
             | Some t =>
                 alive <- thread_is_alive t ;;
                 if alive then thread_join t 10 else ret tt
             | None => ret tt
             end ;;
             a <- gets agents ;;
             match Dict.get a target_key with
             | None =>
                 raise {| exn_class := "KeyError"; exn_str := target_key |}
             | Some agent_data =>
                 cfg <- gets (fun r => config_of r agent_data) ;;
                 t <- start_thread (name cfg ++ "-restart")%string
                        (instance agent_data) ;;
                 modify (fun r =>
                   with_threads (Dict.set (threads r) target_key t) r) ;;
                 ret true
             end)
            (fun e => ret false)
    end.

(** [AgentRunner._signal_handler] *)
Definition _signal_handler : M unit := stop.

(** The loop of [AgentRunner.get_status] over [self.agents.items()]; the
    flag and the priority are read through the shared descriptor. *)
Fixpoint agent_statuses (items : list (string * agent_data))
    (status_agents : Dict.t agent_status) : M (Dict.t agent_status) :=
  match items with
  | [] => ret status_agents
  | (agent_key, agent_data) :: rest =>
      cfg <- gets (fun r => config_of r agent_data) ;;
      ts <- gets threads ;;
      alive <- match Dict.get ts agent_key with
               | Some t => thread_is_alive t
               | None => ret false
               end ;;
      let st := stats agent_data in
      agent_statuses rest
        (Dict.set status_agents (name cfg)
           {| status_enabled := enabled cfg;
              status_priority := priority cfg;
              status_thread_alive := alive;
              status_runs := runs st;
              status_successes := successes st;
              status_errors := errors st;
              status_last_run := last_run st;
              status_last_result := last_result st |})
  end.

(** [AgentRunner.get_status] *)
Definition get_status : M status :=
  r <- gets (fun r => r) ;;
  a <- agent_statuses (agents r) Dict.empty ;;
  ret {| status_running := running r;
         status_mode := mode r;
         status_start_time := start_time (self_stats r);
         status_total_cycles := total_cycles (self_stats r);
         status_agents := a |}.

End Runner.

(** ** The runner after [AgentRunner.__init__] *)

(** The six descriptors of the literal assigned to [self.agent_configs]. *)
Definition hotspot_agent : config :=
  {| module := "agents.hotspot_agent"; class := "HotspotAgent";
     name := "热点抓取"; priority := 1;
     dependencies := []; enabled := true |}.

Definition risk_analyzer_agent : config :=
  {| module := "agents.risk_analyzer_agent"; class := "RiskAnalyzerAgent";
     name := "风险分析"; priority := 2;
     dependencies := ["hotspot_agent"]; enabled := true |}.

Definition material_collector_agent : config :=
  {| module := "agents.material_collector_agent";
     class := "MaterialCollectorAgent";
     name := "素材收集"; priority := 3;
     dependencies := ["risk_analyzer_agent"]; enabled := true |}.

Definition product_matcher_agent : config :=
  {| module := "agents.product_matcher_agent";
     class := "ProductMatcherAgent";
     name := "产品匹配"; priority := 4;
     dependencies := ["risk_analyzer_agent"]; enabled := true |}.

Definition content_creator_agent : config :=
  {| module := "agents.content_creator_agent";
     class := "ContentCreatorAgent";
     name := "内容创作"; priority := 5;
     dependencies := ["material_collector_agent"; "product_matcher_agent"];
     enabled := true |}.

Definition editor_agent : config :=
  {| module := "agents.editor_agent"; class := "EditorAgent";
     name := "内容编辑"; priority := 6;
     dependencies := ["content_creator_agent"]; enabled := true |}.

Definition static_registry : list config :=
  [ hotspot_agent; risk_analyzer_agent; material_collector_agent;
    product_matcher_agent; content_creator_agent; editor_agent ].

(** [AgentRunner.__init__]; the arguments are the values read from the
    environment variables [RUN_MODE], [GLOBAL_INTERVAL], [MAX_WORKERS] and
    [PIPELINE_DELAY], [None] when a variable is not set. *)
Definition init (RUN_MODE : option string)
    (GLOBAL_INTERVAL MAX_WORKERS PIPELINE_DELAY : option Z) : runner :=
  {| agent_configs := static_registry;
     mode := match RUN_MODE with Some m => m | None => "run_forever" end;
     global_interval :=
       match GLOBAL_INTERVAL with Some i => i | None => 300 end;
     max_workers := match MAX_WORKERS with Some n => n | None => 6 end;
     pipeline_delay :=
       match PIPELINE_DELAY with Some d => d | None => 60 end;
     agents := Dict.empty;
     threads := Dict.empty;
     running := false;
     self_stats :=
       {| start_time := None; total_cycles := 0; error_log := [] |} |}.

(** The outside before the runner has done anything. *)
Definition new_world : world :=
  {| clock := 0; calls := []; sleeps := []; joins := []; objects := 0 |}.

(** * Properties *)

Local Open Scope list_scope.

(** ** Dictionaries *)

Module DictFacts.
Section Facts.
Context {V : Type}.
Implicit Types (d : Dict.t V) (k : string) (v : V).

Lemma get_set_same d k v : Dict.get (Dict.set d k v) k = Some v.
Proof.
  induction d as [|[k' v'] d IH]; simpl.
  - now rewrite String.eqb_refl.
  - destruct (String.eqb k' k) eqn:Hk; simpl; now rewrite Hk.
Qed.

Lemma get_set_other d k k' v :
  k <> k' -> Dict.get (Dict.set d k v) k' = Dict.get d k'.
Proof.
  intros Hne. induction d as [|[k0 v0] d IH]; simpl.
  - destruct (String.eqb_spec k k'); congruence.
  - destruct (String.eqb_spec k0 k) as [->|Hk]; simpl.
    + destruct (String.eqb_spec k k'); congruence.
    + now rewrite IH.
Qed.

Lemma set_set d k v v' : Dict.set (Dict.set d k v) k v' = Dict.set d k v'.
Proof.
  induction d as [|[k0 v0] d IH]; simpl.
  - now rewrite String.eqb_refl.
  - destruct (String.eqb k0 k) eqn:Hk; simpl; rewrite Hk; congruence.
Qed.

Lemma set_get d k v : Dict.get d k = Some v -> Dict.set d k v = d.
Proof.
  induction d as [|[k0 v0] d IH]; simpl; [discriminate|].
  destruct (String.eqb k0 k) eqn:Hk; intros H.
  - congruence.
  - now rewrite IH.
Qed.

Lemma mem_set d k k' v :
  Dict.mem (Dict.set d k v) k' = (String.eqb k k' || Dict.mem d k')%bool.
Proof.
  unfold Dict.mem. destruct (String.eqb_spec k k') as [->|Hne].
  - now rewrite get_set_same.
  - now rewrite get_set_other.
Qed.

Lemma mem_keys d k : Dict.mem d k = true <-> In k (Dict.keys d).
Proof.
  unfold Dict.mem. induction d as [|[k0 v0] d IH]; simpl.
  - split; [discriminate | tauto].
  - destruct (String.eqb_spec k0 k) as [->|Hk].
    + split; auto.
    + rewrite IH. split; [auto | intros [?|?]; congruence].
Qed.

Lemma get_in_keys d k v : Dict.get d k = Some v -> In k (Dict.keys d).
Proof.
  intros H. apply mem_keys. unfold Dict.mem. now rewrite H.
Qed.

Lemma in_keys_get d k : In k (Dict.keys d) -> exists v, Dict.get d k = Some v.
Proof.
  intros H. apply mem_keys in H. unfold Dict.mem in H.
  destruct (Dict.get d k) as [v|]; [eauto | discriminate].
Qed.

Lemma keys_set_present d k v :
  In k (Dict.keys d) -> Dict.keys (Dict.set d k v) = Dict.keys d.
Proof.
  induction d as [|[k0 v0] d IH]; simpl; [tauto|].
  destruct (String.eqb_spec k0 k) as [->|Hk]; simpl; [reflexivity|].
  intros [?|H]; [congruence|]. now rewrite IH.
Qed.
End Facts.
End DictFacts.

(** ** The sort *)

Section SortFacts.
Context {A : Type} (key : A -> Z).

Definition key_le (a b : A) : Prop := key a <= key b.
Definition key_lt (a b : A) : Prop := key a < key b.

(** The elements of key [p], in the order of the list. *)
Definition of_key (p : Z) (l : list A) : list A :=
  filter (fun a => key a =? p) l.

Lemma insert_by_perm x l : Permutation (insert_by key x l) (x :: l).
Proof.
  induction l as [|y l IH]; simpl.
  - reflexivity.
  - destruct (key x <=? key y).
    + reflexivity.
    + rewrite IH. apply perm_swap.
Qed.

Lemma sorted_perm l : Permutation (sorted key l) l.
Proof.
  induction l as [|x l IH]; simpl.
  - constructor.
  - rewrite insert_by_perm. now constructor.
Qed.

Lemma sorted_In x l : In x (sorted key l) <-> In x l.
Proof.
  split; apply Permutation_in;
    [apply sorted_perm | apply Permutation_sym, sorted_perm].
Qed.

Lemma insert_by_sorted x l :
  StronglySorted key_le l -> StronglySorted key_le (insert_by key x l).
Proof.
  induction 1 as [|y l Hl IH Hy]; simpl.
  - repeat constructor.
  - destruct (Z.leb_spec (key x) (key y)) as [Hxy|Hxy].
    + constructor; [now constructor|].
      constructor; [exact Hxy|].
      eapply Forall_impl; [|exact Hy]. unfold key_le. intros; lia.
    + constructor; [exact IH|].
      eapply Permutation_Forall;
        [apply Permutation_sym, insert_by_perm|].
      constructor; [unfold key_le; lia | exact Hy].
Qed.

Lemma sorted_ascending l : StronglySorted key_le (sorted key l).
Proof.
  induction l as [|x l IH]; simpl.
  - constructor.
  - now apply insert_by_sorted.
Qed.

Lemma of_key_insert_by p x l :
  of_key p (insert_by key x l) = of_key p (x :: l).
Proof.
  unfold of_key. induction l as [|y l IH]; simpl.
  - reflexivity.
  - destruct (Z.leb_spec (key x) (key y)) as [Hxy|Hxy]; simpl.
    + reflexivity.
    + rewrite IH. simpl.
      destruct (Z.eqb_spec (key x) p), (Z.eqb_spec (key y) p);
        try reflexivity; lia.
Qed.

Lemma sorted_stable p l : of_key p (sorted key l) = of_key p l.
Proof.
  induction l as [|x l IH]; simpl.
  - reflexivity.
  - rewrite of_key_insert_by. unfold of_key in *. simpl. now rewrite IH.
Qed.

(** A stable sort has one possible result: two ascending lists with the same
    elements of each key, in the same order, are equal.  So [sorted] is the
    list Python's [sorted] returns, whatever algorithm computes it. *)
Lemma ascending_stable_unique l1 : forall l2,
  StronglySorted key_le l1 -> StronglySorted key_le l2 ->
  (forall p, of_key p l1 = of_key p l2) -> l1 = l2.
Proof.
  unfold of_key.
  induction l1 as [|x l1 IH]; intros [|y l2] H1 H2 Heq.
  - reflexivity.
  - specialize (Heq (key y)). simpl in Heq.
    rewrite Z.eqb_refl in Heq. discriminate.
  - specialize (Heq (key x)). simpl in Heq.
    rewrite Z.eqb_refl in Heq. discriminate.
  - inversion H1 as [|? ? H1' Hx]; inversion H2 as [|? ? H2' Hy]; subst.
    rewrite Forall_forall in Hx, Hy.
    assert (Hxin : In x (y :: l2)).
    { pose proof (Heq (key x)) as E.
      assert (Hin : In x (filter (fun a => key a =? key x) (y :: l2))).
      { rewrite <- E. simpl. rewrite Z.eqb_refl. now left. }
      now apply filter_In in Hin. }
    assert (Hyin : In y (x :: l1)).
    { pose proof (Heq (key y)) as E.
      assert (Hin : In y (filter (fun a => key a =? key y) (x :: l1))).
      { rewrite E. simpl. rewrite Z.eqb_refl. now left. }
      now apply filter_In in Hin. }
    assert (Hk : key x = key y).
    { assert (key y <= key x)
        by (destruct Hxin as [->|Hin]; [lia | apply Hy, Hin]).
      assert (key x <= key y)
        by (destruct Hyin as [->|Hin]; [lia | apply Hx, Hin]).
      lia. }
    assert (Hxy : x = y).
    { pose proof (Heq (key x)) as E. simpl in E.
      rewrite Z.eqb_refl in E. rewrite <- Hk, Z.eqb_refl in E. congruence. }
    subst y. f_equal. apply IH; [assumption | assumption |].
    intros p. specialize (Heq p). simpl in Heq.
    destruct (key x =? p); congruence.
Qed.

Lemma sorted_unique l l' :
  StronglySorted key_le l' -> (forall p, of_key p l' = of_key p l) ->
  l' = sorted key l.
Proof.
  intros Hs Hst. apply ascending_stable_unique.
  - exact Hs.
  - apply sorted_ascending.
  - intros p. now rewrite Hst, sorted_stable.
Qed.

Lemma ascending_distinct_strict l :
  StronglySorted key_le l -> NoDup (map key l) ->
  StronglySorted key_lt l.
Proof.
  induction 1 as [|x l Hl IH Hx]; simpl; intros Hnd.
  - constructor.
  - inversion Hnd as [|? ? Hnot Hnd']; subst.
    constructor; [now apply IH|].
    rewrite Forall_forall in *. intros y Hy.
    specialize (Hx y Hy). unfold key_le, key_lt in *.
    assert (key x <> key y).
    { intros Heq. apply Hnot. rewrite Heq. now apply in_map. }
    lia.
Qed.

Lemma sorted_strict l :
  NoDup (map key l) -> StronglySorted key_lt (sorted key l).
Proof.
  intros Hnd. apply ascending_distinct_strict.
  - apply sorted_ascending.
  - eapply Permutation_NoDup; [|exact Hnd].
    apply Permutation_map, Permutation_sym, sorted_perm.
Qed.
End SortFacts.

(** ** One invocation of a stage *)

Lemma update_stats_fuse key f g r :
  update_stats key g (update_stats key f r) =
  update_stats key (fun st => g (f st)) r.
Proof.
  unfold update_stats.
  destruct (Dict.get (agents r) key) as [ad|] eqn:Hget; simpl.
  - rewrite DictFacts.get_set_same. simpl. unfold with_agents. simpl.
    now rewrite DictFacts.set_set.
  - now rewrite Hget.
Qed.

Lemma update_stats_get_same key f r ad :
  Dict.get (agents r) key = Some ad ->
  Dict.get (agents (update_stats key f r)) key =
  Some {| instance := instance ad; config_ref := config_ref ad;
          stats := f (stats ad) |}.
Proof.
  intros H. unfold update_stats. rewrite H. simpl.
  apply DictFacts.get_set_same.
Qed.

Lemma update_stats_get_other key f r k :
  k <> key ->
  Dict.get (agents (update_stats key f r)) k = Dict.get (agents r) k.
Proof.
  intros H. unfold update_stats.
  destruct (Dict.get (agents r) key); simpl; [|reflexivity].
  now apply DictFacts.get_set_other.
Qed.

Lemma update_stats_keys key f r :
  Dict.keys (agents (update_stats key f r)) = Dict.keys (agents r).
Proof.
  unfold update_stats.
  destruct (Dict.get (agents r) key) eqn:H; simpl; [|reflexivity].
  apply DictFacts.keys_set_present. eapply DictFacts.get_in_keys; eauto.
Qed.

(** The ["stats"] dictionary after a run that returned [v] and after a run
    that raised [e]. *)
Definition stats_after_success (t v : string) (d : Z)
    (st : stage_stats) : stage_stats :=
  set_execution_time d
    (set_last_result v (set_last_run t (incr_successes (incr_runs st)))).

Definition stats_after_error (t : string) (e : exn)
    (st : stage_stats) : stage_stats :=
  set_last_result ("错误: " ++ exn_str e)%string
    (set_last_run t (incr_errors (incr_runs st))).

(** The outside after one call of [run_once] through [_run_agent_once]:
    three readings of the clock and the call. *)
Definition world_after_call (key : string) (w : world) : world :=
  {| clock := S (S (S (clock w))); calls := calls w ++ [key];
     sleeps := sleeps w; joins := joins w; objects := objects w |}.

Lemma _run_agent_once_missing E key s :
  Dict.get (agents (self s)) key = None ->
  _run_agent_once E key s = (Ok false, s).
Proof.
  intros H. unfold _run_agent_once, bind, gets. simpl. now rewrite H.
Qed.

Lemma _run_agent_once_returns E key s ad v :
  Dict.get (agents (self s)) key = Some ad ->
  run_once E (instance ad) (List.length (calls (outside s))) = Returns v ->
  _run_agent_once E key s =
  (Ok true,
   {| self :=
        update_stats key
          (stats_after_success
             (isoformat E (S (S (clock (outside s))))) v
             (time_time E (S (clock (outside s)))
              - time_time E (clock (outside s))))
          (self s);
      outside := world_after_call key (outside s) |}).
Proof.
  intros Hget Hrun.
  unfold _run_agent_once, bind, gets, try_except. simpl. rewrite Hget.
  unfold bind, py_time, call_run_once, now_isoformat, bind, read_world,
    on_world, modify, ret. simpl. rewrite Hrun. simpl.
  rewrite !update_stats_fuse. reflexivity.
Qed.

Lemma _run_agent_once_raises E key s ad e :
  Dict.get (agents (self s)) key = Some ad ->
  run_once E (instance ad) (List.length (calls (outside s))) = Raises e ->
  _run_agent_once E key s =
  (Ok false,
   {| self :=
        append_error
          {| err_time := isoformat E (S (S (clock (outside s))));
             err_agent := name (config_of (self s) ad);
             err_error := exn_str e |}
          (update_stats key
             (stats_after_error (isoformat E (S (clock (outside s)))) e)
             (self s));
      outside := world_after_call key (outside s) |}).
Proof.
  intros Hget Hrun.
  unfold _run_agent_once, bind, gets, try_except. simpl. rewrite Hget.
  unfold bind, py_time, call_run_once, now_isoformat, bind, read_world,
    on_world, modify, ret, raise. simpl. rewrite Hrun. simpl.
  rewrite !update_stats_fuse. reflexivity.
Qed.

(** What an invocation leaves alone: every field of the runner except the
    ["stats"] dictionaries of the agents and the error log. *)
Definition skeleton (a : Dict.t agent_data) : list (string * nat * nat) :=
  map (fun p => (fst p, instance (snd p), config_ref (snd p))) a.

Record same_but_stats (r r' : runner) : Prop := {
  sbs_configs : agent_configs r' = agent_configs r;
  sbs_mode : mode r' = mode r;
  sbs_interval : global_interval r' = global_interval r;
  sbs_workers : max_workers r' = max_workers r;
  sbs_delay : pipeline_delay r' = pipeline_delay r;
  sbs_threads : threads r' = threads r;
  sbs_running : running r' = running r;
  sbs_start : start_time (self_stats r') = start_time (self_stats r);
  sbs_cycles : total_cycles (self_stats r') = total_cycles (self_stats r);
  sbs_agents : skeleton (agents r') = skeleton (agents r)
}.

Lemma same_but_stats_refl r : same_but_stats r r.
Proof. now constructor. Qed.

Lemma same_but_stats_trans r1 r2 r3 :
  same_but_stats r1 r2 -> same_but_stats r2 r3 -> same_but_stats r1 r3.
Proof.
  intros [] []. constructor; congruence.
Qed.

Lemma skeleton_set a key ad ad' :
  Dict.get a key = Some ad ->
  instance ad' = instance ad -> config_ref ad' = config_ref ad ->
  skeleton (Dict.set a key ad') = skeleton a.
Proof.
  intros Hget Hi Hc. induction a as [|[k v] a IH]; simpl in *.
  - discriminate.
  - destruct (String.eqb k key) eqn:Hk; simpl.
    + injection Hget as ->. now rewrite Hi, Hc.
    + now rewrite IH.
Qed.

Lemma skeleton_keys a a' :
  skeleton a' = skeleton a -> Dict.keys a' = Dict.keys a.
Proof.
  unfold skeleton, Dict.keys. intros H.
  apply (f_equal (map (fun t => fst (fst t)))) in H.
  rewrite !map_map in H. exact H.
Qed.

Lemma skeleton_mem a a' k :
  skeleton a' = skeleton a -> Dict.mem a' k = Dict.mem a k.
Proof.
  intros H. apply skeleton_keys in H.
  destruct (Dict.mem a k) eqn:Hm.
  - apply DictFacts.mem_keys. rewrite H. now apply DictFacts.mem_keys.
  - destruct (Dict.mem a' k) eqn:Hm'; [|reflexivity].
    apply DictFacts.mem_keys in Hm'. rewrite H in Hm'.
    apply DictFacts.mem_keys in Hm'. congruence.
Qed.

Lemma skeleton_get a a' k ad' :
  skeleton a' = skeleton a -> Dict.get a' k = Some ad' ->
  exists ad, Dict.get a k = Some ad /\
             instance ad' = instance ad /\ config_ref ad' = config_ref ad.
Proof.
  revert a'. induction a as [|[k0 v0] a IH]; intros [|[k1 v1] a'];
    simpl; try discriminate.
  intros H. injection H as Hk Hi Hc Ht. subst k1.
  destruct (String.eqb k0 k).
  - intros [= ->]. eauto.
  - now apply IH.
Qed.

Lemma update_stats_same_but_stats key f r :
  same_but_stats r (update_stats key f r).
Proof.
  unfold update_stats.
  destruct (Dict.get (agents r) key) as [ad|] eqn:Hget.
  - constructor; simpl; try reflexivity.
    eapply skeleton_set; eauto.
  - apply same_but_stats_refl.
Qed.

Lemma append_error_same_but_stats entry r :
  same_but_stats r (append_error entry r).
Proof. now constructor. Qed.

Lemma check_dependencies_loop_skeleton a a' deps :
  skeleton a' = skeleton a ->
  check_dependencies_loop a' deps = check_dependencies_loop a deps.
Proof.
  intros H. induction deps as [|dep deps IH]; simpl.
  - reflexivity.
  - now rewrite (skeleton_mem _ _ dep H), IH.
Qed.

Lemma _check_dependencies_same_but_stats r r' c :
  same_but_stats r r' ->
  _check_dependencies r' c = _check_dependencies r c.
Proof.
  intros H. apply check_dependencies_loop_skeleton, H.
Qed.

(** The three ways [_run_agent_once] ends; none of them is an exception. *)
Inductive invocation (E : env) (key : string) (s : state) :
    bool -> state -> Prop :=
| invocation_missing :
    Dict.get (agents (self s)) key = None ->
    invocation E key s false s
| invocation_returns ad v :
    Dict.get (agents (self s)) key = Some ad ->
    run_once E (instance ad) (List.length (calls (outside s))) = Returns v ->
    invocation E key s true
      {| self :=
           update_stats key
             (stats_after_success
                (isoformat E (S (S (clock (outside s))))) v
                (time_time E (S (clock (outside s)))
                 - time_time E (clock (outside s))))
             (self s);
         outside := world_after_call key (outside s) |}
| invocation_raises ad e :
    Dict.get (agents (self s)) key = Some ad ->
    run_once E (instance ad) (List.length (calls (outside s))) = Raises e ->
    invocation E key s false
      {| self :=
           append_error
             {| err_time := isoformat E (S (S (clock (outside s))));
                err_agent := name (config_of (self s) ad);
                err_error := exn_str e |}
             (update_stats key
                (stats_after_error (isoformat E (S (clock (outside s)))) e)
                (self s));
         outside := world_after_call key (outside s) |}.

Lemma _run_agent_once_cases E key s :
  exists b s', _run_agent_once E key s = (Ok b, s') /\
               invocation E key s b s'.
Proof.
  destruct (Dict.get (agents (self s)) key) as [ad|] eqn:Hget.
  - destruct (run_once E (instance ad) (List.length (calls (outside s))))
      as [v|e] eqn:Hrun.
    + eexists _, _. split.
      * eapply _run_agent_once_returns; eauto.
      * eapply invocation_returns; eauto.
    + eexists _, _. split.
      * eapply _run_agent_once_raises; eauto.
      * eapply invocation_raises; eauto.
  - eexists _, _. split.
    + now apply _run_agent_once_missing.
    + now constructor.
Qed.

Lemma invocation_same_but_stats E key s b s' :
  invocation E key s b s' -> same_but_stats (self s) (self s').
Proof.
  destruct 1; simpl.
  - apply same_but_stats_refl.
  - apply update_stats_same_but_stats.
  - eapply same_but_stats_trans;
      [apply update_stats_same_but_stats|apply append_error_same_but_stats].
Qed.

(** ** The loop of a pass *)

(** The state after the inter-stage delay, which only a success takes. *)
Definition after_delay (success : bool) (s : state) : state :=
  if success && (0 <? pipeline_delay (self s))
  then {| self := self s;
          outside := log_sleep (pipeline_delay (self s)) (outside s) |}
  else s.

(** *** What [time.sleep] does *)

Lemma time_sleep_made E secs s :
  sleep_error E secs = None ->
  time_sleep E secs s =
  (Ok tt, {| self := self s; outside := log_sleep secs (outside s) |}).
Proof. intros H. unfold time_sleep. now rewrite H. Qed.

Lemma time_sleep_raises E secs e s :
  sleep_error E secs = Some e -> time_sleep E secs s = (Exc e, s).
Proof. intros H. unfold time_sleep. now rewrite H. Qed.

Lemma sleep_error_small E secs :
  0 <= secs <= sleep_small -> sleep_error E secs = None.
Proof.
  intros [H0 H1]. unfold sleep_error.
  assert (Hmax : sleep_small < sleep_max) by reflexivity.
  assert (Hpos : 0 < sleep_max) by reflexivity.
  replace ((secs <? - sleep_max) || (sleep_max <? secs)) with false
    by (symmetry; apply orb_false_iff; split; apply Z.ltb_ge; lia).
  replace (secs <? 0) with false by (symmetry; apply Z.ltb_ge; lia).
  now replace (secs <=? sleep_small) with true
    by (symmetry; apply Z.leb_le; lia).
Qed.

Lemma sleep_error_negative E secs :
  secs < 0 -> exists e, sleep_error E secs = Some e.
Proof.
  intros H. unfold sleep_error.
  destruct ((secs <? - sleep_max) || (sleep_max <? secs)); [eauto|].
  replace (secs <? 0) with true by (symmetry; apply Z.ltb_lt; lia). eauto.
Qed.

Lemma sleep_error_too_long E secs :
  sleep_max < secs ->
  sleep_error E secs =
  Some {| exn_class := "OverflowError";
          exn_str := "timestamp too large to convert to C _PyTime_t" |}.
Proof.
  intros H. unfold sleep_error.
  replace (sleep_max <? secs) with true by (symmetry; apply Z.ltb_lt; lia).
  now rewrite orb_true_r.
Qed.

(** The delay between stages can be slept: a pass sleeps it only when it is
    positive. *)
Definition can_delay (E : env) (r : runner) : Prop :=
  0 < pipeline_delay r -> sleep_error E (pipeline_delay r) = None.

Lemma can_delay_small E r : pipeline_delay r <= sleep_small -> can_delay E r.
Proof. intros H Hpos. apply sleep_error_small. lia. Qed.

Lemma can_delay_same_but_stats E r r' :
  same_but_stats r r' -> can_delay E r -> can_delay E r'.
Proof. intros H. unfold can_delay. now rewrite (sbs_delay _ _ H). Qed.

(** One stage of the loop whose dependencies are satisfied: the invocation,
    then the delay after a success, which raises when it cannot be slept. *)
Lemma run_configs_invoke E c rest results s b s' :
  _check_dependencies (self s) c = true ->
  _run_agent_once E (module c) s = (Ok b, s') ->
  run_configs E (c :: rest) results s =
  if b && (0 <? pipeline_delay (self s'))
  then match sleep_error E (pipeline_delay (self s')) with
       | Some e => (Exc e, s')
       | None =>
           run_configs E rest (Dict.set results (module c) b)
             {| self := self s';
                outside := log_sleep (pipeline_delay (self s')) (outside s') |}
       end
  else run_configs E rest (Dict.set results (module c) b) s'.
Proof.
  intros Hdeps Heq. simpl. unfold bind at 1. unfold gets at 1. simpl.
  rewrite Hdeps. simpl. unfold bind at 1. rewrite Heq.
  unfold bind at 1. unfold gets at 1. simpl. unfold bind at 1.
  destruct (b && (0 <? pipeline_delay (self s'))).
  - unfold time_sleep.
    destruct (sleep_error E (pipeline_delay (self s'))); reflexivity.
  - reflexivity.
Qed.

Lemma run_configs_skip E c rest results s :
  _check_dependencies (self s) c = false ->
  run_configs E (c :: rest) results s =
  run_configs E rest (Dict.set results (module c) false) s.
Proof.
  intros Hdeps. simpl. unfold bind at 1. unfold gets at 1. simpl.
  now rewrite Hdeps.
Qed.

(** An invariant [R done results s] of the stages attempted so far, of the
    results and of the state holds when the loop ends, and the loop ends
    with results, when the delay between stages can be slept. *)
Lemma run_configs_rule E (R : list config -> Dict.t bool -> state -> Prop) :
  (forall done c res s,
      R done res s -> _check_dependencies (self s) c = false ->
      R (done ++ [c]) (Dict.set res (module c) false) s) ->
  (forall done c res s b s',
      R done res s -> _check_dependencies (self s) c = true ->
      invocation E (module c) s b s' ->
      R (done ++ [c]) (Dict.set res (module c) b) (after_delay b s')) ->
  forall cs done results s,
    can_delay E (self s) ->
    R done results s ->
    exists res' s',
      run_configs E cs results s = (Ok res', s') /\ R (done ++ cs) res' s'.
Proof.
  intros Hskip Hrun. induction cs as [|c cs IH]; intros done results s Hcan HR.
  - exists results, s. rewrite app_nil_r. now split.
  - replace (done ++ c :: cs) with ((done ++ [c]) ++ cs)
      by (now rewrite <- app_assoc).
    destruct (_check_dependencies (self s) c) eqn:Hdeps.
    + destruct (_run_agent_once_cases E (module c) s) as (b & s' & Heq & Hinv).
      rewrite (run_configs_invoke E c cs results s b s' Hdeps Heq).
      specialize (Hrun _ _ _ _ _ _ HR Hdeps Hinv).
      assert (Hcan' : can_delay E (self s'))
        by (eapply can_delay_same_but_stats;
            [eapply invocation_same_but_stats; eauto | exact Hcan]).
      unfold after_delay in Hrun.
      destruct (b && (0 <? pipeline_delay (self s'))) eqn:Hd.
      * rewrite Hcan'
          by (apply andb_prop in Hd; destruct Hd as [_ Hd];
              now apply Z.ltb_lt in Hd).
        now apply IH.
      * now apply IH.
    + rewrite (run_configs_skip E c cs results s Hdeps).
      apply IH; [exact Hcan | now apply Hskip].
Qed.

(** A stage is invoked by a pass when its dependencies are satisfied and it
    is loaded. *)
Definition runnable (r : runner) (c : config) : bool :=
  _check_dependencies r c && Dict.mem (agents r) (module c).

Lemma runnable_same_but_stats r r' c :
  same_but_stats r r' -> runnable r' c = runnable r c.
Proof.
  intros H. unfold runnable.
  rewrite (_check_dependencies_same_but_stats _ _ _ H).
  now rewrite (skeleton_mem _ _ _ (sbs_agents _ _ H)).
Qed.

Lemma after_delay_self b s : self (after_delay b s) = self s.
Proof. unfold after_delay. now destruct (b && _). Qed.

Lemma after_delay_calls b s :
  calls (outside (after_delay b s)) = calls (outside s).
Proof. unfold after_delay. now destruct (b && _). Qed.

Lemma after_delay_false s : after_delay false s = s.
Proof. reflexivity. Qed.

Lemma invocation_calls E key s b s' :
  invocation E key s b s' ->
  calls (outside s') =
  calls (outside s) ++ (if Dict.mem (agents (self s)) key then [key] else []).
Proof.
  unfold Dict.mem. destruct 1 as [H|ad v H _|ad e H _]; rewrite H; simpl.
  - now rewrite app_nil_r.
  - reflexivity.
  - reflexivity.
Qed.

Lemma filter_snoc {A} (f : A -> bool) l x :
  filter f (l ++ [x]) = filter f l ++ (if f x then [x] else []).
Proof. rewrite filter_app. reflexivity. Qed.

(** A pass ends with results, changes only the stats and the error log, and
    invokes the runnable stages in the order of the list, whatever their
    [run_once] does. *)
Lemma run_configs_calls E cs results s :
  can_delay E (self s) ->
  exists res s',
    run_configs E cs results s = (Ok res, s') /\
    same_but_stats (self s) (self s') /\
    calls (outside s') =
    calls (outside s) ++ map module (filter (runnable (self s)) cs).
Proof.
  intros Hcan.
  pose (R := fun (done : list config) (_ : Dict.t bool) (st : state) =>
    same_but_stats (self s) (self st) /\
    calls (outside st) =
    calls (outside s) ++ map module (filter (runnable (self s)) done)).
  destruct (run_configs_rule E R) with (cs := cs) (done := @nil config)
    (results := results) (s := s) as (res & s' & Heq & HR).
  - intros done c res st [Hs Hc] Hdeps. split; [exact Hs|].
    assert (Hr : runnable (self s) c = false).
    { unfold runnable.
      now rewrite <- (_check_dependencies_same_but_stats _ _ _ Hs), Hdeps. }
    rewrite filter_snoc, Hr. now rewrite app_nil_r.
  - intros done c res st b st' [Hs Hc] Hdeps Hinv. split.
    + rewrite after_delay_self.
      eapply same_but_stats_trans; [exact Hs|].
      eapply invocation_same_but_stats; eauto.
    + rewrite after_delay_calls, (invocation_calls _ _ _ _ _ Hinv), Hc.
      assert (Hr : runnable (self s) c = Dict.mem (agents (self st)) (module c)).
      { unfold runnable.
        rewrite <- (_check_dependencies_same_but_stats _ _ _ Hs), Hdeps.
        now rewrite <- (skeleton_mem _ _ _ (sbs_agents _ _ Hs)). }
      rewrite filter_snoc, map_app, <- app_assoc, Hr.
      now destruct (Dict.mem _ _).
  - exact Hcan.
  - split; [apply same_but_stats_refl | simpl; now rewrite app_nil_r].
  - exists res, s'. simpl in HR. destruct HR. auto.
Qed.

(** The results of a pass: a key per stage of the list; a key whose stages
    are all skipped maps to [False]; the other keys are untouched. *)
Lemma run_configs_results E cs results s :
  can_delay E (self s) ->
  exists res s',
    run_configs E cs results s = (Ok res, s') /\
    (forall k, ~ In k (map module cs) ->
               Dict.get res k = Dict.get results k) /\
    (forall c, In c cs -> Dict.mem res (module c) = true) /\
    (forall k, In k (map module cs) ->
       (forall c, In c cs -> module c = k ->
                  _check_dependencies (self s) c = false) ->
       Dict.get res k = Some false).
Proof.
  intros Hcan.
  pose (R := fun (done : list config) (res : Dict.t bool) (st : state) =>
    same_but_stats (self s) (self st) /\
    (forall k, ~ In k (map module done) ->
               Dict.get res k = Dict.get results k) /\
    (forall c, In c done -> Dict.mem res (module c) = true) /\
    (forall k, In k (map module done) ->
       (forall c, In c done -> module c = k ->
                  _check_dependencies (self s) c = false) ->
       Dict.get res k = Some false)).
  assert (Hstep : forall done c res st b st',
    R done res st -> same_but_stats (self s) (self st') ->
    (b = true -> _check_dependencies (self s) c = true) ->
    R (done ++ [c]) (Dict.set res (module c) b) st').
  { intros done c res st b st' (Hs & Hother & Hkeys & Hfalse) Hs' Hb.
    split; [exact Hs'|]. split; [|split].
    - intros k Hk. rewrite map_app, in_app_iff in Hk. simpl in Hk.
      rewrite DictFacts.get_set_other by (intros Heq; subst k; tauto).
      apply Hother. tauto.
    - intros c' Hc'. rewrite DictFacts.mem_set.
      apply in_app_iff in Hc'. destruct Hc' as [Hc'|[->|[]]].
      + rewrite (Hkeys _ Hc'). apply orb_true_r.
      + now rewrite String.eqb_refl.
    - intros k Hk Hall.
      destruct (String.eqb_spec (module c) k) as [<-|Hne].
      + rewrite DictFacts.get_set_same. destruct b; [|reflexivity].
        assert (Hin : In c (done ++ [c])) by (apply in_app_iff; simpl; auto).
        specialize (Hall c Hin eq_refl).
        rewrite Hb in Hall by reflexivity. discriminate.
      + rewrite DictFacts.get_set_other by exact Hne.
        rewrite map_app, in_app_iff in Hk. simpl in Hk.
        apply Hfalse; [tauto|].
        intros c' Hc' Hm. apply Hall; [|exact Hm].
        apply in_app_iff. now left. }
  destruct (run_configs_rule E R) with (cs := cs) (done := @nil config)
    (results := results) (s := s) as (res & s' & Heq & HR).
  - intros done c res st HR Hdeps.
    eapply Hstep; [exact HR | apply HR | discriminate].
  - intros done c res st b st' HR Hdeps Hinv.
    eapply Hstep; [exact HR | |].
    + rewrite after_delay_self.
      eapply same_but_stats_trans; [apply HR|].
      eapply invocation_same_but_stats; eauto.
    + intros _. destruct HR as [Hs _].
      now rewrite <- (_check_dependencies_same_but_stats _ _ _ Hs).
  - exact Hcan.
  - split; [apply same_but_stats_refl|].
    simpl. repeat split; intros; try reflexivity; contradiction.
  - exists res, s'. simpl in HR. destruct HR as (_ & H1 & H2 & H3). auto.
Qed.

(** *** What an invocation does to the stats and to the error log *)

Lemma invocation_not_loaded E key s b s' :
  invocation E key s b s' ->
  Dict.mem (agents (self s)) key = false -> b = false /\ s' = s.
Proof.
  unfold Dict.mem. destruct 1 as [H|ad v H _|ad e H _]; rewrite H;
    [auto | discriminate | discriminate].
Qed.

Lemma invocation_agents_other E key s b s' k :
  invocation E key s b s' -> k <> key ->
  Dict.get (agents (self s')) k = Dict.get (agents (self s)) k.
Proof.
  destruct 1; intros Hk; simpl.
  - reflexivity.
  - now apply update_stats_get_other.
  - now apply update_stats_get_other.
Qed.

Lemma invocation_error_log E key s b s' :
  invocation E key s b s' ->
  exists new,
    error_log (self_stats (self s')) =
    error_log (self_stats (self s)) ++ new /\
    (List.length new <= 1)%nat.
Proof.
  destruct 1 as [H|ad v H _|ad e H _]; simpl.
  - exists []. rewrite app_nil_r. split; [reflexivity | simpl; lia].
  - exists []. rewrite app_nil_r. split; [|simpl; lia].
    unfold update_stats. now rewrite H.
  - eexists [_]. split; [|simpl; lia].
    unfold update_stats. rewrite H. reflexivity.
Qed.

Lemma invocation_counts E key s b s' ad :
  invocation E key s b s' ->
  Dict.get (agents (self s)) key = Some ad ->
  exists ad',
    Dict.get (agents (self s')) key = Some ad' /\
    runs (stats ad') = runs (stats ad) + 1 /\
    (if b
     then successes (stats ad') = successes (stats ad) + 1 /\
          errors (stats ad') = errors (stats ad)
     else successes (stats ad') = successes (stats ad) /\
          errors (stats ad') = errors (stats ad) + 1).
Proof.
  destruct 1 as [H|ad0 v H _|ad0 e H _]; intros Hget; simpl.
  - congruence.
  - rewrite (update_stats_get_same _ _ _ _ Hget). eexists. split; eauto.
  - rewrite (update_stats_get_same _ _ _ _ Hget). eexists. split; eauto.
Qed.

(** What a pass leaves alone: the entry of every key that is not the key of
    a runnable stage; the error log grows by at most one entry per runnable
    stage; a pass in which no stage is runnable changes nothing at all. *)
Lemma run_configs_frame E cs results s :
  can_delay E (self s) ->
  exists res s',
    run_configs E cs results s = (Ok res, s') /\
    (forall k, ~ In k (map module (filter (runnable (self s)) cs)) ->
               Dict.get (agents (self s')) k = Dict.get (agents (self s)) k) /\
    (exists new,
        error_log (self_stats (self s')) =
        error_log (self_stats (self s)) ++ new /\
        (List.length new <= List.length (filter (runnable (self s)) cs))%nat) /\
    (filter (runnable (self s)) cs = [] -> s' = s).
Proof.
  intros Hcan.
  pose (R := fun (done : list config) (_ : Dict.t bool) (st : state) =>
    same_but_stats (self s) (self st) /\
    (forall k, ~ In k (map module (filter (runnable (self s)) done)) ->
               Dict.get (agents (self st)) k = Dict.get (agents (self s)) k) /\
    (exists new,
        error_log (self_stats (self st)) =
        error_log (self_stats (self s)) ++ new /\
        (List.length new <= List.length (filter (runnable (self s)) done))%nat) /\
    (filter (runnable (self s)) done = [] -> st = s)).
  assert (Hidle : forall done c res st,
    R done res st -> runnable (self s) c = false -> R (done ++ [c]) res st).
  { intros done c res st HR Hr. unfold R.
    rewrite filter_snoc, Hr, app_nil_r. exact HR. }
  destruct (run_configs_rule E R) with (cs := cs) (done := @nil config)
    (results := results) (s := s) as (res & s' & Heq & HR).
  - intros done c res st HR Hdeps. apply Hidle; [exact HR|].
    destruct HR as [Hs _]. unfold runnable.
    now rewrite <- (_check_dependencies_same_but_stats _ _ _ Hs), Hdeps.
  - intros done c res st b st' HR Hdeps Hinv.
    assert (Hs : same_but_stats (self s) (self st)) by apply HR.
    assert (Hr : runnable (self s) c = Dict.mem (agents (self st)) (module c)).
    { unfold runnable.
      rewrite <- (_check_dependencies_same_but_stats _ _ _ Hs), Hdeps.
      now rewrite <- (skeleton_mem _ _ _ (sbs_agents _ _ Hs)). }
    destruct (Dict.mem (agents (self st)) (module c)) eqn:Hmem.
    + destruct HR as (_ & Hother & (new & Hlog & Hlen) & _).
      unfold R. rewrite filter_snoc, Hr, after_delay_self.
      split; [|split; [|split]].
      * eapply same_but_stats_trans; [exact Hs|].
        eapply invocation_same_but_stats; eauto.
      * intros k Hk. rewrite map_app, in_app_iff in Hk. simpl in Hk.
        rewrite (invocation_agents_other _ _ _ _ _ k Hinv)
          by (intros Heq; subst k; tauto).
        apply Hother. tauto.
      * destruct (invocation_error_log _ _ _ _ _ Hinv) as (new' & Hlog' & Hlen').
        exists (new ++ new'). rewrite Hlog', Hlog, <- app_assoc.
        split; [reflexivity|]. rewrite !length_app. simpl. lia.
      * intros Hnil. now apply app_eq_nil in Hnil.
    + destruct (invocation_not_loaded _ _ _ _ _ Hinv Hmem) as [-> ->].
      rewrite after_delay_false. now apply Hidle.
  - exact Hcan.
  - split; [apply same_but_stats_refl|]. simpl. split; [auto|]. split; [|auto].
    exists []. now rewrite app_nil_r.
  - exists res, s'. destruct HR as (_ & H1 & H2 & H3). auto.
Qed.

(** *** A pass whose delay cannot be slept *)

(** The state after the delay was attempted: when [time.sleep] raises,
    nothing was slept. *)
Definition attempted_delay (E : env) (success : bool) (s : state) : state :=
  if success && (0 <? pipeline_delay (self s))
  then match sleep_error E (pipeline_delay (self s)) with
       | None => {| self := self s;
                    outside := log_sleep (pipeline_delay (self s)) (outside s) |}
       | Some _ => s
       end
  else s.

Lemma attempted_delay_self E b s : self (attempted_delay E b s) = self s.
Proof.
  unfold attempted_delay. destruct (b && _); [|reflexivity].
  now destruct (sleep_error E _).
Qed.

Lemma attempted_delay_calls E b s :
  calls (outside (attempted_delay E b s)) = calls (outside s).
Proof.
  unfold attempted_delay. destruct (b && _); [|reflexivity].
  now destruct (sleep_error E _).
Qed.

(** An invariant [Q done s] of the stages attempted so far and of the
    state holds when the loop ends, whether it ends with results or with
    the exception of a delay that cannot be slept; then the stages [post]
    were not reached. *)
Lemma run_configs_always E (Q : list config -> state -> Prop) :
  (forall done c s,
      Q done s -> _check_dependencies (self s) c = false ->
      Q (done ++ [c]) s) ->
  (forall done c s b s',
      Q done s -> _check_dependencies (self s) c = true ->
      invocation E (module c) s b s' ->
      Q (done ++ [c]) (attempted_delay E b s')) ->
  forall cs done results s,
    Q done s ->
    exists r s' ran post,
      run_configs E cs results s = (r, s') /\
      cs = ran ++ post /\
      Q (done ++ ran) s' /\
      match r with
      | Ok _ => post = []
      | Exc e =>
          0 < pipeline_delay (self s') /\
          sleep_error E (pipeline_delay (self s')) = Some e /\
          exists c ran', ran = ran' ++ [c] /\
                         _check_dependencies (self s') c = true /\
                         Dict.mem (agents (self s')) (module c) = true
      end.
Proof.
  intros Hskip Hrun. induction cs as [|c cs IH]; intros done results s HQ.
  - exists (Ok results), s, [], []. rewrite !app_nil_r.
    repeat split; auto.
  - destruct (_check_dependencies (self s) c) eqn:Hdeps.
    + destruct (_run_agent_once_cases E (module c) s) as (b & s1 & Heq & Hinv).
      rewrite (run_configs_invoke E c cs results s b s1 Hdeps Heq).
      specialize (Hrun _ _ _ _ _ HQ Hdeps Hinv).
      unfold attempted_delay in Hrun.
      destruct (b && (0 <? pipeline_delay (self s1))) eqn:Hd.
      * destruct (sleep_error E (pipeline_delay (self s1))) as [e|] eqn:He.
        -- exists (Exc e), s1, [c], cs. split; [reflexivity|].
           split; [reflexivity|]. split; [exact Hrun|].
           apply andb_prop in Hd. destruct Hd as [Hb Hd]. subst b.
           split; [now apply Z.ltb_lt|]. split; [exact He|].
           exists c, []. split; [reflexivity|].
           pose proof (invocation_same_but_stats _ _ _ _ _ Hinv) as Hs.
           rewrite (_check_dependencies_same_but_stats _ _ _ Hs).
           split; [exact Hdeps|].
           rewrite (skeleton_mem _ _ _ (sbs_agents _ _ Hs)).
           destruct (Dict.mem (agents (self s)) (module c)) eqn:Hm;
             [reflexivity|].
           now destruct (invocation_not_loaded _ _ _ _ _ Hinv Hm).
        -- destruct (IH (done ++ [c]) (Dict.set results (module c) b) _ Hrun)
             as (r & s' & ran & post & Heq' & Hcs & HQ' & Hr).
           exists r, s', (c :: ran), post. split; [exact Heq'|].
           split; [simpl; now rewrite Hcs|].
           split; [now rewrite <- app_assoc in HQ'|].
           destruct r as [res|e]; [exact Hr|].
           destruct Hr as (H1 & H2 & c' & ran' & -> & H3).
           split; [exact H1|]. split; [exact H2|].
           exists c', (c :: ran'). auto.
      * destruct (IH (done ++ [c]) (Dict.set results (module c) b) _ Hrun)
          as (r & s' & ran & post & Heq' & Hcs & HQ' & Hr).
        exists r, s', (c :: ran), post. split; [exact Heq'|].
        split; [simpl; now rewrite Hcs|].
        split; [now rewrite <- app_assoc in HQ'|].
        destruct r as [res|e]; [exact Hr|].
        destruct Hr as (H1 & H2 & c' & ran' & -> & H3).
        split; [exact H1|]. split; [exact H2|].
        exists c', (c :: ran'). auto.
    + rewrite (run_configs_skip E c cs results s Hdeps).
      destruct (IH (done ++ [c]) (Dict.set results (module c) false) s
                  (Hskip _ _ _ HQ Hdeps))
        as (r & s' & ran & post & Heq' & Hcs & HQ' & Hr).
      exists r, s', (c :: ran), post. split; [exact Heq'|].
      split; [simpl; now rewrite Hcs|].
      split; [now rewrite <- app_assoc in HQ'|].
      destruct r as [res|e]; [exact Hr|].
      destruct Hr as (H1 & H2 & c' & ran' & -> & H3).
      split; [exact H1|]. split; [exact H2|].
      exists c', (c :: ran'). auto.
Qed.

(** Whatever the outcome of a pass, it only changes the stats and the
    error log; it has invoked the runnable stages among those it reached,
    [ran], in order; and the entry of every other key is untouched.  It
    ends with an exception only when a stage has succeeded and the delay
    after it cannot be slept. *)
Lemma run_configs_any E cs results s :
  exists r s' ran post,
    run_configs E cs results s = (r, s') /\
    cs = ran ++ post /\
    same_but_stats (self s) (self s') /\
    calls (outside s') =
      calls (outside s) ++ map module (filter (runnable (self s)) ran) /\
    (forall k, ~ In k (map module (filter (runnable (self s)) ran)) ->
               Dict.get (agents (self s')) k = Dict.get (agents (self s)) k) /\
    match r with
    | Ok _ => post = []
    | Exc e =>
        0 < pipeline_delay (self s) /\
        sleep_error E (pipeline_delay (self s)) = Some e /\
        exists c ran', ran = ran' ++ [c] /\ runnable (self s) c = true
    end.
Proof.
  pose (Q := fun (done : list config) (st : state) =>
    same_but_stats (self s) (self st) /\
    calls (outside st) =
      calls (outside s) ++ map module (filter (runnable (self s)) done) /\
    (forall k, ~ In k (map module (filter (runnable (self s)) done)) ->
               Dict.get (agents (self st)) k = Dict.get (agents (self s)) k)).
  destruct (run_configs_always E Q) with (cs := cs) (done := @nil config)
    (results := results) (s := s) as (r & s' & ran & post & Heq & Hcs & HQ & Hr).
  - intros done c st (Hs & Hc & Ho) Hdeps.
    assert (Hr : runnable (self s) c = false).
    { unfold runnable.
      now rewrite <- (_check_dependencies_same_but_stats _ _ _ Hs), Hdeps. }
    unfold Q. rewrite filter_snoc, Hr, app_nil_r. auto.
  - intros done c st b st' (Hs & Hc & Ho) Hdeps Hinv.
    assert (Hr : runnable (self s) c = Dict.mem (agents (self st)) (module c)).
    { unfold runnable.
      rewrite <- (_check_dependencies_same_but_stats _ _ _ Hs), Hdeps.
      now rewrite <- (skeleton_mem _ _ _ (sbs_agents _ _ Hs)). }
    unfold Q. rewrite attempted_delay_self, attempted_delay_calls.
    split; [|split].
    + eapply same_but_stats_trans; [exact Hs|].
      eapply invocation_same_but_stats; eauto.
    + rewrite (invocation_calls _ _ _ _ _ Hinv), Hc.
      rewrite filter_snoc, map_app, <- app_assoc, Hr.
      now destruct (Dict.mem _ _).
    + intros k Hk. rewrite filter_snoc, Hr, map_app, in_app_iff in Hk.
      destruct (Dict.mem (agents (self st)) (module c)) eqn:Hmem.
      * simpl in Hk.
        rewrite (invocation_agents_other _ _ _ _ _ k Hinv)
          by (intros Heq; subst k; tauto).
        apply Ho. tauto.
      * destruct (invocation_not_loaded _ _ _ _ _ Hinv Hmem) as [_ ->].
        apply Ho. simpl in Hk. tauto.
  - split; [apply same_but_stats_refl|]. split; [simpl; now rewrite app_nil_r|].
    auto.
  - destruct HQ as (Hs & Hc & Ho). simpl in Hc, Ho.
    exists r, s', ran, post. split; [exact Heq|]. split; [exact Hcs|].
    split; [exact Hs|]. split; [exact Hc|]. split; [exact Ho|].
    destruct r as [res|e]; [exact Hr|].
    destruct Hr as (H1 & H2 & c & ran' & Hran & H3 & H4).
    rewrite (sbs_delay _ _ Hs) in H1, H2.
    split; [exact H1|]. split; [exact H2|]. exists c, ran'.
    split; [exact Hran|]. unfold runnable.
    rewrite <- (_check_dependencies_same_but_stats _ _ _ Hs), H3.
    now rewrite <- (skeleton_mem _ _ _ (sbs_agents _ _ Hs)), H4.
Qed.

(** The counters of a stage only grow, and by as much on both sides of
    [successes + errors == runs]. *)
Definition counts_grow (st st' : stage_stats) : Prop :=
  runs st <= runs st' /\ successes st <= successes st' /\
  errors st <= errors st' /\
  runs st' - runs st =
  (successes st' - successes st) + (errors st' - errors st).

Lemma counts_grow_refl st : counts_grow st st.
Proof. unfold counts_grow. lia. Qed.

Lemma counts_grow_trans st1 st2 st3 :
  counts_grow st1 st2 -> counts_grow st2 st3 -> counts_grow st1 st3.
Proof. unfold counts_grow. lia. Qed.

Lemma invocation_counts_grow E key s b s' k ad :
  invocation E key s b s' ->
  Dict.get (agents (self s)) k = Some ad ->
  exists ad',
    Dict.get (agents (self s')) k = Some ad' /\
    counts_grow (stats ad) (stats ad').
Proof.
  intros Hinv Hget. destruct (String.eqb_spec k key) as [->|Hne].
  - destruct (invocation_counts _ _ _ _ _ _ Hinv Hget) as (ad' & H1 & H2 & H3).
    exists ad'. split; [exact H1|]. unfold counts_grow.
    destruct b; lia.
  - exists ad. rewrite (invocation_agents_other _ _ _ _ _ _ Hinv Hne).
    split; [exact Hget | apply counts_grow_refl].
Qed.

Lemma run_configs_counts E cs results s :
  can_delay E (self s) ->
  exists res s',
    run_configs E cs results s = (Ok res, s') /\
    forall k ad,
      Dict.get (agents (self s)) k = Some ad ->
      exists ad',
        Dict.get (agents (self s')) k = Some ad' /\
        counts_grow (stats ad) (stats ad').
Proof.
  intros Hcan.
  pose (R := fun (_ : list config) (_ : Dict.t bool) (st : state) =>
    forall k ad,
      Dict.get (agents (self s)) k = Some ad ->
      exists ad',
        Dict.get (agents (self st)) k = Some ad' /\
        counts_grow (stats ad) (stats ad')).
  destruct (run_configs_rule E R) with (cs := cs) (done := @nil config)
    (results := results) (s := s) as (res & s' & Heq & HR).
  - intros done c res st HR _. exact HR.
  - intros done c res st b st' HR _ Hinv k ad Hget.
    destruct (HR k ad Hget) as (ad1 & Hget1 & Hg1).
    destruct (invocation_counts_grow _ _ _ _ _ _ _ Hinv Hget1)
      as (ad2 & Hget2 & Hg2).
    exists ad2. rewrite after_delay_self. split; [exact Hget2|].
    eapply counts_grow_trans; eauto.
  - exact Hcan.
  - intros k ad Hget. exists ad. split; [exact Hget | apply counts_grow_refl].
  - exists res, s'. split; [exact Heq | exact HR].
Qed.

(** ** The execution sequence of a pass *)

Lemma _run_pipeline_once_unfold E s :
  _run_pipeline_once E s = run_configs E (sorted_configs (self s)) Dict.empty s.
Proof. reflexivity. Qed.

(** Two enabled descriptors of the same priority. *)
Definition tied_registry : list config :=
  [ {| module := "agents.first"; class := "First"; name := "first";
       priority := 1; dependencies := []; enabled := true |};
    {| module := "agents.second"; class := "Second"; name := "second";
       priority := 1; dependencies := []; enabled := true |} ].

(** C5, as stated, fails: with two enabled descriptors of priority 1 the
    sequence of a pass holds both, so it is not strictly ascending. *)
Lemma C5_tied_priorities_not_strict :
  let r := with_agent_configs tied_registry (init None None None None) in
  ~ (Permutation (sorted_configs r) (filter enabled (agent_configs r)) /\
     StronglySorted (fun a b => priority a < priority b) (sorted_configs r) /\
     forall p, of_key priority p (sorted_configs r) =
               of_key priority p (filter enabled (agent_configs r))).
Proof.
  intros r (_ & Hstrict & _). vm_compute in Hstrict.
  inversion Hstrict as [|? ? _ Hall]; subst.
  inversion Hall as [|? ? Hlt _]; subst.
  vm_compute in Hlt. discriminate.
Qed.

(** C5 (amended).  For every registry, the sequence that a pass walks
    through holds exactly the enabled descriptors (each as often as the
    registry lists it), in ascending order of priority, not necessarily
    strictly: descriptors of equal priority keep their registration order. *)
Theorem C5_sequence_enabled_ascending_stable :
  forall (E : env) (s : state),
    _run_pipeline_once E s =
      run_configs E (sorted_configs (self s)) Dict.empty s /\
    Permutation (sorted_configs (self s))
                (filter enabled (agent_configs (self s))) /\
    StronglySorted (fun a b => priority a <= priority b)
                   (sorted_configs (self s)) /\
    forall p, of_key priority p (sorted_configs (self s)) =
              of_key priority p (filter enabled (agent_configs (self s))).
Proof.
  intros E s. split; [reflexivity|]. split; [|split].
  - apply sorted_perm.
  - apply (sorted_ascending priority).
  - intros p. apply sorted_stable.
Qed.

(** The order is strict when the enabled descriptors have distinct
    priorities, as those of the static registry have. *)
Lemma sorted_configs_strict r :
  NoDup (map priority (filter enabled (agent_configs r))) ->
  StronglySorted (fun a b => priority a < priority b) (sorted_configs r).
Proof. apply (sorted_strict priority). Qed.

Lemma sorted_configs_In r c :
  In c (sorted_configs r) <-> In c (agent_configs r) /\ enabled c = true.
Proof.
  unfold sorted_configs. rewrite sorted_In. apply filter_In.
Qed.

(** ** Scenarios

    Concrete environments and states on which the statements below are
    exercised. *)

(** Every agent is constructed; every [run_once] returns. *)
Definition env_all_ok : env :=
  {| construct := fun _ => Returns tt;
     run_once := fun _ _ => Returns "ok";
     isoformat := fun _ => "2024-01-01T00:00:00";
     time_time := fun n => Z.of_nat n;
     is_alive := fun _ _ => true;
     os_sleep := fun _ => Returns tt |}.

(** As [env_all_ok], but every [run_once] raises. *)
Definition env_all_raise : env :=
  {| construct := fun _ => Returns tt;
     run_once := fun _ _ =>
       Raises {| exn_class := "ConnectionError"; exn_str := "timeout" |};
     isoformat := fun _ => "2024-01-01T00:00:00";
     time_time := fun n => Z.of_nat n;
     is_alive := fun _ _ => true;
     os_sleep := fun _ => Returns tt |}.

(** The runner as [__init__] leaves it when no variable is set, with the
    given run mode. *)
Definition fresh (run_mode : string) : state :=
  {| self := init (Some run_mode) None None None; outside := new_world |}.

(** The state after [_load_all_agents] has loaded the six agents. *)
Definition loaded (run_mode : string) : state :=
  Eval vm_compute in snd (_load_all_agents env_all_ok (fresh run_mode)).

(** ** C3: the counters of a stage *)

(** C3.  Every invocation of a loaded stage through [_run_agent_once]
    returns (it never raises), adds exactly 1 to [runs] and exactly 1 to
    exactly one of [successes] and [errors] of that stage, and leaves the
    entries of the other stages as they are; so for every stage [runs] does
    not decrease and [successes + errors == runs] is preserved. *)
Theorem C3_invocation_counts :
  forall (E : env) (agent_key : string) (s : state) (ad : agent_data),
    Dict.get (agents (self s)) agent_key = Some ad ->
    exists b s' ad',
      _run_agent_once E agent_key s = (Ok b, s') /\
      Dict.get (agents (self s')) agent_key = Some ad' /\
      runs (stats ad') = runs (stats ad) + 1 /\
      (successes (stats ad') = successes (stats ad) + 1 /\
       errors (stats ad') = errors (stats ad)
       \/
       successes (stats ad') = successes (stats ad) /\
       errors (stats ad') = errors (stats ad) + 1) /\
      (forall k, k <> agent_key ->
         Dict.get (agents (self s')) k = Dict.get (agents (self s)) k) /\
      (forall k a,
         Dict.get (agents (self s)) k = Some a ->
         exists a',
           Dict.get (agents (self s')) k = Some a' /\
           runs (stats a) <= runs (stats a') /\
           (successes (stats a) + errors (stats a) = runs (stats a) ->
            successes (stats a') + errors (stats a') = runs (stats a'))).
Proof.
  intros E agent_key s ad Hget.
  destruct (_run_agent_once_cases E agent_key s) as (b & s' & Heq & Hinv).
  destruct (invocation_counts _ _ _ _ _ _ Hinv Hget) as (ad' & H1 & H2 & H3).
  exists b, s', ad'. repeat split; try assumption.
  - destruct b; [left | right]; exact H3.
  - intros k Hk. eapply invocation_agents_other; eauto.
  - intros k a Ha.
    destruct (invocation_counts_grow _ _ _ _ _ _ _ Hinv Ha) as (a' & Ha' & Hg).
    exists a'. split; [exact Ha'|]. unfold counts_grow in Hg. lia.
Qed.

Lemma C3_invocation_counts_witness :
  Dict.get (agents (self (loaded "run_once"))) "agents.hotspot_agent"
  = Some {| instance := 0; config_ref := 0; stats := new_stats |} /\
  exists b s' ad',
    _run_agent_once env_all_raise "agents.hotspot_agent" (loaded "run_once")
    = (Ok b, s') /\
    Dict.get (agents (self s')) "agents.hotspot_agent" = Some ad' /\
    runs (stats ad') = 1.
Proof.
  split; [reflexivity|].
  destruct (C3_invocation_counts env_all_raise "agents.hotspot_agent"
              (loaded "run_once")
              {| instance := 0; config_ref := 0; stats := new_stats |}
              eq_refl)
    as (b & s' & ad' & Heq & Hget & Hruns & _).
  exists b, s', ad'. repeat split; assumption.
Defined.

(** An agent that was never run has consistent counters, and a pass keeps
    the counters of every stage consistent. *)
Lemma new_stats_consistent :
  successes new_stats + errors new_stats = runs new_stats.
Proof. reflexivity. Qed.

Lemma _run_pipeline_once_counts E s :
  can_delay E (self s) ->
  exists res s',
    _run_pipeline_once E s = (Ok res, s') /\
    forall k a,
      Dict.get (agents (self s)) k = Some a ->
      exists a',
        Dict.get (agents (self s')) k = Some a' /\
        runs (stats a) <= runs (stats a') /\
        (successes (stats a) + errors (stats a) = runs (stats a) ->
         successes (stats a') + errors (stats a') = runs (stats a')).
Proof.
  intros Hcan. rewrite _run_pipeline_once_unfold.
  destruct (run_configs_counts E (sorted_configs (self s)) Dict.empty s Hcan)
    as (res & s' & Heq & H).
  exists res, s'. split; [exact Heq|].
  intros k a Ha. destruct (H k a Ha) as (a' & Ha' & Hg).
  exists a'. split; [exact Ha'|]. unfold counts_grow in Hg. lia.
Qed.

(** ** C4: a stage that raises *)


Lemma run_configs_step_skip E c rest results s :
  _check_dependencies (self s) c = false ->
  run_configs E (c :: rest) results s =
  run_configs E rest (Dict.set results (module c) false) s.
Proof. apply run_configs_skip. Qed.



(** ** C2 and C10: a stage whose dependencies are not loaded *)

Lemma check_dependencies_loop_true a deps :
  check_dependencies_loop a deps = true <->
  forall dep, In dep deps -> In dep (Dict.keys a).
Proof.
  induction deps as [|dep deps IH]; simpl.
  - split; [intros _ ? [] | reflexivity].
  - destruct (Dict.mem a dep) eqn:Hmem; simpl.
    + rewrite IH. apply DictFacts.mem_keys in Hmem.
      split; [intros H d [<-|Hd]; auto | intros H d Hd; auto].
    + split; [discriminate|]. intros H.
      assert (Hin : In dep (Dict.keys a)) by auto.
      apply DictFacts.mem_keys in Hin. congruence.
Qed.

Lemma check_dependencies_loop_missing a deps dep :
  In dep deps -> Dict.mem a dep = false ->
  check_dependencies_loop a deps = false.
Proof.
  intros Hin Hmem.
  destruct (check_dependencies_loop a deps) eqn:Hc; [|reflexivity].
  rewrite check_dependencies_loop_true in Hc.
  apply Hc, DictFacts.mem_keys in Hin. congruence.
Qed.

Lemma NoDup_map_filter {A B} (f : A -> B) (g : A -> bool) l :
  NoDup (map f l) -> NoDup (map f (filter g l)).
Proof.
  induction l as [|x l IH]; simpl; intros H; [constructor|].
  inversion H as [|? ? Hnot Hnd]; subst.
  destruct (g x); simpl; [|auto].
  constructor; [|auto].
  intros Hin. apply Hnot. apply in_map_iff in Hin.
  destruct Hin as (y & Hy & Hin). apply filter_In in Hin.
  apply in_map_iff. exists y. tauto.
Qed.

Lemma sorted_configs_NoDup r :
  NoDup (map module (agent_configs r)) ->
  NoDup (map module (sorted_configs r)).
Proof.
  intros H. unfold sorted_configs.
  eapply Permutation_NoDup.
  - apply Permutation_map, Permutation_sym, sorted_perm.
  - now apply NoDup_map_filter.
Qed.

Lemma NoDup_map_unique {A B} (f : A -> B) l x y :
  NoDup (map f l) -> In x l -> In y l -> f x = f y -> x = y.
Proof.
  induction l as [|z l IH]; simpl; intros Hnd Hx Hy Heq; [contradiction|].
  inversion Hnd as [|? ? Hnot Hnd']; subst.
  destruct Hx as [->|Hx], Hy as [->|Hy]; auto.
  - exfalso. apply Hnot. rewrite Heq. now apply in_map.
  - exfalso. apply Hnot. rewrite <- Heq. now apply in_map.
Qed.

Lemma static_registry_modules_distinct : NoDup (map module static_registry).
Proof.
  simpl. repeat constructor; simpl; intuition discriminate.
Qed.

(** A skipped stage in a pass over descriptors of distinct modules: its
    result is [False], it is not invoked, its entry in [self.agents] is
    untouched. *)
Lemma run_configs_skipped E cs results s B :
  can_delay E (self s) ->
  NoDup (map module cs) -> In B cs ->
  _check_dependencies (self s) B = false ->
  exists res s',
    run_configs E cs results s = (Ok res, s') /\
    Dict.get res (module B) = Some false /\
    calls (outside s') =
      calls (outside s) ++ map module (filter (runnable (self s)) cs) /\
    ~ In (module B) (map module (filter (runnable (self s)) cs)) /\
    Dict.get (agents (self s')) (module B) =
      Dict.get (agents (self s)) (module B) /\
    (forall c, In c cs -> Dict.mem res (module c) = true).
Proof.
  intros Hcan Hnd HB Hdeps.
  destruct (run_configs_calls E cs results s Hcan)
    as (res & s' & Heq & _ & Hcalls).
  destruct (run_configs_results E cs results s Hcan)
    as (res2 & s2 & Heq2 & _ & Hkeys & Hfalse).
  destruct (run_configs_frame E cs results s Hcan)
    as (res3 & s3 & Heq3 & Hother & _ & _).
  rewrite Heq in Heq2, Heq3.
  injection Heq2 as <- <-. injection Heq3 as <- <-.
  assert (Hnot : ~ In (module B) (map module (filter (runnable (self s)) cs))).
  { intros Hin. apply in_map_iff in Hin. destruct Hin as (c & Hm & Hc).
    apply filter_In in Hc. destruct Hc as [Hc Hr].
    assert (c = B) by (eapply NoDup_map_unique; eauto). subst c.
    unfold runnable in Hr. rewrite Hdeps in Hr. discriminate. }
  exists res, s'. repeat split; auto.
  apply Hfalse.
  - now apply in_map.
  - intros c Hc Hm.
    assert (c = B) by (eapply NoDup_map_unique; eauto). now subst c.
Qed.

(** A stage that is not runnable, also when the pass may be cut short by a
    delay that cannot be slept: whatever the outcome, the stage was not
    invoked and its entry is untouched. *)
Lemma run_configs_not_invoked E cs results s B r s' :
  NoDup (map module cs) -> In B cs ->
  runnable (self s) B = false ->
  run_configs E cs results s = (r, s') ->
  exists invoked,
    calls (outside s') = calls (outside s) ++ invoked /\
    ~ In (module B) invoked /\
    Dict.get (agents (self s')) (module B) =
      Dict.get (agents (self s)) (module B).
Proof.
  intros Hnd HB Hdeps Heq.
  destruct (run_configs_any E cs results s)
    as (r0 & s0 & ran & post & Heq0 & Hcs & _ & Hcalls & Hother & _).
  rewrite Heq in Heq0. injection Heq0 as <- <-.
  assert (Hnot : ~ In (module B) (map module (filter (runnable (self s)) ran))).
  { intros Hin. apply in_map_iff in Hin. destruct Hin as (c & Hm & Hc).
    apply filter_In in Hc. destruct Hc as [Hc Hr].
    assert (Hc' : In c cs) by (rewrite Hcs; apply in_app_iff; now left).
    assert (c = B) by (eapply NoDup_map_unique; eauto). subst c.
    congruence. }
  exists (map module (filter (runnable (self s)) ran)).
  split; [exact Hcalls|]. split; [exact Hnot | now apply Hother].
Qed.



(** C10.  When the loop of a pass is at a stage [c] for which
    [_check_dependencies] returns [False], it goes on with the next stage
    from the very same state, with [False] recorded for [c] in the results:
    no stats are changed and nothing is appended to the error log.  Over a
    whole pass (descriptors of distinct modules), whatever its outcome,
    the entry of a skipped stage in [self.agents] is the same after the
    pass as before; and when the delay between stages can be slept, the
    pass returns, the result of the stage is [False], and the error log
    grows by no more entries than stages were invoked.  (A delay that
    [time.sleep] refuses makes the pass itself raise, with no results.) *)
Theorem C10_skip_mutates_no_stats :
  forall (E : env) (s : state) (c : config),
    _check_dependencies (self s) c = false ->
    (forall rest results,
        run_configs E (c :: rest) results s =
        run_configs E rest (Dict.set results (module c) false) s) /\
    (NoDup (map module (agent_configs (self s))) ->
     In c (agent_configs (self s)) -> enabled c = true ->
     (forall r s',
         _run_pipeline_once E s = (r, s') ->
         Dict.get (agents (self s')) (module c) =
           Dict.get (agents (self s)) (module c)) /\
     (can_delay E (self s) ->
      exists res s' new,
        _run_pipeline_once E s = (Ok res, s') /\
        Dict.get res (module c) = Some false /\
        Dict.get (agents (self s')) (module c) =
          Dict.get (agents (self s)) (module c) /\
        error_log (self_stats (self s')) =
          error_log (self_stats (self s)) ++ new /\
        (List.length new <=
         List.length (filter (runnable (self s)) (sorted_configs (self s))))%nat /\
        (filter (runnable (self s)) (sorted_configs (self s)) = [] -> s' = s))).
Proof.
  intros E s c Hdeps. split.
  - intros rest results. now apply run_configs_step_skip.
  - intros Hnd Hc Hen. split.
    + intros r s'. rewrite _run_pipeline_once_unfold. intros Heq.
      assert (Hr : runnable (self s) c = false)
        by (unfold runnable; now rewrite Hdeps).
      destruct (run_configs_not_invoked E _ _ s c r s'
                  (sorted_configs_NoDup _ Hnd)
                  (proj2 (sorted_configs_In _ _) (conj Hc Hen)) Hr Heq)
        as (invoked & _ & _ & Hsame).
      exact Hsame.
    + intros Hcan.
      destruct (run_configs_skipped E (sorted_configs (self s)) Dict.empty s c
                  Hcan)
        as (res & s' & Heq & Hres & _ & _ & Hsame & _).
      * now apply sorted_configs_NoDup.
      * now apply sorted_configs_In.
      * exact Hdeps.
      * destruct (run_configs_frame E (sorted_configs (self s)) Dict.empty s
                    Hcan)
          as (res2 & s2 & Heq2 & _ & (new & Hlog & Hlen) & Hidle).
        rewrite Heq in Heq2. injection Heq2 as <- <-.
        exists res, s', new. rewrite _run_pipeline_once_unfold.
        repeat split; auto.
Qed.

Lemma C10_skip_mutates_no_stats_witness :
  let s := loaded "run_once" in
  let c := risk_analyzer_agent in
  (_check_dependencies (self s) c = false /\
   can_delay env_all_ok (self s)) /\
  (forall rest results,
      run_configs env_all_ok (c :: rest) results s =
      run_configs env_all_ok rest (Dict.set results (module c) false) s) /\
  exists res s',
    _run_pipeline_once env_all_ok s = (Ok res, s') /\
    Dict.get (agents (self s')) "agents.risk_analyzer_agent" =
    Some {| instance := 1; config_ref := 1; stats := new_stats |}.
Proof.
  intros s c.
  assert (Hcan : can_delay env_all_ok (self s))
    by (apply can_delay_small; discriminate).
  split; [split; [reflexivity | exact Hcan]|].
  destruct (C10_skip_mutates_no_stats env_all_ok s c eq_refl) as [Hstep Hpass].
  split; [exact Hstep|].
  destruct (Hpass static_registry_modules_distinct
              (or_intror (or_introl eq_refl)) eq_refl) as [_ Hok].
  destruct (Hok Hcan) as (res & s' & new & Heq & _ & Hsame & _).
  exists res, s'. split; [exact Heq | exact Hsame].
Defined.

(** ** The loader *)

(** The descriptors that [_load_agent] turns into an agent. *)
Definition loads (E : env) (c : config) : bool :=
  negb (module c =? "")%string &&
  match construct E c with Returns _ => true | Raises _ => false end.

Lemma _load_agent_eq E c s :
  _load_agent E c s =
  if loads E c
  then (Ok (Some (objects (outside s))),
        {| self := self s; outside := allocate (outside s) |})
  else (Ok None, s).
Proof.
  unfold _load_agent, loads, try_except, bind, call_constructor.
  destruct (module c =? "")%string; simpl; [reflexivity|].
  destruct (construct E c); reflexivity.
Qed.

(** The loader only assigns to [self.agents] and creates objects. *)
Record loader_frame (s s' : state) : Prop := {
  lf_configs : agent_configs (self s') = agent_configs (self s);
  lf_mode : mode (self s') = mode (self s);
  lf_interval : global_interval (self s') = global_interval (self s);
  lf_workers : max_workers (self s') = max_workers (self s);
  lf_delay : pipeline_delay (self s') = pipeline_delay (self s);
  lf_threads : threads (self s') = threads (self s);
  lf_running : running (self s') = running (self s);
  lf_stats : self_stats (self s') = self_stats (self s);
  lf_clock : clock (outside s') = clock (outside s);
  lf_calls : calls (outside s') = calls (outside s);
  lf_sleeps : sleeps (outside s') = sleeps (outside s);
  lf_joins : joins (outside s') = joins (outside s)
}.

Lemma loader_frame_refl s : loader_frame s s.
Proof. now constructor. Qed.

Lemma loader_frame_trans s1 s2 s3 :
  loader_frame s1 s2 -> loader_frame s2 s3 -> loader_frame s1 s3.
Proof. intros [] []. constructor; congruence. Qed.

(** The number of descriptors the loop counts and the number it loads. *)
Definition count_enabled (cs : list config) : Z :=
  Z.of_nat (List.length (filter enabled cs)).

Definition count_loaded (E : env) (cs : list config) : Z :=
  Z.of_nat (List.length (filter (fun c => enabled c && loads E c) cs)).

Lemma count_loaded_le E cs : count_loaded E cs <= count_enabled cs.
Proof.
  unfold count_loaded, count_enabled.
  induction cs as [|c cs IH]; simpl; [lia|].
  destruct (enabled c), (loads E c); simpl; lia.
Qed.

Lemma count_loaded_lt E cs c :
  In c cs -> enabled c = true -> loads E c = false ->
  count_loaded E cs < count_enabled cs.
Proof.
  unfold count_loaded, count_enabled.
  induction cs as [|c' cs IH]; simpl; [contradiction|].
  intros [->|Hin] Hen Hl.
  - rewrite Hen, Hl. simpl.
    pose proof (count_loaded_le E cs) as Hle.
    unfold count_loaded, count_enabled in Hle. lia.
  - specialize (IH Hin Hen Hl).
    destruct (enabled c'), (loads E c'); simpl; lia.
Qed.

Lemma count_loaded_all E cs :
  (forall c, In c cs -> enabled c = true -> loads E c = true) ->
  count_loaded E cs = count_enabled cs.
Proof.
  unfold count_loaded, count_enabled. intros H. f_equal.
  induction cs as [|c cs IH]; simpl; [reflexivity|].
  destruct (enabled c) eqn:Hen; simpl.
  - rewrite (H c) by (simpl; auto). simpl. f_equal.
    apply IH. intros c' Hc'. apply H. now right.
  - apply IH. intros c' Hc'. apply H. now right.
Qed.

(** [load_configs] returns whether as many descriptors were loaded as were
    enabled; every entry of [self.agents] afterwards was there before or is
    a new entry, with new stats, of an enabled descriptor that loads. *)
Lemma load_configs_spec E cs : forall ix sc tc s,
  exists s',
    load_configs E cs ix sc tc s =
      (Ok (sc + count_loaded E cs =? tc + count_enabled cs), s') /\
    loader_frame s s' /\
    (forall k ad,
        Dict.get (agents (self s')) k = Some ad ->
        Dict.get (agents (self s)) k = Some ad \/
        (stats ad = new_stats /\
         exists c, In c cs /\ module c = k /\ enabled c = true /\
                   loads E c = true)) /\
    (forall c, In c cs -> enabled c = true -> loads E c = true ->
               Dict.mem (agents (self s')) (module c) = true) /\
    (forall k, Dict.mem (agents (self s)) k = true ->
               Dict.mem (agents (self s')) k = true).
Proof.
  induction cs as [|c cs IH]; intros ix sc tc s.
  - exists s. unfold count_loaded, count_enabled. simpl.
    rewrite !Z.add_0_r. split; [reflexivity|].
    split; [apply loader_frame_refl|]. split; [auto|]. split; [|auto].
    intros c [].
  - simpl load_configs. unfold count_loaded, count_enabled. simpl filter.
    destruct (enabled c) eqn:Hen; cbn [negb].
    + unfold bind at 1. rewrite _load_agent_eq.
      destruct (loads E c) eqn:Hl; cbn [andb].
      * unfold bind at 1. unfold modify at 1.
        match goal with
        | |- context [load_configs E cs ?i ?a ?b ?st] =>
            destruct (IH i a b st) as (s' & Heq & Hf & Hnew & Hin & Hkeep)
        end.
        exists s'. rewrite Heq. unfold count_loaded, count_enabled.
        simpl List.length. rewrite !Nat2Z.inj_succ.
        split; [do 3 f_equal; lia|].
        split. { destruct Hf. constructor; simpl in *; congruence. }
        split; [|split].
        -- intros k ad Hk. destruct (Hnew k ad Hk) as [Hold|(Hst & c' & Hc')].
           ++ simpl in Hold.
              destruct (String.eqb_spec (module c) k) as [<-|Hne].
              ** rewrite DictFacts.get_set_same in Hold.
                 injection Hold as <-. right. split; [reflexivity|].
                 exists c. simpl. auto.
              ** rewrite DictFacts.get_set_other in Hold by exact Hne.
                 now left.
           ++ right. split; [exact Hst|]. exists c'. simpl. tauto.
        -- intros c' [<-|Hc'] Hen' Hl'.
           ++ apply Hkeep. simpl. rewrite DictFacts.mem_set.
              now rewrite String.eqb_refl.
           ++ now apply Hin.
        -- intros k Hk. apply Hkeep. simpl. rewrite DictFacts.mem_set.
           rewrite Hk. apply orb_true_r.
      * destruct (IH (S ix) sc (tc + 1) s)
          as (s' & Heq & Hf & Hnew & Hin & Hkeep).
        exists s'. rewrite Heq. unfold count_loaded, count_enabled.
        simpl List.length. rewrite !Nat2Z.inj_succ.
        split; [do 3 f_equal; lia|].
        split; [exact Hf|]. split; [|split].
        -- intros k ad Hk. destruct (Hnew k ad Hk) as [Hold|(Hst & c' & Hc')].
           ++ now left.
           ++ right. split; [exact Hst|]. exists c'. simpl. tauto.
        -- intros c' [<-|Hc'] Hen' Hl'; [congruence | now apply Hin].
        -- exact Hkeep.
    + destruct (IH (S ix) sc tc s) as (s' & Heq & Hf & Hnew & Hin & Hkeep).
      exists s'. rewrite Heq. split; [reflexivity|].
      split; [exact Hf|]. split; [|split].
      * intros k ad Hk. destruct (Hnew k ad Hk) as [Hold|(Hst & c' & Hc')].
        -- now left.
        -- right. split; [exact Hst|]. exists c'. simpl. tauto.
      * intros c' [<-|Hc'] Hen' Hl'; [congruence | now apply Hin].
      * exact Hkeep.
Qed.

Lemma _load_all_agents_spec E s :
  exists s',
    _load_all_agents E s =
      (Ok (count_loaded E (agent_configs (self s))
           =? count_enabled (agent_configs (self s))), s') /\
    loader_frame s s' /\
    (forall k ad,
        Dict.get (agents (self s')) k = Some ad ->
        Dict.get (agents (self s)) k = Some ad \/
        (stats ad = new_stats /\
         exists c, In c (agent_configs (self s)) /\ module c = k /\
                   enabled c = true /\ loads E c = true)) /\
    (forall c, In c (agent_configs (self s)) -> enabled c = true ->
               loads E c = true ->
               Dict.mem (agents (self s')) (module c) = true).
Proof.
  destruct (load_configs_spec E (agent_configs (self s)) 0%nat 0 0 s)
    as (s' & Heq & Hf & Hnew & Hin & _).
  exists s'. unfold _load_all_agents, bind, gets. simpl in *.
  rewrite Heq. split; [reflexivity|]. split; [exact Hf|].
  split; [exact Hnew | exact Hin].
Qed.

(** ** C1: the dependencies of the static registry *)

(** No dependency of the static registry is the module of a descriptor. *)
Lemma static_dependencies_are_not_modules c dep :
  In c static_registry -> In dep (dependencies c) ->
  ~ In dep (map module static_registry).
Proof.
  simpl. intros Hc Hdep Hin.
  repeat (destruct Hc as [<-|Hc]; [simpl in Hdep|]); try contradiction;
    repeat (destruct Hdep as [<-|Hdep]; [|try contradiction]);
    repeat (destruct Hin as [Hin|Hin]; [discriminate Hin|]); contradiction.
Qed.

(** C1 (the code at the failing input).  The keys of [self.agents] are the
    modules of the descriptors (["agents.hotspot_agent"], ...), while the
    dependencies are written without the package (["hotspot_agent"], ...):
    no dependency of the static registry is the module of a descriptor.
    After all six agents have loaded, [_check_dependencies] returns [False]
    for the five descriptors that have a dependency, and a pass invokes the
    first stage only. *)
Theorem C1_static_dependencies_never_satisfied :
  (forall c dep,
      In c static_registry -> In dep (dependencies c) ->
      ~ In dep (map module static_registry)) /\
  (forall run_mode : string,
      _load_all_agents env_all_ok (fresh run_mode)
      = (Ok true, loaded run_mode) /\
      Dict.keys (agents (self (loaded run_mode)))
      = map module static_registry /\
      map (_check_dependencies (self (loaded run_mode))) static_registry
      = [true; false; false; false; false; false] /\
      exists s',
        _run_pipeline_once env_all_ok (loaded run_mode)
        = (Ok [ ("agents.hotspot_agent", true);
                ("agents.risk_analyzer_agent", false);
                ("agents.material_collector_agent", false);
                ("agents.product_matcher_agent", false);
                ("agents.content_creator_agent", false);
                ("agents.editor_agent", false) ], s') /\
        calls (outside s') = ["agents.hotspot_agent"]).
Proof.
  split.
  - intros c dep. apply static_dependencies_are_not_modules.
  - intros run_mode. repeat split.
    exists (snd (_run_pipeline_once env_all_ok (loaded run_mode))).
    split; vm_compute; reflexivity.
Qed.

(** Whatever loads, a descriptor of the static registry that has a
    dependency is never runnable. *)
Lemma static_dependencies_never_loaded E s s' b c :
  agent_configs (self s) = static_registry ->
  agents (self s) = Dict.empty ->
  _load_all_agents E s = (Ok b, s') ->
  In c static_registry -> dependencies c <> [] ->
  _check_dependencies (self s') c = false.
Proof.
  intros Hcs Hempty Hload Hc Hdeps.
  destruct (_load_all_agents_spec E s) as (s2 & Heq & _ & Hnew & _).
  rewrite Hload in Heq. injection Heq as _ <-.
  destruct (dependencies c) as [|dep deps] eqn:Hd; [congruence|].
  apply check_dependencies_loop_missing with (dep := dep) (deps := dependencies c).
  - rewrite Hd. now left.
  - destruct (Dict.mem (agents (self s')) dep) eqn:Hm; [|reflexivity].
    exfalso. unfold Dict.mem in Hm.
    destruct (Dict.get (agents (self s')) dep) as [ad|] eqn:Hget;
      [|discriminate].
    destruct (Hnew dep ad Hget) as [Hold|(_ & c' & Hc' & Hmod & _)].
    + rewrite Hempty in Hold. discriminate.
    + rewrite Hcs in Hc'.
      apply (static_dependencies_are_not_modules c dep Hc).
      * rewrite Hd. now left.
      * rewrite <- Hmod. now apply in_map.
Qed.

(** ** C6: a stage that fails to load *)

Lemma stop_not_running E s :
  running (self s) = false -> stop E s = (Ok tt, s).
Proof.
  intros H. unfold stop, bind, gets. simpl. now rewrite H.
Qed.

(** [run] stops at the first test when an enabled descriptor does not
    load: the state it ends in is the one the loader left. *)
Lemma run_aborts_when_a_load_fails E fuel s c :
  running (self s) = false ->
  In c (agent_configs (self s)) -> enabled c = true -> loads E c = false ->
  exists s',
    _load_all_agents E s = (Ok false, s') /\ run E fuel s = (Ok tt, s').
Proof.
  intros Hrun Hc Hen Hl.
  destruct (_load_all_agents_spec E s) as (s' & Heq & Hf & _).
  assert (Hb : (count_loaded E (agent_configs (self s))
                =? count_enabled (agent_configs (self s))) = false).
  { apply Z.eqb_neq.
    pose proof (count_loaded_lt E _ c Hc Hen Hl). lia. }
  rewrite Hb in Heq. exists s'. split; [exact Heq|].
  unfold run, try_finally, try_except. unfold bind at 1. rewrite Heq.
  simpl. rewrite stop_not_running; [reflexivity|].
  now rewrite (lf_running _ _ Hf).
Qed.

(** The constructor of the second stage raises; the others succeed and
    every [run_once] returns. *)
Definition env_stage2_fails : env :=
  {| construct := fun c =>
       if (module c =? "agents.risk_analyzer_agent")%string
       then Raises {| exn_class := "ImportError";
                      exn_str := "No module named agents.risk_analyzer_agent" |}
       else Returns tt;
     run_once := fun _ _ => Returns "ok";
     isoformat := fun _ => "2024-01-01T00:00:00";
     time_time := fun n => Z.of_nat n;
     is_alive := fun _ _ => true;
     os_sleep := fun _ => Returns tt |}.

(** C6, as stated, fails: when the second stage does not load, a single-pass
    run ends with the first stage never run and with an empty error log. *)
Lemma C6_load_failure_runs_no_cycle :
  let s' := snd (run env_stage2_fails 1 (fresh "run_once")) in
  ~ ((exists ad,
         Dict.get (agents (self s')) "agents.hotspot_agent" = Some ad /\
         successes (stats ad) = 1) /\
     In "agents.hotspot_agent" (calls (outside s')) /\
     (exists entry,
         error_log (self_stats (self s')) = [entry] /\
         err_agent entry = "风险分析")).
Proof.
  intros s' (_ & Hcall & _). vm_compute in Hcall. exact Hcall.
Qed.

(** C6 (amended).  In the six-stage registry, if the construction of stage 2
    fails during loading, [run] aborts the start in every mode: it returns
    without executing a cycle; no [run_once] is called, nothing is slept,
    the cycle counter stays 0, no start time is recorded; the error log
    stays empty (the load failure is only written to the process log);
    stage 2 is absent from [self.agents] and the stats of the loaded stages
    are all new. *)
Theorem C6_load_failure_aborts_startup :
  forall (E : env) (RUN_MODE : option string)
         (GLOBAL_INTERVAL MAX_WORKERS PIPELINE_DELAY : option Z)
         (fuel : nat) (e : exn),
    construct E risk_analyzer_agent = Raises e ->
    exists s',
      run E fuel
          {| self := init RUN_MODE GLOBAL_INTERVAL MAX_WORKERS PIPELINE_DELAY;
             outside := new_world |}
      = (Ok tt, s') /\
      calls (outside s') = [] /\
      sleeps (outside s') = [] /\
      total_cycles (self_stats (self s')) = 0 /\
      start_time (self_stats (self s')) = None /\
      error_log (self_stats (self s')) = [] /\
      running (self s') = false /\
      threads (self s') = Dict.empty /\
      Dict.mem (agents (self s')) "agents.risk_analyzer_agent" = false /\
      (forall k ad, Dict.get (agents (self s')) k = Some ad ->
                    stats ad = new_stats).
Proof.
  intros E RUN_MODE GI MW PD fuel e Hfail.
  set (s := {| self := init RUN_MODE GI MW PD; outside := new_world |}).
  assert (Hl : loads E risk_analyzer_agent = false).
  { unfold loads. rewrite Hfail. apply andb_false_r. }
  destruct (run_aborts_when_a_load_fails E fuel s risk_analyzer_agent)
    as (s' & Hload & Hrun); [reflexivity | simpl; auto | reflexivity | exact Hl |].
  destruct (_load_all_agents_spec E s) as (s2 & Heq & Hf & Hnew & _).
  rewrite Hload in Heq. injection Heq as _ <-.
  exists s'. split; [exact Hrun|].
  destruct Hf. simpl in *.
  repeat (split; [congruence|]).
  split; [now rewrite lf_stats0|]. split; [now rewrite lf_stats0|].
  split; [now rewrite lf_stats0|]. split; [assumption|]. split; [assumption|].
  split.
  - unfold Dict.mem.
    destruct (Dict.get (agents (self s')) "agents.risk_analyzer_agent")
      as [ad|] eqn:Hget; [|reflexivity].
    destruct (Hnew _ _ Hget) as [Hold|(_ & c & Hc & Hmod & _ & Hlc)];
      [discriminate|].
    repeat (destruct Hc as [<-|Hc]; [try discriminate Hmod|]);
      [congruence | contradiction].
  - intros k ad Hget.
    destruct (Hnew _ _ Hget) as [Hold|(Hst & _)]; [discriminate | exact Hst].
Qed.

Lemma C6_load_failure_aborts_startup_witness :
  construct env_stage2_fails risk_analyzer_agent
  = Raises {| exn_class := "ImportError";
              exn_str := "No module named agents.risk_analyzer_agent" |} /\
  exists s',
    run env_stage2_fails 1 (fresh "run_once") = (Ok tt, s') /\
    calls (outside s') = [] /\
    error_log (self_stats (self s')) = [].
Proof.
  split; [reflexivity|].
  destruct (C6_load_failure_aborts_startup env_stage2_fails (Some "run_once")
              None None None 1 _ eq_refl)
    as (s' & Hrun & Hcalls & _ & _ & _ & Hlog & _).
  exists s'. repeat split; assumption.
Defined.

(** ** C7: the loop of the pipeline mode *)

(** The state after one reading of the clock. *)
Definition clock_read (s : state) : state :=
  {| self := self s; outside := tick (outside s) |}.

Lemma pipeline_attempt_pass_raises E pass s e s1 :
  pass (clock_read s) = (Exc e, s1) ->
  pipeline_attempt E pass s =
  (Ok tt, {| self := self s1; outside := log_sleep 60 (outside s1) |}).
Proof.
  intros H. unfold pipeline_attempt, try_except.
  unfold bind at 1. unfold py_time, bind at 1, read_world, on_world, ret.
  simpl. unfold bind at 1. unfold clock_read in H. now rewrite H.
Qed.

(** The wait that ends a cycle: [time.sleep(self.global_interval)], or the
    60 seconds of the handler when that call raises. *)
Definition cycle_wait (E : env) (r : runner) : Z :=
  match sleep_error E (global_interval r) with
  | None => global_interval r
  | Some _ => 60
  end.

Lemma pipeline_attempt_pass_returns E pass s res s1 :
  pass (clock_read s) = (Ok res, s1) ->
  pipeline_attempt E pass s =
  (Ok tt,
   let s2 := {| self := count_cycle (self s1); outside := tick (outside s1) |} in
   if running (self s1)
   then {| self := self s2;
           outside := log_sleep (cycle_wait E (self s1)) (outside s2) |}
   else s2).
Proof.
  intros H. unfold pipeline_attempt, try_except.
  unfold bind at 1. unfold py_time, bind at 1, read_world, on_world, ret.
  simpl. unfold bind at 1. unfold clock_read in H. rewrite H.
  unfold bind, modify, gets, time_sleep, cycle_wait, on_world, raise.
  cbn [self outside running global_interval count_cycle with_self_stats].
  destruct (running (self s1)); simpl; [|reflexivity].
  destruct (sleep_error E (global_interval (self s1))); reflexivity.
Qed.

(** Whatever the pass does, an attempt returns: no exception leaves the
    body of the loop. *)
Lemma pipeline_attempt_returns E pass s :
  exists s', pipeline_attempt E pass s = (Ok tt, s').
Proof.
  destruct (pass (clock_read s)) as [[res|e] s1] eqn:H.
  - eexists. eapply pipeline_attempt_pass_returns; eauto.
  - eexists. eapply pipeline_attempt_pass_raises; eauto.
Qed.

(** The pass of the runner returns, with a result for every enabled
    descriptor, and only changes stats and error log. *)
Lemma _run_pipeline_once_returns E s :
  can_delay E (self s) ->
  exists res s',
    _run_pipeline_once E s = (Ok res, s') /\
    same_but_stats (self s) (self s') /\
    (forall c, In c (agent_configs (self s)) -> enabled c = true ->
               Dict.mem res (module c) = true).
Proof.
  intros Hcan. rewrite _run_pipeline_once_unfold.
  destruct (run_configs_calls E (sorted_configs (self s)) Dict.empty s Hcan)
    as (res & s' & Heq & Hs & _).
  destruct (run_configs_results E (sorted_configs (self s)) Dict.empty s Hcan)
    as (res2 & s2 & Heq2 & _ & Hkeys & _).
  rewrite Heq in Heq2. injection Heq2 as <- <-.
  exists res, s'. repeat split; try assumption; try apply Hs.
  intros c Hc Hen. apply Hkeys. now apply sorted_configs_In.
Qed.

Lemma cycle_wait_refused E r :
  global_interval r < 0 \/ sleep_max < global_interval r ->
  cycle_wait E r = 60.
Proof.
  intros H. unfold cycle_wait. destruct H as [H|H].
  - destruct (sleep_error_negative E _ H) as (e & ->). reflexivity.
  - now rewrite (sleep_error_too_long E _ H).
Qed.

(** C7.  In the loop of the pipeline mode:
    - when [self._run_pipeline_once()] raises, the attempt catches the
      error and sleeps 60 seconds, whatever [global_interval] is; nothing
      else changes after the error, so [total_cycles] is not incremented
      (in particular for a pass that fails before any stage ran, and for
      one that a delay between stages aborts);
    - when the pass has attempted every enabled stage and returned (as it
      does when the delay between stages can be slept), and the wait for
      the next cycle then raises (a [global_interval] that is negative or
      too long for [time.sleep]), [total_cycles] has been incremented and
      the attempt sleeps the same 60 seconds;
    - after an attempt the loop starts the next one from the state the
      attempt ended in, that is after the sleep. *)
Theorem C7_fallback_delay_and_cycle_counter :
  (forall (E : env) (pass : M (Dict.t bool)) (s s1 : state) (e : exn),
      pass (clock_read s) = (Exc e, s1) ->
      exists s',
        pipeline_attempt E pass s = (Ok tt, s') /\
        self s' = self s1 /\
        total_cycles (self_stats (self s')) = total_cycles (self_stats (self s1)) /\
        calls (outside s') = calls (outside s1) /\
        sleeps (outside s') = sleeps (outside s1) ++ [60])
  /\
  (forall (E : env) (s : state),
      running (self s) = true ->
      global_interval (self s) < 0 \/ sleep_max < global_interval (self s) ->
      can_delay E (self s) ->
      exists res s1 s',
        _run_pipeline_once E (clock_read s) = (Ok res, s1) /\
        (forall c, In c (agent_configs (self s)) -> enabled c = true ->
                   Dict.mem res (module c) = true) /\
        pipeline_attempt E (_run_pipeline_once E) s = (Ok tt, s') /\
        total_cycles (self_stats (self s'))
        = total_cycles (self_stats (self s)) + 1 /\
        calls (outside s') = calls (outside s1) /\
        sleeps (outside s') = sleeps (outside s1) ++ [60])
  /\
  (forall (E : env) (pass : M (Dict.t bool)) (fuel : nat) (s s' : state),
      running (self s) = true ->
      pipeline_attempt E pass s = (Ok tt, s') ->
      pipeline_loop E pass (S fuel) s = pipeline_loop E pass fuel s').
Proof.
  split; [|split].
  - intros E pass s s1 e H.
    rewrite (pipeline_attempt_pass_raises E pass s e s1 H).
    eexists. split; [reflexivity|]. simpl. auto.
  - intros E s Hrun Hneg Hcan.
    destruct (_run_pipeline_once_returns E (clock_read s) Hcan)
      as (res & s1 & Heq & Hs & Hkeys).
    rewrite (pipeline_attempt_pass_returns E _ s res s1 Heq).
    exists res, s1. eexists. split; [exact Heq|]. split; [exact Hkeys|].
    split; [reflexivity|].
    assert (Hr1 : running (self s1) = true)
      by (rewrite (sbs_running _ _ Hs); exact Hrun).
    assert (Hi1 : cycle_wait E (self s1) = 60).
    { apply cycle_wait_refused. now rewrite (sbs_interval _ _ Hs). }
    cbv zeta. rewrite Hr1, Hi1. simpl.
    rewrite (sbs_cycles _ _ Hs). auto.
  - intros E pass fuel s s' Hrun Heq. simpl.
    unfold bind at 1. unfold gets at 1. simpl. rewrite Hrun.
    unfold bind at 1. now rewrite Heq.
Qed.

(** The six agents are loaded and the runner is running in pipeline mode,
    with the given interval between cycles and delay between stages. *)
Definition running_pipeline_with (interval delay : Z) : state :=
  let s := snd (_load_all_agents env_all_ok
                  {| self := init (Some "pipeline") (Some interval) None
                                  (Some delay);
                     outside := new_world |}) in
  {| self := with_running true (self s); outside := outside s |}.

(** With 5 seconds between stages. *)
Definition running_pipeline (interval : Z) : state :=
  Eval vm_compute in running_pipeline_with interval 5.

(** With a delay between stages that [time.sleep] refuses. *)
Definition stalled_pipeline : state :=
  Eval vm_compute in running_pipeline_with 300 10000000000.

Lemma C7_fallback_delay_and_cycle_counter_witness :
  (running (self (running_pipeline (-1))) = true /\
   (global_interval (self (running_pipeline (-1))) < 0 \/
    sleep_max < global_interval (self (running_pipeline (-1)))) /\
   can_delay env_all_ok (self (running_pipeline (-1)))) /\
  (exists s',
      pipeline_attempt env_all_ok (_run_pipeline_once env_all_ok)
        (running_pipeline (-1)) = (Ok tt, s') /\
      total_cycles (self_stats (self s')) = 1 /\
      sleeps (outside s') = [5; 60]) /\
  (exists s',
      pipeline_attempt env_all_ok
        (raise {| exn_class := "TypeError"; exn_str := "unorderable" |})
        (running_pipeline 300) = (Ok tt, s') /\
      total_cycles (self_stats (self s')) = 0 /\
      calls (outside s') = [] /\
      sleeps (outside s') = [60]) /\
  (exists s',
      pipeline_attempt env_all_ok (_run_pipeline_once env_all_ok)
        stalled_pipeline = (Ok tt, s') /\
      total_cycles (self_stats (self s')) = 0 /\
      calls (outside s') = ["agents.hotspot_agent"] /\
      sleeps (outside s') = [60]).
Proof.
  assert (Hcan : can_delay env_all_ok (self (running_pipeline (-1))))
    by (apply can_delay_small; discriminate).
  split; [split; [reflexivity | split; [left; reflexivity | exact Hcan]]|].
  split; [|split].
  - destruct (proj1 (proj2 C7_fallback_delay_and_cycle_counter)
                env_all_ok (running_pipeline (-1)) eq_refl
                (or_introl eq_refl) Hcan)
      as (res & s1 & s' & Hpass & _ & Heq & Hcycles & _ & Hsleeps).
    exists s'. split; [exact Heq|]. split; [exact Hcycles|].
    rewrite Hsleeps.
    vm_compute in Hpass. injection Hpass as _ <-. reflexivity.
  - destruct (proj1 C7_fallback_delay_and_cycle_counter env_all_ok
                (raise {| exn_class := "TypeError"; exn_str := "unorderable" |})
                (running_pipeline 300) _ _ eq_refl)
      as (s' & Heq & _ & Hcycles & Hcalls & Hsleeps).
    exists s'. split; [exact Heq|]. split; [exact Hcycles|].
    split; [exact Hcalls | exact Hsleeps].
  - destruct (proj1 C7_fallback_delay_and_cycle_counter env_all_ok
                (_run_pipeline_once env_all_ok) stalled_pipeline
                (snd (_run_pipeline_once env_all_ok (clock_read stalled_pipeline)))
                {| exn_class := "OverflowError";
                   exn_str := "timestamp too large to convert to C _PyTime_t" |}
                ltac:(vm_compute; reflexivity))
      as (s' & Heq & _ & Hcycles & Hcalls & Hsleeps).
    exists s'. split; [exact Heq|].
    split; [rewrite Hcycles; vm_compute; reflexivity|].
    split; [rewrite Hcalls | rewrite Hsleeps]; vm_compute; reflexivity.
Defined.

(** ** C9: enabling and disabling a descriptor *)

(** [agent_name] is the name or the module of the descriptor. *)
Definition matches (agent_name : string) (c : config) : Prop :=
  name c = agent_name \/ module c = agent_name.

Lemma matches_dec agent_name c :
  ((name c =? agent_name) || (module c =? agent_name))%string = true <->
  matches agent_name c.
Proof.
  unfold matches. rewrite orb_true_iff, !String.eqb_eq. reflexivity.
Qed.

Lemma set_enabled_same b c : enabled c = b -> set_enabled b c = c.
Proof. intros <-. now destruct c. Qed.

Lemma assign_enabled_none b agent_name cs :
  (forall c, In c cs -> ~ matches agent_name c) ->
  assign_enabled b agent_name cs = None.
Proof.
  induction cs as [|c cs IH]; simpl; intros H; [reflexivity|].
  destruct ((name c =? agent_name) || (module c =? agent_name))%string eqn:Hm.
  - apply matches_dec in Hm. exfalso. apply (H c); auto.
  - rewrite IH; auto.
Qed.

Lemma assign_enabled_first b agent_name pre c post :
  (forall c', In c' pre -> ~ matches agent_name c') ->
  matches agent_name c ->
  assign_enabled b agent_name (pre ++ c :: post) =
  Some (pre ++ set_enabled b c :: post).
Proof.
  intros Hpre Hc. induction pre as [|c' pre IH]; simpl.
  - apply matches_dec in Hc. now rewrite Hc.
  - destruct ((name c' =? agent_name) || (module c' =? agent_name))%string
      eqn:Hm.
    + apply matches_dec in Hm. exfalso. apply (Hpre c'); simpl; auto.
    + rewrite IH; [reflexivity|]. intros c'' Hc''. apply Hpre. now right.
Qed.

Lemma assign_enabled_idempotent b agent_name cs cs' :
  assign_enabled b agent_name cs = Some cs' ->
  assign_enabled b agent_name cs' = Some cs'.
Proof.
  revert cs'. induction cs as [|c cs IH]; simpl; intros cs'; [discriminate|].
  destruct ((name c =? agent_name) || (module c =? agent_name))%string eqn:Hm.
  - intros [= <-]. simpl. rewrite Hm. reflexivity.
  - destruct (assign_enabled b agent_name cs) as [cs''|]; [|discriminate].
    intros [= <-]. simpl. rewrite Hm. now rewrite (IH cs'').
Qed.

Lemma with_agent_configs_same s :
  {| self := with_agent_configs (agent_configs (self s)) (self s);
     outside := outside s |} = s.
Proof. destruct s as [[] ?]. reflexivity. Qed.

(** [enable_agent] for [true], [disable_agent] for [false]. *)
Definition set_agent (b : bool) : string -> M bool :=
  if b then enable_agent else disable_agent.

Lemma set_agent_eq b agent_name s :
  set_agent b agent_name s =
  match assign_enabled b agent_name (agent_configs (self s)) with
  | Some cs' =>
      (Ok true, {| self := with_agent_configs cs' (self s);
                   outside := outside s |})
  | None => (Ok false, s)
  end.
Proof.
  destruct b; unfold set_agent, enable_agent, disable_agent, bind, gets; simpl.
  - now destruct (assign_enabled true agent_name (agent_configs (self s))).
  - now destruct (assign_enabled false agent_name (agent_configs (self s))).
Qed.

(** C9.  For [enable_agent] ([b = true]) and [disable_agent] ([b = false]):
    on a name that is neither the name nor the module of a registered
    descriptor the call returns [False] and changes nothing; otherwise it
    returns [True], and in the state it ends in the descriptor at the
    position of the first such descriptor has [enabled = b] and the other
    fields of that descriptor, the descriptors at the other positions are
    the same, and so is everything else of the runner and of the outside;
    an agent loaded from that descriptor sees the flag; when the flag
    already is [b] the state is left exactly as it was; and a second call
    with the same name returns the same and changes nothing more. *)
Theorem C9_enable_disable_agent :
  forall (b : bool) (agent_name : string) (s : state),
    ((forall c, In c (agent_configs (self s)) -> ~ matches agent_name c) ->
     set_agent b agent_name s = (Ok false, s))
    /\
    (forall pre c post,
        agent_configs (self s) = pre ++ c :: post ->
        (forall c', In c' pre -> ~ matches agent_name c') ->
        matches agent_name c ->
        exists s' c',
          set_agent b agent_name s = (Ok true, s') /\
          agent_configs (self s') = pre ++ c' :: post /\
          nth_error (agent_configs (self s')) (List.length pre) = Some c' /\
          enabled c' = b /\
          (module c', class c', name c', priority c', dependencies c')
          = (module c, class c, name c, priority c, dependencies c) /\
          (forall i, i <> List.length pre ->
                     nth_error (agent_configs (self s')) i
                     = nth_error (agent_configs (self s)) i) /\
          (forall ad, config_ref ad = List.length pre ->
                      config_of (self s') ad = c') /\
          (mode (self s'), global_interval (self s'), max_workers (self s'),
           pipeline_delay (self s'), agents (self s'), threads (self s'),
           running (self s'), self_stats (self s'))
          = (mode (self s), global_interval (self s), max_workers (self s),
             pipeline_delay (self s), agents (self s), threads (self s),
             running (self s), self_stats (self s)) /\
          outside s' = outside s /\
          (enabled c = b -> s' = s))
    /\
    (forall r s',
        set_agent b agent_name s = (r, s') ->
        set_agent b agent_name s' = (r, s')).
Proof.
  intros b agent_name s. split; [|split].
  - intros Hnone. rewrite set_agent_eq.
    now rewrite assign_enabled_none.
  - intros pre c post Hcs Hpre Hc.
    assert (Heq : set_agent b agent_name s =
                  (Ok true,
                   {| self := with_agent_configs
                                (pre ++ set_enabled b c :: post) (self s);
                      outside := outside s |})).
    { rewrite set_agent_eq, Hcs.
      now rewrite (assign_enabled_first b agent_name pre c post Hpre Hc). }
    eexists. exists (set_enabled b c). split; [exact Heq|].
    cbn [self outside agent_configs with_agent_configs mode global_interval
         max_workers pipeline_delay agents threads running self_stats].
    split; [reflexivity|].
    split.
    { rewrite nth_error_app2 by lia. now rewrite Nat.sub_diag. }
    split; [now destruct c|]. split; [now destruct c|].
    split.
    { intros i Hi. rewrite Hcs.
      destruct (Nat.lt_ge_cases i (List.length pre)) as [Hlt|Hge].
      - now rewrite !nth_error_app1 by exact Hlt.
      - rewrite !nth_error_app2 by exact Hge.
        destruct (i - List.length pre)%nat as [|n] eqn:Hn; [lia|].
        reflexivity. }
    split.
    { intros ad Hix. unfold config_of. simpl. rewrite Hix.
      rewrite app_nth2 by lia. now rewrite Nat.sub_diag. }
    split; [reflexivity|]. split; [reflexivity|].
    intros Hen. rewrite (set_enabled_same _ _ Hen), <- Hcs.
    now rewrite with_agent_configs_same.
  - intros r s'. rewrite !set_agent_eq.
    destruct (assign_enabled b agent_name (agent_configs (self s)))
      as [cs'|] eqn:Ha.
    + intros [= <- <-]. simpl.
      rewrite (assign_enabled_idempotent _ _ _ _ Ha). reflexivity.
    + intros [= <- <-]. now rewrite Ha.
Qed.

Lemma C9_enable_disable_agent_witness :
  (agent_configs (self (loaded "run_once"))
   = [hotspot_agent] ++ risk_analyzer_agent ::
     [material_collector_agent; product_matcher_agent;
      content_creator_agent; editor_agent] /\
   (forall c', In c' [hotspot_agent] -> ~ matches "风险分析" c') /\
   matches "风险分析" risk_analyzer_agent) /\
  (exists s',
      disable_agent "风险分析" (loaded "run_once") = (Ok true, s') /\
      option_map enabled (nth_error (agent_configs (self s')) 1) = Some false /\
      option_map (fun ad => enabled (config_of (self s') ad))
                 (Dict.get (agents (self s')) "agents.risk_analyzer_agent")
      = Some false /\
      option_map enabled (nth_error (agent_configs (self s')) 0) = Some true) /\
  enable_agent "风险分析" (loaded "run_once")
  = (Ok true, loaded "run_once") /\
  (forall c, In c (agent_configs (self (loaded "run_once"))) ->
             ~ matches "unknown" c) /\
  enable_agent "unknown" (loaded "run_once") = (Ok false, loaded "run_once").
Proof.
  assert (H1 : forall c', In c' [hotspot_agent] -> ~ matches "风险分析" c').
  { intros c' [<-|[]] [H|H]; discriminate H. }
  assert (H2 : matches "风险分析" risk_analyzer_agent) by (now left).
  assert (H3 : forall c, In c (agent_configs (self (loaded "run_once"))) ->
                         ~ matches "unknown" c).
  { simpl. intros c Hc [H|H];
      repeat (destruct Hc as [<-|Hc]; [discriminate H|]); contradiction. }
  split; [repeat split; assumption|].
  split.
  { destruct (proj1 (proj2 (C9_enable_disable_agent false "风险分析"
                              (loaded "run_once")))
                [hotspot_agent] risk_analyzer_agent _ eq_refl H1 H2)
      as (s' & c' & Heq & _ & Hnth & Hen & _ & Hother & Hcfg & Hrest & _).
    exists s'. split; [exact Heq|].
    split; [cbn [List.length] in Hnth; rewrite Hnth; cbn [option_map];
            now rewrite Hen|].
    split.
    - assert (Hag : agents (self s') = agents (self (loaded "run_once")))
        by congruence.
      rewrite Hag.
      change (Dict.get (agents (self (loaded "run_once")))
                       "agents.risk_analyzer_agent")
        with (Some {| instance := 1; config_ref := 1; stats := new_stats |}).
      cbn [option_map].
      rewrite (Hcfg {| instance := 1; config_ref := 1; stats := new_stats |}
                 eq_refl).
      now rewrite Hen.
    - rewrite (Hother 0%nat) by discriminate. reflexivity. }
  split.
  { destruct (proj1 (proj2 (C9_enable_disable_agent true "风险分析"
                              (loaded "run_once")))
                [hotspot_agent] risk_analyzer_agent _ eq_refl H1 H2)
      as (s' & c' & Heq & _ & _ & _ & _ & _ & _ & _ & _ & Hsame).
    change (enable_agent "风险分析" (loaded "run_once"))
      with (set_agent true "风险分析" (loaded "run_once")).
    rewrite Heq. now rewrite (Hsame eq_refl). }
  split; [exact H3|].
  exact (proj1 (C9_enable_disable_agent true "unknown" (loaded "run_once")) H3).
Defined.

(** ** C8: restarting the worker of a stage *)

Lemma find_agent_none r items agent_name :
  (forall k ad, In (k, ad) items -> ~ matches agent_name (config_of r ad)) ->
  find_agent r items agent_name = None.
Proof.
  induction items as [|[k ad] items IH]; simpl; intros H; [reflexivity|].
  destruct ((name (config_of r ad) =? agent_name)
            || (module (config_of r ad) =? agent_name))%string eqn:Hm.
  - apply matches_dec in Hm. exfalso. apply (H k ad); auto.
  - apply IH. intros k' ad' Hin. apply (H k' ad'). now right.
Qed.

Lemma find_agent_some r items agent_name k ad :
  In (k, ad) items -> matches agent_name (config_of r ad) ->
  exists key, find_agent r items agent_name = Some key /\
              In key (Dict.keys items).
Proof.
  induction items as [|[k' ad'] items IH]; simpl; intros Hin Hm;
    [contradiction|].
  destruct ((name (config_of r ad') =? agent_name)
            || (module (config_of r ad') =? agent_name))%string eqn:Hm'.
  - exists k'. auto.
  - destruct Hin as [[= -> ->]|Hin].
    + apply matches_dec in Hm. congruence.
    + destruct (IH Hin Hm) as (key & Hf & Hk). exists key. auto.
Qed.

(** The search of [restart_agent] stops at the first entry of
    [self.agents] whose descriptor has the name or the module. *)
Lemma find_agent_first r pre k ad post agent_name :
  (forall k' ad', In (k', ad') pre ->
                  ~ matches agent_name (config_of r ad')) ->
  matches agent_name (config_of r ad) ->
  find_agent r (pre ++ (k, ad) :: post) agent_name = Some k.
Proof.
  intros Hpre Hm. induction pre as [|[k' ad'] pre IH]; simpl.
  - apply matches_dec in Hm. now rewrite Hm.
  - destruct ((name (config_of r ad') =? agent_name)
              || (module (config_of r ad') =? agent_name))%string eqn:Hm'.
    + apply matches_dec in Hm'. exfalso. apply (Hpre k' ad'); simpl; auto.
    + apply IH. intros k'' ad'' Hin. apply (Hpre k'' ad''). now right.
Qed.

Lemma get_first_of_key {V} (pre : Dict.t V) k v post :
  ~ In k (Dict.keys pre) -> Dict.get (pre ++ (k, v) :: post) k = Some v.
Proof.
  induction pre as [|[k' v'] pre IH]; simpl; intros H.
  - now rewrite String.eqb_refl.
  - destruct (String.eqb_spec k' k) as [->|Hne]; [tauto|].
    apply IH. tauto.
Qed.

(** The wait of [restart_agent] for the worker it replaces: the thread
    stored under the key, when it is alive, is joined with a timeout of 10
    seconds. *)
Definition old_worker_joins (E : env) (s : state) (key : string)
    : list (nat * Z) :=
  match Dict.get (threads (self s)) key with
  | Some t =>
      if is_alive E (thread_id t) (clock (outside s))
      then [(thread_id t, 10)] else []
  | None => []
  end.

(** C8.  [restart_agent] returns [False] and changes nothing when the mode
    is not ["run_forever"], and when no loaded stage has the given name or
    module.  Otherwise, let [(k, ad)] be the first entry of [self.agents]
    whose descriptor has that name or module (the keys of [self.agents]
    are distinct, and [k] is not the empty string, which the loader never
    stores).  Then [restart_agent] returns [True]: [self.threads[k]] is a
    new thread, named after the stage, whose target is the instance of
    [ad], the one stored in [self.agents[k]]; it replaces the thread that
    was stored under [k], which is only waited for, 10 seconds, when it is
    alive; the threads under other keys stay; [self.agents], and with it
    the stats of every stage, is unchanged, as are the descriptors, the
    mode and the global stats; and no [run_once] is called. *)
Theorem C8_restart_agent :
  forall (E : env) (agent_name : string) (s : state),
    (mode (self s) <> "run_forever" ->
     restart_agent E agent_name s = (Ok false, s))
    /\
    ((forall k ad, In (k, ad) (agents (self s)) ->
                   ~ matches agent_name (config_of (self s) ad)) ->
     restart_agent E agent_name s = (Ok false, s))
    /\
    (forall pre k ad post,
        mode (self s) = "run_forever" ->
        NoDup (Dict.keys (agents (self s))) ->
        agents (self s) = pre ++ (k, ad) :: post ->
        (forall k' ad', In (k', ad') pre ->
                        ~ matches agent_name (config_of (self s) ad')) ->
        matches agent_name (config_of (self s) ad) ->
        k <> "" ->
        exists s',
          restart_agent E agent_name s = (Ok true, s') /\
          Dict.get (agents (self s)) k = Some ad /\
          Dict.get (threads (self s')) k =
            Some {| thread_id := objects (outside s);
                    thread_name :=
                      (name (config_of (self s) ad) ++ "-restart")%string;
                    thread_target := instance ad;
                    daemon := true |} /\
          (forall t, Dict.get (threads (self s)) k = Some t ->
                     (thread_id t < objects (outside s))%nat ->
                     Dict.get (threads (self s')) k <> Some t) /\
          (forall k', k' <> k ->
             Dict.get (threads (self s')) k' = Dict.get (threads (self s)) k') /\
          agents (self s') = agents (self s) /\
          agent_configs (self s') = agent_configs (self s) /\
          mode (self s') = mode (self s) /\
          self_stats (self s') = self_stats (self s) /\
          running (self s') = running (self s) /\
          calls (outside s') = calls (outside s) /\
          sleeps (outside s') = sleeps (outside s) /\
          joins (outside s') = joins (outside s) ++ old_worker_joins E s k /\
          objects (outside s') = S (objects (outside s))).
Proof.
  intros E agent_name s. split; [|split].
  - intros Hmode. unfold restart_agent, bind, gets. simpl.
    destruct (String.eqb_spec (mode (self s)) "run_forever");
      [contradiction | reflexivity].
  - intros Hnone. unfold restart_agent, bind, gets. simpl.
    destruct (mode (self s) =? "run_forever")%string; simpl; [|reflexivity].
    now rewrite (find_agent_none _ _ _ Hnone).
  - intros pre k ad post Hmode Hnd Hags Hpre Hm Hk.
    assert (Hfind : find_agent (self s) (agents (self s)) agent_name = Some k).
    { rewrite Hags. now apply find_agent_first. }
    assert (Ha : Dict.get (agents (self s)) k = Some ad).
    { rewrite Hags. apply get_first_of_key.
      rewrite Hags in Hnd. unfold Dict.keys in Hnd. rewrite map_app in Hnd.
      simpl in Hnd. now apply NoDup_remove_2 in Hnd as Hn;
        intros Hin; apply Hn, in_or_app; left. }
    assert (Hne : (k =? "")%string = false) by (now apply String.eqb_neq).
    unfold restart_agent, bind at 1, gets at 1. simpl.
    rewrite Hmode. simpl. unfold bind at 1, gets at 1. simpl.
    rewrite Hfind, Hne. unfold try_except.
    unfold bind at 1. unfold gets at 1. simpl. unfold bind at 1.
    assert (Hjoin : exists w,
      (match Dict.get (threads (self s)) k with
       | Some t =>
           alive <- thread_is_alive E t ;;
           (if alive then thread_join t 10 else ret tt)
       | None => ret tt
       end) s = (Ok tt, {| self := self s; outside := w |}) /\
      objects w = objects (outside s) /\ calls w = calls (outside s) /\
      sleeps w = sleeps (outside s) /\
      joins w = joins (outside s) ++ old_worker_joins E s k).
    { unfold old_worker_joins.
      destruct (Dict.get (threads (self s)) k) as [t|].
      - unfold bind, thread_is_alive, bind, read_world, ret. simpl.
        destruct (is_alive E (thread_id t) (clock (outside s))).
        + eexists. split; [reflexivity|]. simpl. auto.
        + exists (outside s). rewrite app_nil_r. destruct s. auto.
      - exists (outside s). rewrite app_nil_r. destruct s. auto. }
    destruct Hjoin as (w & -> & Hobj & Hcalls & Hsleeps & Hjoins).
    unfold bind at 1, gets at 1. simpl. rewrite Ha.
    unfold bind, gets, start_thread, new_object, bind, read_world, on_world,
      modify, ret. simpl.
    eexists. split; [reflexivity|]. simpl.
    split; [reflexivity|].
    split; [rewrite Hobj; apply DictFacts.get_set_same|].
    split.
    { intros t _ Hlt. rewrite DictFacts.get_set_same, Hobj.
      intros [= <-]. simpl in Hlt. lia. }
    split; [intros k' Hk'; apply DictFacts.get_set_other; congruence|].
    split; [reflexivity|].
    split; [reflexivity|]. split; [exact Hmode|].
    repeat (split; [reflexivity|]).
    split; [exact Hcalls|]. split; [exact Hsleeps|].
    split; [exact Hjoins | now rewrite Hobj].
Qed.

(** The six agents run as workers of the ["run_forever"] mode. *)
Definition supervising : state :=
  Eval vm_compute in
  let s := loaded "run_forever" in
  snd (_run_concurrent_forever env_all_ok
         {| self := with_running true (self s); outside := outside s |}).

Lemma C8_restart_agent_witness :
  let pre := [("agents.hotspot_agent",
               {| instance := 0; config_ref := 0; stats := new_stats |});
              ("agents.risk_analyzer_agent",
               {| instance := 1; config_ref := 1; stats := new_stats |});
              ("agents.material_collector_agent",
               {| instance := 2; config_ref := 2; stats := new_stats |});
              ("agents.product_matcher_agent",
               {| instance := 3; config_ref := 3; stats := new_stats |});
              ("agents.content_creator_agent",
               {| instance := 4; config_ref := 4; stats := new_stats |})] in
  let ad := {| instance := 5; config_ref := 5; stats := new_stats |} in
  (mode (self supervising) = "run_forever" /\
   NoDup (Dict.keys (agents (self supervising))) /\
   agents (self supervising) = pre ++ ("agents.editor_agent", ad) :: [] /\
   (forall k' ad', In (k', ad') pre ->
                   ~ matches "内容编辑" (config_of (self supervising) ad')) /\
   matches "内容编辑" (config_of (self supervising) ad) /\
   "agents.editor_agent" <> "") /\
  (exists s',
      restart_agent env_all_ok "内容编辑" supervising = (Ok true, s') /\
      Dict.get (threads (self s')) "agents.editor_agent" =
        Some {| thread_id := 12; thread_name := "内容编辑-restart";
                thread_target := 5; daemon := true |} /\
      agents (self s') = agents (self supervising) /\
      joins (outside s') = [(11%nat, 10)]) /\
  (mode (self (loaded "pipeline")) <> "run_forever" /\
   restart_agent env_all_ok "内容编辑" (loaded "pipeline")
   = (Ok false, loaded "pipeline")).
Proof.
  intros pre ad.
  assert (H0 : mode (self supervising) = "run_forever") by reflexivity.
  assert (H1 : NoDup (Dict.keys (agents (self supervising))))
    by exact static_registry_modules_distinct.
  assert (H2 : agents (self supervising)
               = pre ++ ("agents.editor_agent", ad) :: []) by reflexivity.
  assert (H3 : forall k' ad', In (k', ad') pre ->
                 ~ matches "内容编辑" (config_of (self supervising) ad')).
  { intros k' ad' Hin.
    repeat (destruct Hin as [[= <- <-]|Hin];
            [intros [H|H]; discriminate H|]).
    contradiction. }
  assert (H4 : matches "内容编辑" (config_of (self supervising) ad))
    by (left; reflexivity).
  assert (H5 : "agents.editor_agent" <> "") by discriminate.
  assert (H6 : mode (self (loaded "pipeline")) <> "run_forever")
    by discriminate.
  split; [exact (conj H0 (conj H1 (conj H2 (conj H3 (conj H4 H5)))))|]. split.
  - destruct (proj2 (proj2 (C8_restart_agent env_all_ok "内容编辑" supervising))
                pre "agents.editor_agent" ad [] H0 H1 H2 H3 H4 H5)
      as (s' & Heq & _ & Ht & _ & _ & Hagents & _ & _ & _ & _ & _ & _
          & Hjoins & _).
    exists s'. split; [exact Heq|]. split; [exact Ht|].
    split; [exact Hagents | exact Hjoins].
  - split; [exact H6|].
    exact (proj1 (C8_restart_agent env_all_ok "内容编辑" (loaded "pipeline")) H6).
Defined.

(** ** Invariants of the runner

    A computation keeps a property of the runner when the property holds in
    the state it ends in, returned or raised, whenever it held before. *)

Definition keeps (P : runner -> Prop) {A} (m : M A) : Prop :=
  forall s r s', P (self s) -> m s = (r, s') -> P (self s').

Section Keeps.
Variable P : runner -> Prop.

Lemma keeps_ret {A} (a : A) : keeps P (ret a).
Proof. intros s r s' H [= <- <-]. exact H. Qed.

Lemma keeps_raise {A} (e : exn) : keeps P (@raise A e).
Proof. intros s r s' H [= <- <-]. exact H. Qed.

Lemma keeps_gets {A} (f : runner -> A) : keeps P (gets f).
Proof. intros s r s' H [= <- <-]. exact H. Qed.

Lemma keeps_read_world {A} (f : world -> A) : keeps P (read_world f).
Proof. intros s r s' H [= <- <-]. exact H. Qed.

Lemma keeps_on_world f : keeps P (on_world f).
Proof. intros s r s' H [= <- <-]. exact H. Qed.

Lemma keeps_modify f : (forall r, P r -> P (f r)) -> keeps P (modify f).
Proof. intros Hf s r s' H [= <- <-]. simpl. now apply Hf. Qed.

Lemma keeps_bind {A B} (m : M A) (k : A -> M B) :
  keeps P m -> (forall a, keeps P (k a)) -> keeps P (bind m k).
Proof.
  intros Hm Hk s r s' H. unfold bind.
  destruct (m s) as [[a|e] s1] eqn:Hms.
  - intros Heq. eapply Hk; [|exact Heq]. eapply Hm; eauto.
  - intros [= <- <-]. eapply Hm; eauto.
Qed.

Lemma keeps_try_except {A} (m : M A) (h : exn -> M A) :
  keeps P m -> (forall e, keeps P (h e)) -> keeps P (try_except m h).
Proof.
  intros Hm Hh s r s' H. unfold try_except.
  destruct (m s) as [[a|e] s1] eqn:Hms.
  - intros [= <- <-]. eapply Hm; eauto.
  - intros Heq. eapply Hh; [|exact Heq]. eapply Hm; eauto.
Qed.

Lemma keeps_try_finally {A} (m : M A) (f : M unit) :
  keeps P m -> keeps P f -> keeps P (try_finally m f).
Proof.
  intros Hm Hf s r s' H. unfold try_finally.
  destruct (m s) as [r1 s1] eqn:Hms.
  destruct (f s1) as [[u|e] s2] eqn:Hfs; intros [= <- <-];
    (eapply Hf; [|exact Hfs]; eapply Hm; eauto).
Qed.

Lemma keeps_if {A} (b : bool) (m1 m2 : M A) :
  keeps P m1 -> keeps P m2 -> keeps P (if b then m1 else m2).
Proof. now destruct b. Qed.

Lemma keeps_time_sleep E secs : keeps P (time_sleep E secs).
Proof.
  unfold time_sleep.
  destruct (sleep_error E secs); [apply keeps_raise | apply keeps_on_world].
Qed.

Lemma keeps_new_object : keeps P new_object.
Proof.
  unfold new_object.
  apply keeps_bind; [apply keeps_read_world|]. intros i.
  apply keeps_bind; [apply keeps_on_world|]. intros _. apply keeps_ret.
Qed.

Lemma keeps_now_isoformat E : keeps P (now_isoformat E).
Proof.
  unfold now_isoformat.
  apply keeps_bind; [apply keeps_read_world|]. intros n.
  apply keeps_bind; [apply keeps_on_world|]. intros _. apply keeps_ret.
Qed.

Lemma keeps_py_time E : keeps P (py_time E).
Proof.
  unfold py_time.
  apply keeps_bind; [apply keeps_read_world|]. intros n.
  apply keeps_bind; [apply keeps_on_world|]. intros _. apply keeps_ret.
Qed.
End Keeps.

(** [successes + errors == runs] for every loaded stage. *)
Definition counters_consistent (r : runner) : Prop :=
  forall k ad,
    Dict.get (agents r) k = Some ad ->
    successes (stats ad) + errors (stats ad) = runs (stats ad).

Lemma counters_consistent_agents r r' :
  agents r' = agents r -> counters_consistent r -> counters_consistent r'.
Proof. unfold counters_consistent. intros ->. auto. Qed.

Lemma keeps_counters__run_agent_once E key :
  keeps counters_consistent (_run_agent_once E key).
Proof.
  intros s r s' H Heq.
  destruct (_run_agent_once_cases E key s) as (b & s1 & Heq1 & Hinv).
  rewrite Heq1 in Heq. injection Heq as _ <-.
  intros k ad' Hget.
  destruct (skeleton_get _ _ _ _
              (sbs_agents _ _ (invocation_same_but_stats _ _ _ _ _ Hinv)) Hget)
    as (ad & Hold & _).
  destruct (invocation_counts_grow _ _ _ _ _ _ _ Hinv Hold) as (ad2 & H2 & Hg).
  rewrite Hget in H2. injection H2 as <-.
  specialize (H k ad Hold). unfold counts_grow in Hg. lia.
Qed.

Lemma keeps_counters_run_configs E cs :
  forall results, keeps counters_consistent (run_configs E cs results).
Proof.
  induction cs as [|c cs IH]; intros results; simpl.
  - apply keeps_ret.
  - apply keeps_bind; [apply keeps_gets|]. intros ok.
    apply keeps_if; [apply IH|].
    apply keeps_bind; [apply keeps_counters__run_agent_once|]. intros b.
    apply keeps_bind; [apply keeps_gets|]. intros d.
    apply keeps_bind; [|intros _; apply IH].
    apply keeps_if; [apply keeps_time_sleep | apply keeps_ret].
Qed.

Lemma keeps_counters__run_pipeline_once E :
  keeps counters_consistent (_run_pipeline_once E).
Proof.
  unfold _run_pipeline_once.
  apply keeps_bind; [apply keeps_gets|]. intros cs.
  apply keeps_counters_run_configs.
Qed.

Lemma keeps_counters_load_configs E cs :
  forall ix sc tc, keeps counters_consistent (load_configs E cs ix sc tc).
Proof.
  induction cs as [|c cs IH]; intros ix sc tc; simpl.
  - apply keeps_ret.
  - apply keeps_if; [apply IH|].
    apply keeps_bind.
    + unfold _load_agent. apply keeps_try_except.
      * apply keeps_bind; [|intros; apply keeps_ret].
        unfold call_constructor. apply keeps_if; [apply keeps_raise|].
        destruct (construct E c); [apply keeps_new_object | apply keeps_raise].
      * intros; apply keeps_ret.
    + intros [i|]; [|apply IH].
      apply keeps_bind; [|intros _; apply IH].
      apply keeps_modify. intros r Hr k ad. simpl.
      destruct (String.eqb_spec (module c) k) as [<-|Hne].
      * rewrite DictFacts.get_set_same. now intros [= <-].
      * rewrite DictFacts.get_set_other by exact Hne. apply Hr.
Qed.

Lemma keeps_counters_start_workers E items :
  keeps counters_consistent (start_workers E items).
Proof.
  induction items as [|[k ad] items IH]; simpl.
  - apply keeps_ret.
  - apply keeps_bind; [apply keeps_gets|]. intros cfg.
    apply keeps_bind.
    { unfold start_thread.
      apply keeps_bind; [apply keeps_new_object | intros; apply keeps_ret]. }
    intros t. apply keeps_bind; [apply keeps_modify; auto|]. intros _.
    apply keeps_bind; [apply keeps_time_sleep | intros _; exact IH].
Qed.

Lemma keeps_counters_monitor E fuel :
  keeps counters_consistent (monitor E fuel).
Proof.
  induction fuel as [|fuel IH]; simpl.
  - apply keeps_ret.
  - apply keeps_bind; [apply keeps_gets|]. intros r.
    apply keeps_if; [|apply keeps_ret].
    apply keeps_bind; [apply keeps_time_sleep | intros _; exact IH].
Qed.

Lemma keeps_counters_pipeline_loop E fuel :
  keeps counters_consistent (pipeline_loop E (_run_pipeline_once E) fuel).
Proof.
  induction fuel as [|fuel IH]; simpl.
  - apply keeps_ret.
  - apply keeps_bind; [apply keeps_gets|]. intros r.
    apply keeps_if; [|apply keeps_ret].
    apply keeps_bind; [|intros _; exact IH].
    unfold pipeline_attempt. apply keeps_try_except.
    + apply keeps_bind; [apply keeps_py_time|]. intros t0.
      apply keeps_bind; [apply keeps_counters__run_pipeline_once|]. intros res.
      apply keeps_bind; [apply keeps_modify; auto|]. intros _.
      apply keeps_bind; [apply keeps_py_time|]. intros t1.
      apply keeps_bind; [apply keeps_gets|]. intros b.
      apply keeps_if; [|apply keeps_ret].
      apply keeps_bind; [apply keeps_gets | intros; apply keeps_time_sleep].
    + intros e. apply keeps_time_sleep.
Qed.

Lemma keeps_counters_stop E : keeps counters_consistent (stop E).
Proof.
  unfold stop. apply keeps_bind; [apply keeps_gets|]. intros r.
  apply keeps_if; [apply keeps_ret|].
  apply keeps_bind; [apply keeps_modify; auto|]. intros _.
  apply keeps_bind; [apply keeps_gets|]. intros ts.
  apply keeps_bind.
  - induction ts as [|[k t] ts IH]; simpl; [apply keeps_ret|].
    apply keeps_bind.
    { unfold thread_is_alive.
      apply keeps_bind; [apply keeps_read_world | intros; apply keeps_ret]. }
    intros alive. apply keeps_bind; [|intros _; exact IH].
    apply keeps_if; [apply keeps_on_world | apply keeps_ret].
  - intros _. unfold _print_final_summary.
    apply keeps_bind; [apply keeps_gets|]. intros [t|]; [|apply keeps_ret].
    apply keeps_bind; [apply keeps_now_isoformat | intros; apply keeps_ret].
Qed.

(** Whatever the agents do and in every mode, [successes + errors == runs]
    holds of every stage when [run] ends, for any fuel, that is at every
    point at which the loops of [run] can be stopped. *)
Lemma run_keeps_counters_consistent E fuel :
  keeps counters_consistent (run E fuel).
Proof.
  unfold run. apply keeps_try_finally; [|apply keeps_counters_stop].
  apply keeps_try_except; [|intros; apply keeps_ret].
  apply keeps_bind.
  { unfold _load_all_agents.
    apply keeps_bind; [apply keeps_gets|]. intros cs.
    apply keeps_counters_load_configs. }
  intros ok. apply keeps_if; [apply keeps_ret|].
  apply keeps_bind; [apply keeps_gets|]. intros a.
  apply keeps_if; [apply keeps_ret|].
  apply keeps_bind; [apply keeps_modify; auto|]. intros _.
  apply keeps_bind; [apply keeps_now_isoformat|]. intros t.
  apply keeps_bind; [apply keeps_modify; auto|]. intros _.
  apply keeps_bind; [apply keeps_gets|]. intros m.
  apply keeps_if.
  { unfold _run_mode_once.
    apply keeps_bind; [apply keeps_counters__run_pipeline_once|].
    intros; apply keeps_ret. }
  apply keeps_if; [apply keeps_counters_pipeline_loop|].
  apply keeps_if; [|apply keeps_ret].
  unfold _run_mode_forever.
  apply keeps_bind; [|intros _; apply keeps_counters_monitor].
  unfold _run_concurrent_forever.
  apply keeps_bind; [apply keeps_gets|]. intros a'.
  apply keeps_counters_start_workers.
Qed.

Lemma init_counters_consistent m gi mw pd :
  counters_consistent (init m gi mw pd).
Proof. intros k ad. discriminate. Qed.

(** The loader never stores an agent under the empty key, so the test
    [not target_key] of [restart_agent] only fails on [None]. *)
Lemma _load_all_agents_keys_nonempty E s b s' :
  ~ In "" (Dict.keys (agents (self s))) ->
  _load_all_agents E s = (Ok b, s') ->
  ~ In "" (Dict.keys (agents (self s'))).
Proof.
  intros Hold Hload Hin.
  destruct (_load_all_agents_spec E s) as (s2 & Heq & _ & Hnew & _).
  rewrite Hload in Heq. injection Heq as _ <-.
  destruct (DictFacts.in_keys_get _ _ Hin) as (ad & Hget).
  destruct (Hnew _ _ Hget) as [H|(_ & c & _ & Hmod & _ & Hl)].
  - apply Hold. eapply DictFacts.get_in_keys; eauto.
  - unfold loads in Hl. rewrite Hmod in Hl. discriminate.
Qed.

(** Enabling and disabling keep the modules of the registry, which are
    distinct in the static registry: the keys of a pass stay distinct. *)
Lemma assign_enabled_modules b agent_name cs cs' :
  assign_enabled b agent_name cs = Some cs' ->
  map module cs' = map module cs.
Proof.
  revert cs'. induction cs as [|c cs IH]; simpl; intros cs'; [discriminate|].
  destruct ((name c =? agent_name) || (module c =? agent_name))%string.
  - intros [= <-]. reflexivity.
  - destruct (assign_enabled b agent_name cs) as [cs''|]; [|discriminate].
    intros [= <-]. simpl. now rewrite (IH cs'').
Qed.

Lemma set_agent_keeps_modules b agent_name ms :
  keeps (fun r => map module (agent_configs r) = ms) (set_agent b agent_name).
Proof.
  intros s r s' H. rewrite set_agent_eq.
  destruct (assign_enabled b agent_name (agent_configs (self s))) as [cs'|]
    eqn:Ha; intros [= <- <-]; simpl; [|exact H].
  now rewrite (assign_enabled_modules _ _ _ _ Ha).
Qed.

(** The descriptor of a loaded agent is shared with the registry: after
    [disable_agent] the report of [get_status] on the agent shows the flag
    cleared, while the agent stays loaded. *)
Example get_status_sees_disable_agent :
  match bind (disable_agent "风险分析") (fun _ => get_status env_all_ok)
             (loaded "run_once") with
  | (Ok st, s') =>
      option_map status_enabled (Dict.get (status_agents st) "风险分析")
      = Some false /\
      Dict.mem (agents (self s')) "agents.risk_analyzer_agent" = true
  | (Exc _, _) => False
  end.
Proof. vm_compute. split; reflexivity. Qed.

(** * More of the runner

    Properties of the functions of [src/agent_runner.py] around the ones
    above: the loader, [run] and its modes, [stop], [get_status], and of
    [BaseAgent] in [src/agents/base_agent.py], whose constructor and
    [run_forever] the runner calls. *)

(** ** The loader: [_load_agent], [_load_all_agents] *)

(** X1.  [_load_all_agents] never raises, and it returns [True] exactly when
    every enabled descriptor loads: its module name is not empty and its
    import, class look-up and constructor raise nothing. *)
Theorem X1_load_all_agents_complete_iff :
  forall (E : env) (s : state),
    exists b s',
      _load_all_agents E s = (Ok b, s') /\
      (b = true <->
       forall c, In c (agent_configs (self s)) -> enabled c = true ->
                 loads E c = true).
Proof.
  intros E s.
  destruct (_load_all_agents_spec E s) as (s' & Heq & _).
  eexists _, s'. split; [exact Heq|]. rewrite Z.eqb_eq. split.
  - intros Hcount c Hc Hen.
    destruct (loads E c) eqn:Hl; [reflexivity|].
    pose proof (count_loaded_lt E _ c Hc Hen Hl). lia.
  - apply count_loaded_all.
Qed.

Lemma load_configs_objects E cs : forall ix sc tc s b s',
  load_configs E cs ix sc tc s = (Ok b, s') ->
  Z.of_nat (objects (outside s')) =
  Z.of_nat (objects (outside s)) + count_loaded E cs.
Proof.
  unfold count_loaded.
  induction cs as [|c cs IH]; intros ix sc tc s b s'; simpl load_configs.
  - intros [= _ <-]. simpl. lia.
  - simpl filter. destruct (enabled c) eqn:Hen; cbn [negb andb].
    + unfold bind at 1. rewrite _load_agent_eq.
      destruct (loads E c) eqn:Hl.
      * unfold bind at 1. unfold modify at 1. intros H.
        apply IH in H. cbn [outside objects allocate] in H.
        cbn [List.length]. rewrite Nat2Z.inj_succ in *. lia.
      * intros H. apply IH in H. exact H.
    + intros H. apply IH in H. exact H.
Qed.

(** X2.  A descriptor that fails to load does not stop the loading of the
    others: after [_load_all_agents] every enabled descriptor that loads is
    a key of [self.agents]; a key that is the module of no such descriptor
    is as it was before (absent if it was absent: disabled descriptors and
    those that fail are not stored); entries that were not there before
    have new stats; one object is created per loaded agent, and nothing
    else of the runner or of the outside changes. *)
Theorem X2_load_all_agents_isolates_failures :
  forall (E : env) (s : state),
    exists b s',
      _load_all_agents E s = (Ok b, s') /\
      (forall c, In c (agent_configs (self s)) -> enabled c = true ->
                 loads E c = true ->
                 Dict.mem (agents (self s')) (module c) = true) /\
      (forall k,
          (forall c, In c (agent_configs (self s)) -> enabled c = true ->
                     loads E c = true -> module c <> k) ->
          Dict.get (agents (self s')) k = Dict.get (agents (self s)) k) /\
      (forall k ad,
          Dict.get (agents (self s')) k = Some ad ->
          Dict.get (agents (self s)) k = Some ad \/ stats ad = new_stats) /\
      Z.of_nat (objects (outside s')) =
        Z.of_nat (objects (outside s))
        + count_loaded E (agent_configs (self s)) /\
      loader_frame s s'.
Proof.
  intros E s.
  destruct (load_configs_spec E (agent_configs (self s)) 0%nat 0 0 s)
    as (s' & Heq & Hf & Hnew & Hin & Hkeep).
  assert (Hload : _load_all_agents E s =
                  (Ok (0 + count_loaded E (agent_configs (self s))
                       =? 0 + count_enabled (agent_configs (self s))), s')).
  { unfold _load_all_agents, bind, gets. simpl. exact Heq. }
  eexists _, s'. split; [exact Hload|]. split; [exact Hin|].
  split; [|split; [|split]].
  - intros k Hk.
    destruct (Dict.get (agents (self s')) k) as [ad'|] eqn:Hget'.
    + destruct (Hnew k ad' Hget') as [Hold|(_ & c & Hc & Hm & Hen & Hl)].
      * now rewrite Hold.
      * exfalso. exact (Hk c Hc Hen Hl Hm).
    + destruct (Dict.get (agents (self s)) k) as [ad|] eqn:Hget;
        [|reflexivity].
      assert (Hmem : Dict.mem (agents (self s')) k = true).
      { apply Hkeep. unfold Dict.mem. now rewrite Hget. }
      unfold Dict.mem in Hmem. rewrite Hget' in Hmem. discriminate.
  - intros k ad Hget. destruct (Hnew k ad Hget) as [Hold|[Hst _]]; auto.
  - eapply load_configs_objects. exact Heq.
  - exact Hf.
Qed.

Lemma load_configs_frame E cs ix sc tc s r s' :
  load_configs E cs ix sc tc s = (r, s') -> loader_frame s s'.
Proof.
  intros H.
  destruct (load_configs_spec E cs ix sc tc s) as (s2 & Heq & Hf & _).
  rewrite Heq in H. injection H as _ <-. exact Hf.
Qed.

(** The entries the loader adds refer to the descriptor they were made
    from. *)
Lemma load_configs_refs E cs : forall pre ix sc tc s,
  ix = List.length pre ->
  agent_configs (self s) = pre ++ cs ->
  exists b s',
    load_configs E cs ix sc tc s = (Ok b, s') /\
    forall k ad,
      Dict.get (agents (self s')) k = Some ad ->
      Dict.get (agents (self s)) k = Some ad \/
      (module (config_of (self s') ad) = k /\
       enabled (config_of (self s') ad) = true /\
       In (config_of (self s') ad) cs).
Proof.
  induction cs as [|c cs IH]; intros pre ix sc tc s Hix Hcs.
  - eexists _, s. split; [reflexivity|]. auto.
  - assert (Hcs' : agent_configs (self s) = (pre ++ [c]) ++ cs)
      by (now rewrite <- app_assoc).
    assert (Hix' : S ix = List.length (pre ++ [c]))
      by (rewrite length_app; simpl; lia).
    simpl load_configs. destruct (enabled c) eqn:Hen; cbn [negb].
    + unfold bind at 1. rewrite _load_agent_eq.
      destruct (loads E c) eqn:Hl.
      * unfold bind at 1. unfold modify at 1.
        match goal with
        | |- context [load_configs E cs ?i ?a ?b ?st] =>
            destruct (IH (pre ++ [c]) i a b st Hix' Hcs')
              as (b' & s' & Heq & Hnew)
        end.
        exists b', s'. split; [exact Heq|].
        intros k ad Hget. destruct (Hnew k ad Hget) as [Hold|(H1 & H2 & H3)].
        -- simpl in Hold.
           destruct (String.eqb_spec (module c) k) as [<-|Hne].
           ++ rewrite DictFacts.get_set_same in Hold. injection Hold as <-.
              right.
              assert (Hc : config_of (self s')
                             {| instance := objects (outside s);
                                config_ref := ix; stats := new_stats |} = c).
              { unfold config_of. simpl.
                pose proof (load_configs_frame _ _ _ _ _ _ _ _ Heq) as Hf.
                rewrite (lf_configs _ _ Hf). simpl. rewrite Hcs, Hix.
                rewrite app_nth2 by lia. now rewrite Nat.sub_diag. }
              rewrite Hc. simpl. auto.
           ++ rewrite DictFacts.get_set_other in Hold by exact Hne. now left.
        -- right. simpl. auto.
      * destruct (IH (pre ++ [c]) (S ix) sc (tc + 1) s Hix' Hcs')
          as (b' & s' & Heq & Hnew).
        exists b', s'. split; [exact Heq|].
        intros k ad Hget. destruct (Hnew k ad Hget) as [Hold|(H1 & H2 & H3)];
          [now left | right; simpl; auto].
    + destruct (IH (pre ++ [c]) (S ix) sc tc s Hix' Hcs')
        as (b' & s' & Heq & Hnew).
      exists b', s'. split; [exact Heq|].
      intros k ad Hget. destruct (Hnew k ad Hget) as [Hold|(H1 & H2 & H3)];
        [now left | right; simpl; auto].
Qed.

(** X3.  Every entry that [_load_all_agents] adds to [self.agents] is stored
    under the module of the descriptor it refers to, an enabled descriptor
    of the registry; the name in the error log and the search of
    [restart_agent] go through that reference. *)
Theorem X3_loaded_entry_refers_to_its_descriptor :
  forall (E : env) (s : state),
    exists b s',
      _load_all_agents E s = (Ok b, s') /\
      forall k ad,
        Dict.get (agents (self s')) k = Some ad ->
        Dict.get (agents (self s)) k = Some ad \/
        (module (config_of (self s') ad) = k /\
         enabled (config_of (self s') ad) = true /\
         In (config_of (self s') ad) (agent_configs (self s))).
Proof.
  intros E s.
  destruct (load_configs_refs E (agent_configs (self s)) [] 0%nat 0 0 s
              eq_refl eq_refl) as (b & s' & Heq & Hnew).
  exists b, s'. split; [|exact Hnew].
  unfold _load_all_agents, bind, gets. simpl. exact Heq.
Qed.

(** ** A pass: results, stats and delays *)















(** ** Disabling a loaded stage *)




(** ** Computations that return, and properties of the state they keep *)

(** [m] never raises. *)
Definition returns {A} (m : M A) : Prop :=
  forall s, exists a s', m s = (Ok a, s').

Lemma returns_ret {A} (a : A) : returns (ret a).
Proof. intros s. now exists a, s. Qed.

Lemma returns_gets {A} (f : runner -> A) : returns (gets f).
Proof. intros s. now eexists _, _. Qed.

Lemma returns_read_world {A} (f : world -> A) : returns (read_world f).
Proof. intros s. now eexists _, _. Qed.

Lemma returns_modify f : returns (modify f).
Proof. intros s. now eexists _, _. Qed.

Lemma returns_on_world f : returns (on_world f).
Proof. intros s. now eexists _, _. Qed.

Lemma returns_bind {A B} (m : M A) (k : A -> M B) :
  returns m -> (forall a, returns (k a)) -> returns (bind m k).
Proof.
  intros Hm Hk s. destruct (Hm s) as (a & s1 & Heq).
  destruct (Hk a s1) as (b & s2 & Heq2).
  exists b, s2. unfold bind. now rewrite Heq.
Qed.

Lemma returns_if {A} (b : bool) (m1 m2 : M A) :
  returns m1 -> returns m2 -> returns (if b then m1 else m2).
Proof. now destruct b. Qed.

(** A handler that returns makes the whole [try] return. *)
Lemma returns_try_except {A} (m : M A) (h : exn -> M A) :
  (forall e, returns (h e)) -> returns (try_except m h).
Proof.
  intros Hh s. unfold try_except.
  destruct (m s) as [[a|e] s1]; [now exists a, s1 | apply Hh].
Qed.

Lemma returns_try_finally {A} (m : M A) (f : M unit) :
  returns m -> returns f -> returns (try_finally m f).
Proof.
  intros Hm Hf s. unfold try_finally.
  destruct (Hm s) as (a & s1 & ->). destruct (Hf s1) as ([] & s2 & ->).
  now exists a, s2.
Qed.

Lemma returns_time_sleep E secs :
  sleep_error E secs = None -> returns (time_sleep E secs).
Proof.
  intros H. unfold time_sleep. rewrite H. apply returns_on_world.
Qed.

Lemma returns_new_object : returns new_object.
Proof.
  unfold new_object. apply returns_bind; [apply returns_read_world|].
  intros i. apply returns_bind; [apply returns_on_world|].
  intros _. apply returns_ret.
Qed.

Lemma returns_now_isoformat E : returns (now_isoformat E).
Proof.
  unfold now_isoformat. apply returns_bind; [apply returns_read_world|].
  intros i. apply returns_bind; [apply returns_on_world|].
  intros _. apply returns_ret.
Qed.

Lemma returns_thread_is_alive E t : returns (thread_is_alive E t).
Proof.
  unfold thread_is_alive. apply returns_bind; [apply returns_read_world|].
  intros n. apply returns_ret.
Qed.

Lemma returns_join_threads E items : returns (join_threads E items).
Proof.
  induction items as [|[k t] items IH]; simpl; [apply returns_ret|].
  apply returns_bind; [apply returns_thread_is_alive|]. intros alive.
  apply returns_bind; [|intros _; exact IH].
  apply returns_if; [apply returns_on_world | apply returns_ret].
Qed.

Lemma returns_stop E : returns (stop E).
Proof.
  unfold stop. apply returns_bind; [apply returns_gets|]. intros r.
  apply returns_if; [apply returns_ret|].
  apply returns_bind; [apply returns_modify|]. intros _.
  apply returns_bind; [apply returns_gets|]. intros ts.
  apply returns_bind; [apply returns_join_threads|]. intros _.
  unfold _print_final_summary.
  apply returns_bind; [apply returns_gets|]. intros [t|]; [|apply returns_ret].
  apply returns_bind; [apply returns_now_isoformat|].
  intros _. apply returns_ret.
Qed.

(** [m] keeps the property [P] of the state, whether it returns or
    raises. *)
Definition preserves (P : state -> Prop) {A} (m : M A) : Prop :=
  forall s r s', P s -> m s = (r, s') -> P s'.

Section Preserves.
Variable P : state -> Prop.

Lemma preserves_ret {A} (a : A) : preserves P (ret a).
Proof. intros s r s' H [= <- <-]. exact H. Qed.

Lemma preserves_raise {A} (e : exn) : preserves P (@raise A e).
Proof. intros s r s' H [= <- <-]. exact H. Qed.

Lemma preserves_gets {A} (f : runner -> A) : preserves P (gets f).
Proof. intros s r s' H [= <- <-]. exact H. Qed.

Lemma preserves_read_world {A} (f : world -> A) : preserves P (read_world f).
Proof. intros s r s' H [= <- <-]. exact H. Qed.

Lemma preserves_modify f :
  (forall s, P s -> P {| self := f (self s); outside := outside s |}) ->
  preserves P (modify f).
Proof. intros Hf s r s' H [= <- <-]. now apply Hf. Qed.

Lemma preserves_on_world f :
  (forall s, P s -> P {| self := self s; outside := f (outside s) |}) ->
  preserves P (on_world f).
Proof. intros Hf s r s' H [= <- <-]. now apply Hf. Qed.

Lemma preserves_bind {A B} (m : M A) (k : A -> M B) :
  preserves P m -> (forall a, preserves P (k a)) -> preserves P (bind m k).
Proof.
  intros Hm Hk s r s' H. unfold bind.
  destruct (m s) as [[a|e] s1] eqn:Hms.
  - intros Heq. eapply Hk; [|exact Heq]. eapply Hm; eauto.
  - intros [= <- <-]. eapply Hm; eauto.
Qed.

Lemma preserves_try_except {A} (m : M A) (h : exn -> M A) :
  preserves P m -> (forall e, preserves P (h e)) ->
  preserves P (try_except m h).
Proof.
  intros Hm Hh s r s' H. unfold try_except.
  destruct (m s) as [[a|e] s1] eqn:Hms.
  - intros [= <- <-]. eapply Hm; eauto.
  - intros Heq. eapply Hh; [|exact Heq]. eapply Hm; eauto.
Qed.

Lemma preserves_try_finally {A} (m : M A) (f : M unit) :
  preserves P m -> preserves P f -> preserves P (try_finally m f).
Proof.
  intros Hm Hf s r s' H. unfold try_finally.
  destruct (m s) as [r1 s1] eqn:Hms.
  destruct (f s1) as [[u|e] s2] eqn:Hfs; intros [= <- <-];
    (eapply Hf; [|exact Hfs]; eapply Hm; eauto).
Qed.

Lemma preserves_if {A} (b : bool) (m1 m2 : M A) :
  preserves P m1 -> preserves P m2 -> preserves P (if b then m1 else m2).
Proof. now destruct b. Qed.

(** What the parts of the runner keep, given what the assignments and the
    effects they are made of keep. *)
Hypothesis P_tick :
  forall s, P s -> P {| self := self s; outside := tick (outside s) |}.
Hypothesis P_call :
  forall key s,
    P s -> P {| self := self s; outside := log_call key (outside s) |}.
Hypothesis P_sleep :
  forall secs s,
    P s -> P {| self := self s; outside := log_sleep secs (outside s) |}.
Hypothesis P_join :
  forall t secs s,
    P s -> P {| self := self s; outside := log_join t secs (outside s) |}.
Hypothesis P_allocate :
  forall s, P s -> P {| self := self s; outside := allocate (outside s) |}.
Hypothesis P_update_stats :
  forall key f s,
    P s -> P {| self := update_stats key f (self s); outside := outside s |}.
Hypothesis P_append_error :
  forall entry s,
    P s -> P {| self := append_error entry (self s); outside := outside s |}.
Hypothesis P_count_cycle :
  forall s,
    P s -> P {| self := count_cycle (self s); outside := outside s |}.
Hypothesis P_set_start_time :
  forall t s,
    P s -> P {| self := set_start_time t (self s); outside := outside s |}.
Hypothesis P_with_running :
  forall b s,
    P s -> P {| self := with_running b (self s); outside := outside s |}.
Hypothesis P_with_agents :
  forall a s,
    P s -> P {| self := with_agents a (self s); outside := outside s |}.
Hypothesis P_with_threads :
  forall t s,
    P s -> P {| self := with_threads t (self s); outside := outside s |}.

Lemma preserves_time_sleep E secs : preserves P (time_sleep E secs).
Proof.
  unfold time_sleep.
  destruct (sleep_error E secs); [apply preserves_raise|].
  apply preserves_on_world. apply P_sleep.
Qed.

Lemma preserves_new_object : preserves P new_object.
Proof.
  unfold new_object. apply preserves_bind; [apply preserves_read_world|].
  intros i. apply preserves_bind; [now apply preserves_on_world|].
  intros _. apply preserves_ret.
Qed.

Lemma preserves_now_isoformat E : preserves P (now_isoformat E).
Proof.
  unfold now_isoformat. apply preserves_bind; [apply preserves_read_world|].
  intros i. apply preserves_bind; [now apply preserves_on_world|].
  intros _. apply preserves_ret.
Qed.

Lemma preserves_py_time E : preserves P (py_time E).
Proof.
  unfold py_time. apply preserves_bind; [apply preserves_read_world|].
  intros i. apply preserves_bind; [now apply preserves_on_world|].
  intros _. apply preserves_ret.
Qed.

Lemma preserves_thread_is_alive E t : preserves P (thread_is_alive E t).
Proof.
  unfold thread_is_alive. apply preserves_bind; [apply preserves_read_world|].
  intros n. apply preserves_ret.
Qed.

Lemma preserves_start_thread nm i : preserves P (start_thread nm i).
Proof.
  unfold start_thread. apply preserves_bind; [apply preserves_new_object|].
  intros t. apply preserves_ret.
Qed.

Lemma preserves_call_run_once E key i : preserves P (call_run_once E key i).
Proof.
  unfold call_run_once. apply preserves_bind; [apply preserves_read_world|].
  intros n. apply preserves_bind; [apply preserves_on_world, P_call|].
  intros _. destruct (run_once E i n); [apply preserves_ret|].
  apply preserves_raise.
Qed.

Lemma preserves__run_agent_once E key : preserves P (_run_agent_once E key).
Proof.
  unfold _run_agent_once. apply preserves_bind; [apply preserves_gets|].
  intros a. destruct (Dict.get a key) as [ad|]; [|apply preserves_ret].
  apply preserves_bind; [apply preserves_gets|]. intros cfg.
  apply preserves_try_except.
  - apply preserves_bind; [apply preserves_py_time|]. intros t0.
    apply preserves_bind; [apply preserves_call_run_once|]. intros v.
    apply preserves_bind; [apply preserves_py_time|]. intros t1.
    repeat (apply preserves_bind;
            [first [ apply preserves_modify, P_update_stats
                   | apply preserves_now_isoformat ]|]; intros ?).
    apply preserves_ret.
  - intros e.
    repeat (apply preserves_bind;
            [first [ apply preserves_modify, P_update_stats
                   | apply preserves_modify, P_append_error
                   | apply preserves_now_isoformat ]|]; intros ?).
    apply preserves_ret.
Qed.

Lemma preserves_run_configs E cs :
  forall results, preserves P (run_configs E cs results).
Proof.
  induction cs as [|c cs IH]; intros results; simpl.
  - apply preserves_ret.
  - apply preserves_bind; [apply preserves_gets|]. intros ok.
    apply preserves_if; [apply IH|].
    apply preserves_bind; [apply preserves__run_agent_once|]. intros b.
    apply preserves_bind; [apply preserves_gets|]. intros d.
    apply preserves_bind; [|intros _; apply IH].
    apply preserves_if; [apply preserves_time_sleep | apply preserves_ret].
Qed.

Lemma preserves__run_pipeline_once E : preserves P (_run_pipeline_once E).
Proof.
  unfold _run_pipeline_once.
  apply preserves_bind; [apply preserves_gets|]. intros cs.
  apply preserves_run_configs.
Qed.

Lemma preserves_load_configs E cs :
  forall ix sc tc, preserves P (load_configs E cs ix sc tc).
Proof.
  induction cs as [|c cs IH]; intros ix sc tc; simpl.
  - apply preserves_ret.
  - apply preserves_if; [apply IH|].
    apply preserves_bind.
    + unfold _load_agent. apply preserves_try_except.
      * apply preserves_bind; [|intros; apply preserves_ret].
        unfold call_constructor. apply preserves_if; [apply preserves_raise|].
        destruct (construct E c);
          [apply preserves_new_object | apply preserves_raise].
      * intros; apply preserves_ret.
    + intros [i|]; [|apply IH].
      apply preserves_bind; [|intros _; apply IH].
      apply preserves_modify. intros s. apply P_with_agents.
Qed.

Lemma preserves__load_all_agents E : preserves P (_load_all_agents E).
Proof.
  unfold _load_all_agents.
  apply preserves_bind; [apply preserves_gets|]. intros cs.
  apply preserves_load_configs.
Qed.

Lemma preserves_start_workers E items :
  preserves P (start_workers E items).
Proof.
  induction items as [|[k ad] items IH]; simpl.
  - apply preserves_ret.
  - apply preserves_bind; [apply preserves_gets|]. intros cfg.
    apply preserves_bind; [apply preserves_start_thread|]. intros t.
    apply preserves_bind.
    { apply preserves_modify. intros s. apply P_with_threads. }
    intros _.
    apply preserves_bind; [apply preserves_time_sleep | intros _; exact IH].
Qed.

Lemma preserves_monitor E fuel : preserves P (monitor E fuel).
Proof.
  induction fuel as [|fuel IH]; simpl.
  - apply preserves_ret.
  - apply preserves_bind; [apply preserves_gets|]. intros r.
    apply preserves_if; [|apply preserves_ret].
    apply preserves_bind; [apply preserves_time_sleep | intros _; exact IH].
Qed.

Lemma preserves__run_mode_forever E fuel :
  preserves P (_run_mode_forever E fuel).
Proof.
  unfold _run_mode_forever, _run_concurrent_forever.
  apply preserves_bind; [|intros _; apply preserves_monitor].
  apply preserves_bind; [apply preserves_gets|]. intros a.
  apply preserves_start_workers.
Qed.

Lemma preserves_pipeline_attempt E :
  preserves P (pipeline_attempt E (_run_pipeline_once E)).
Proof.
  unfold pipeline_attempt. apply preserves_try_except.
  - apply preserves_bind; [apply preserves_py_time|]. intros t0.
    apply preserves_bind; [apply preserves__run_pipeline_once|]. intros res.
    apply preserves_bind; [apply preserves_modify, P_count_cycle|]. intros _.
    apply preserves_bind; [apply preserves_py_time|]. intros t1.
    apply preserves_bind; [apply preserves_gets|]. intros b.
    apply preserves_if; [|apply preserves_ret].
    apply preserves_bind; [apply preserves_gets|].
    intros; apply preserves_time_sleep.
  - intros e. apply preserves_time_sleep.
Qed.

Lemma preserves__run_mode_pipeline E fuel :
  preserves P (_run_mode_pipeline E fuel).
Proof.
  unfold _run_mode_pipeline. induction fuel as [|fuel IH]; simpl.
  - apply preserves_ret.
  - apply preserves_bind; [apply preserves_gets|]. intros r.
    apply preserves_if; [|apply preserves_ret].
    apply preserves_bind; [apply preserves_pipeline_attempt|].
    intros _; exact IH.
Qed.

Lemma preserves_join_threads E items : preserves P (join_threads E items).
Proof.
  induction items as [|[k t] items IH]; simpl; [apply preserves_ret|].
  apply preserves_bind; [apply preserves_thread_is_alive|]. intros alive.
  apply preserves_bind; [|intros _; exact IH].
  apply preserves_if; [|apply preserves_ret].
  apply preserves_on_world. apply P_join.
Qed.

Lemma preserves_stop E : preserves P (stop E).
Proof.
  unfold stop. apply preserves_bind; [apply preserves_gets|]. intros r.
  apply preserves_if; [apply preserves_ret|].
  apply preserves_bind; [apply preserves_modify, P_with_running|]. intros _.
  apply preserves_bind; [apply preserves_gets|]. intros ts.
  apply preserves_bind; [apply preserves_join_threads|]. intros _.
  unfold _print_final_summary.
  apply preserves_bind; [apply preserves_gets|].
  intros [t|]; [|apply preserves_ret].
  apply preserves_bind; [apply preserves_now_isoformat|].
  intros _. apply preserves_ret.
Qed.

Lemma preserves_run E fuel : preserves P (run E fuel).
Proof.
  unfold run. apply preserves_try_finally; [|apply preserves_stop].
  apply preserves_try_except; [|intros; apply preserves_ret].
  apply preserves_bind; [apply preserves__load_all_agents|]. intros ok.
  apply preserves_if; [apply preserves_ret|].
  apply preserves_bind; [apply preserves_gets|]. intros a.
  apply preserves_if; [apply preserves_ret|].
  apply preserves_bind; [apply preserves_modify, P_with_running|]. intros _.
  apply preserves_bind; [apply preserves_now_isoformat|]. intros t.
  apply preserves_bind; [apply preserves_modify, P_set_start_time|]. intros _.
  apply preserves_bind; [apply preserves_gets|]. intros m.
  apply preserves_if.
  { unfold _run_mode_once.
    apply preserves_bind; [apply preserves__run_pipeline_once|].
    intros; apply preserves_ret. }
  apply preserves_if; [apply preserves__run_mode_pipeline|].
  apply preserves_if; [apply preserves__run_mode_forever | apply preserves_ret].
Qed.

Lemma preserves_restart_agent E agent_name :
  preserves P (restart_agent E agent_name).
Proof.
  unfold restart_agent. apply preserves_bind; [apply preserves_gets|].
  intros m. apply preserves_if; [apply preserves_ret|].
  apply preserves_bind; [apply preserves_gets|].
  intros [key|]; [|apply preserves_ret].
  apply preserves_if; [apply preserves_ret|].
  apply preserves_try_except; [|intros; apply preserves_ret].
  apply preserves_bind; [apply preserves_gets|]. intros ts.
  apply preserves_bind.
  { destruct (Dict.get ts key) as [t|]; [|apply preserves_ret].
    apply preserves_bind; [apply preserves_thread_is_alive|]. intros alive.
    apply preserves_if; [|apply preserves_ret].
    apply preserves_on_world. apply P_join. }
  intros _. apply preserves_bind; [apply preserves_gets|]. intros a.
  destruct (Dict.get a key) as [ad|]; [|apply preserves_raise].
  apply preserves_bind; [apply preserves_gets|]. intros cfg.
  apply preserves_bind; [apply preserves_start_thread|]. intros t.
  apply preserves_bind; [|intros; apply preserves_ret].
  apply preserves_modify. intros s. apply P_with_threads.
Qed.
End Preserves.

(** ** [run] and [stop] *)

(** What [stop] does once [self.running] is cleared. *)
Definition stop_rest (E : env) : M unit :=
  (ts <- gets threads ;;
   join_threads E ts ;;
   _print_final_summary E)%py.

Lemma stop_eq E s :
  stop E s =
  if running (self s)
  then stop_rest E {| self := with_running false (self s);
                      outside := outside s |}
  else (Ok tt, s).
Proof.
  unfold stop, bind at 1, gets at 1. simpl.
  destruct (running (self s)); reflexivity.
Qed.

Lemma returns_stop_rest E : returns (stop_rest E).
Proof.
  unfold stop_rest. apply returns_bind; [apply returns_gets|]. intros ts.
  apply returns_bind; [apply returns_join_threads|]. intros _.
  unfold _print_final_summary.
  apply returns_bind; [apply returns_gets|]. intros [t|]; [|apply returns_ret].
  apply returns_bind; [apply returns_now_isoformat|].
  intros _. apply returns_ret.
Qed.

Lemma preserves_stop_rest E (P : state -> Prop) :
  (forall s, P s -> P {| self := self s; outside := tick (outside s) |}) ->
  (forall t secs s,
      P s -> P {| self := self s; outside := log_join t secs (outside s) |}) ->
  preserves P (stop_rest E).
Proof.
  intros Htick Hjoin. unfold stop_rest.
  apply preserves_bind; [apply preserves_gets|]. intros ts.
  apply preserves_bind; [now apply preserves_join_threads|]. intros _.
  unfold _print_final_summary.
  apply preserves_bind; [apply preserves_gets|].
  intros [t|]; [|apply preserves_ret].
  apply preserves_bind; [now apply preserves_now_isoformat|].
  intros _. apply preserves_ret.
Qed.

(** [stop] only clears [self.running]; outside it joins threads and reads
    the clock. *)
Lemma stop_spec E s :
  exists w,
    stop E s =
      (Ok tt, {| self := with_running false (self s); outside := w |}) /\
    calls w = calls (outside s) /\ sleeps w = sleeps (outside s) /\
    objects w = objects (outside s).
Proof.
  rewrite stop_eq. destruct (running (self s)) eqn:Hr.
  - set (s1 := {| self := with_running false (self s); outside := outside s |}).
    destruct (returns_stop_rest E s1) as ([] & s2 & Heq).
    assert (HP : self s2 = self s1 /\ calls (outside s2) = calls (outside s1)
                 /\ sleeps (outside s2) = sleeps (outside s1)
                 /\ objects (outside s2) = objects (outside s1)).
    { eapply (preserves_stop_rest E
               (fun st => self st = self s1 /\
                          calls (outside st) = calls (outside s1) /\
                          sleeps (outside st) = sleeps (outside s1) /\
                          objects (outside st) = objects (outside s1)));
        [| | |exact Heq]; simpl; auto. }
    exists (outside s2). rewrite Heq. destruct HP as (Hself & HP).
    split; [|exact HP]. destruct s2 as [r2 w2]. simpl in *. now rewrite Hself.
  - exists (outside s). split; [|auto].
    destruct s as [[] w]. simpl in *. now subst.
Qed.

(** The branch of [run] on [self.mode]. *)
Definition run_mode (E : env) (fuel : nat) (m : string) : M unit :=
  if (m =? "run_once")%string then _run_mode_once E
  else if (m =? "pipeline")%string then _run_mode_pipeline E fuel
  else if (m =? "run_forever")%string then _run_mode_forever E fuel
  else ret tt.

(** [run] after a complete load that left an agent: the mode runs from the
    state with [running] set and the start time recorded, and [stop] runs
    from wherever the mode ended, returned or raised. *)
Lemma run_loaded E fuel s s1 :
  _load_all_agents E s = (Ok true, s1) ->
  Dict.is_empty (agents (self s1)) = false ->
  run E fuel s =
  (let s2 := {| self :=
                  set_start_time (isoformat E (clock (outside s1)))
                    (with_running true (self s1));
                outside := tick (outside s1) |} in
   let (_, s3) := run_mode E fuel (mode (self s1)) s2 in
   match stop E s3 with
   | (Ok _, s4) => (Ok tt, s4)
   | (Exc e, s4) => (Exc e, s4)
   end).
Proof.
  intros Hload Hne.
  unfold run, try_finally, try_except. unfold bind at 1. rewrite Hload.
  cbn [negb]. unfold bind at 1, gets at 1. cbn [self]. rewrite Hne.
  unfold bind at 1, modify at 1.
  unfold bind at 1, now_isoformat, bind at 1, read_world at 1.
  unfold bind at 1, on_world at 1, ret at 1.
  unfold bind at 1, modify at 1.
  unfold bind at 1, gets at 1.
  cbn [self outside mode set_start_time with_running with_self_stats].
  unfold run_mode.
  match goal with
  | |- (let (_, _) := match ?m ?st with _ => _ end in _) = _ =>
      destruct (m st) as [[[]|e] s3]
  end; reflexivity.
Qed.

(** X8.  No exception leaves [run], in any mode and whatever the agents
    do, and [stop] has run when it ends: with the loop of the mode left
    after [fuel] iterations (the loops have no exit of their own while
    [self.running] holds), [run] returns with [self.running] cleared.  It
    never edits the registry ([agent_configs], flags included) or the
    configuration, it never removes an entry of the error log, and it
    never decreases the cycle counter. *)
Theorem X8_run_returns_stopped :
  forall (E : env) (fuel : nat) (s : state),
    exists s',
      run E fuel s = (Ok tt, s') /\
      running (self s') = false /\
      agent_configs (self s') = agent_configs (self s) /\
      mode (self s') = mode (self s) /\
      global_interval (self s') = global_interval (self s) /\
      pipeline_delay (self s') = pipeline_delay (self s) /\
      (exists new,
          error_log (self_stats (self s'))
          = error_log (self_stats (self s)) ++ new) /\
      total_cycles (self_stats (self s))
      <= total_cycles (self_stats (self s')).
Proof.
  intros E fuel s.
  assert (Hret : exists s', run E fuel s = (Ok tt, s') /\
                            running (self s') = false).
  { unfold run, try_finally.
    match goal with
    | |- context [try_except ?m ?h s] =>
        destruct (returns_try_except m h (fun e => returns_ret tt) s)
          as ([] & s1 & ->)
    end.
    destruct (stop_spec E s1) as (w & -> & _). eexists. split; reflexivity. }
  destruct Hret as (s' & Heq & Hrun). exists s'.
  split; [exact Heq|]. split; [exact Hrun|].
  pose (P := fun st : state =>
    agent_configs (self st) = agent_configs (self s) /\
    mode (self st) = mode (self s) /\
    global_interval (self st) = global_interval (self s) /\
    pipeline_delay (self st) = pipeline_delay (self s) /\
    (exists new,
        error_log (self_stats (self st))
        = error_log (self_stats (self s)) ++ new) /\
    total_cycles (self_stats (self s)) <= total_cycles (self_stats (self st))).
  assert (HP : P s').
  { eapply (preserves_run P); [..|exact Heq]; unfold P; simpl; auto.
    - intros key f st H. unfold update_stats.
      destruct (Dict.get (agents (self st)) key); exact H.
    - intros entry st (H1 & H2 & H3 & H4 & (new & H5) & H6).
      repeat (split; [assumption|]). split; [|assumption].
      exists (new ++ [entry]). rewrite H5. now rewrite app_assoc.
    - intros st (H1 & H2 & H3 & H4 & H5 & H6).
      repeat (split; [assumption|]). lia.
    - repeat split; auto; [exists []; now rewrite app_nil_r | lia]. }
  exact HP.
Qed.

Lemma load_configs_all_disabled E cs : forall ix sc tc s,
  (forall c, In c cs -> enabled c = false) ->
  load_configs E cs ix sc tc s = (Ok (sc =? tc), s).
Proof.
  induction cs as [|c cs IH]; intros ix sc tc s H; simpl.
  - reflexivity.
  - rewrite (H c) by (now left). simpl. apply IH.
    intros c' Hc'. apply H. now right.
Qed.

(** X9.  With no enabled descriptor and nothing loaded, [run] does nothing
    at all: the load is vacuously complete, [self.agents] is empty, and
    [run] returns with the state exactly as it was; no mode is entered. *)
Theorem X9_run_with_nothing_enabled :
  forall (E : env) (fuel : nat) (s : state),
    (forall c, In c (agent_configs (self s)) -> enabled c = false) ->
    agents (self s) = Dict.empty ->
    running (self s) = false ->
    _load_all_agents E s = (Ok true, s) /\
    run E fuel s = (Ok tt, s).
Proof.
  intros E fuel s Hdis Hempty Hrun.
  assert (Hload : _load_all_agents E s = (Ok true, s)).
  { unfold _load_all_agents, bind, gets. simpl.
    now rewrite load_configs_all_disabled. }
  split; [exact Hload|].
  unfold run, try_finally, try_except. unfold bind at 1. rewrite Hload.
  cbn [negb]. unfold bind at 1, gets at 1. cbn [self]. rewrite Hempty.
  simpl. now rewrite stop_not_running.
Qed.

(** The runner after every descriptor was disabled. *)
Definition all_disabled : state :=
  {| self := with_agent_configs (map (set_enabled false) static_registry)
               (init None None None None);
     outside := new_world |}.

Lemma X9_run_with_nothing_enabled_witness :
  ((forall c, In c (agent_configs (self all_disabled)) -> enabled c = false) /\
   agents (self all_disabled) = Dict.empty /\
   running (self all_disabled) = false) /\
  run env_all_ok 3 all_disabled = (Ok tt, all_disabled).
Proof.
  assert (H : forall c, In c (agent_configs (self all_disabled)) ->
                        enabled c = false).
  { simpl. intros c Hc.
    repeat (destruct Hc as [<-|Hc]; [reflexivity|]). contradiction. }
  split; [repeat split; assumption|].
  exact (proj2 (X9_run_with_nothing_enabled env_all_ok 3 all_disabled
                  H eq_refl eq_refl)).
Defined.

(** A complete load that loads at least one agent. *)
Lemma load_complete E s :
  (forall c, In c (agent_configs (self s)) -> enabled c = true ->
             loads E c = true) ->
  (exists c, In c (agent_configs (self s)) /\ enabled c = true) ->
  exists s1,
    _load_all_agents E s = (Ok true, s1) /\
    loader_frame s s1 /\
    Dict.is_empty (agents (self s1)) = false.
Proof.
  intros Hall (c & Hc & Hen).
  destruct (_load_all_agents_spec E s) as (s1 & Heq & Hf & _ & Hin).
  rewrite (count_loaded_all E _ Hall), Z.eqb_refl in Heq.
  exists s1. split; [exact Heq|]. split; [exact Hf|].
  specialize (Hin c Hc Hen (Hall c Hc Hen)).
  destruct (agents (self s1)); [discriminate Hin | reflexivity].
Qed.



(** X11.  An unknown run mode.  When [self.mode] is none of ["run_once"],
    ["pipeline"] and ["run_forever"], [run] still loads the agents and
    records the start time, but then runs nothing: no [run_once] is
    called, no thread is started, nothing is slept, the stats of the
    loaded agents stay as the loader left them, and the runner stops. *)
Theorem X11_unknown_mode_runs_nothing :
  forall (E : env) (fuel : nat) (s : state),
    mode (self s) <> "run_once" -> mode (self s) <> "pipeline" ->
    mode (self s) <> "run_forever" ->
    (forall c, In c (agent_configs (self s)) -> enabled c = true ->
               loads E c = true) ->
    (exists c, In c (agent_configs (self s)) /\ enabled c = true) ->
    exists s1 s',
      _load_all_agents E s = (Ok true, s1) /\
      run E fuel s = (Ok tt, s') /\
      agents (self s') = agents (self s1) /\
      calls (outside s') = calls (outside s) /\
      sleeps (outside s') = sleeps (outside s) /\
      threads (self s') = threads (self s) /\
      total_cycles (self_stats (self s')) = total_cycles (self_stats (self s)) /\
      error_log (self_stats (self s')) = error_log (self_stats (self s)) /\
      start_time (self_stats (self s')) =
        Some (isoformat E (clock (outside s))) /\
      running (self s') = false.
Proof.
  intros E fuel s H1 H2 H3 Hall Hsome.
  destruct (load_complete E s Hall Hsome) as (s1 & Hload & Hf & Hne).
  exists s1. rewrite (run_loaded E fuel s s1 Hload Hne).
  rewrite (lf_mode _ _ Hf). cbv zeta. unfold run_mode.
  destruct (String.eqb_spec (mode (self s)) "run_once"); [contradiction|].
  destruct (String.eqb_spec (mode (self s)) "pipeline"); [contradiction|].
  destruct (String.eqb_spec (mode (self s)) "run_forever"); [contradiction|].
  unfold ret.
  match goal with
  | |- context [stop E ?st] => destruct (stop_spec E st) as (w & -> & Hc & Hsl & _)
  end.
  eexists. split; [exact Hload|]. split; [reflexivity|]. simpl.
  rewrite Hc, Hsl. simpl.
  rewrite (lf_calls _ _ Hf), (lf_sleeps _ _ Hf), (lf_threads _ _ Hf),
    (lf_stats _ _ Hf), (lf_clock _ _ Hf).
  repeat split; reflexivity.
Qed.

Lemma X11_unknown_mode_runs_nothing_witness :
  (mode (self (fresh "once")) <> "run_once" /\
   mode (self (fresh "once")) <> "pipeline" /\
   mode (self (fresh "once")) <> "run_forever" /\
   (forall c, In c (agent_configs (self (fresh "once"))) ->
              enabled c = true -> loads env_all_ok c = true) /\
   (exists c, In c (agent_configs (self (fresh "once"))) /\
              enabled c = true)) /\
  exists s',
    run env_all_ok 1 (fresh "once") = (Ok tt, s') /\
    calls (outside s') = [] /\
    Dict.keys (agents (self s')) = map module static_registry.
Proof.
  assert (H1 : forall c, In c (agent_configs (self (fresh "once"))) ->
                         enabled c = true -> loads env_all_ok c = true).
  { simpl. intros c Hc _.
    repeat (destruct Hc as [<-|Hc]; [reflexivity|]). contradiction. }
  assert (H2 : exists c, In c (agent_configs (self (fresh "once"))) /\
                         enabled c = true).
  { exists hotspot_agent. split; [left|]; reflexivity. }
  assert (Ha : mode (self (fresh "once")) <> "run_once") by discriminate.
  assert (Hb : mode (self (fresh "once")) <> "pipeline") by discriminate.
  assert (Hc : mode (self (fresh "once")) <> "run_forever") by discriminate.
  split; [repeat split; assumption|].
  destruct (X11_unknown_mode_runs_nothing env_all_ok 1 (fresh "once")
              Ha Hb Hc H1 H2)
    as (s1 & s' & Hload & Hrun & Hag & Hcalls & _).
  exists s'. split; [exact Hrun|]. split; [exact Hcalls|].
  rewrite Hag. vm_compute in Hload. injection Hload as <-. reflexivity.
Defined.

(** ** The cycles of the pipeline mode *)













(** ** The threads of the concurrent mode *)

Lemma keys_set_NoDup {V} (d : Dict.t V) k v :
  NoDup (Dict.keys d) -> NoDup (Dict.keys (Dict.set d k v)).
Proof.
  intros H. destruct (in_dec string_dec k (Dict.keys d)) as [Hin|Hout].
  - now rewrite DictFacts.keys_set_present.
  - induction d as [|[k0 v0] d IH]; simpl in *.
    + constructor; [tauto | constructor].
    + destruct (String.eqb_spec k0 k) as [->|Hk]; [tauto|]. simpl.
      inversion H as [|? ? Hk0 Hd]; subst.
      assert (IH' := IH Hd (fun Hin => Hout (or_intror Hin))).
      constructor; [|exact IH'].
      intros Hin. apply Hk0.
      clear - Hin Hk. induction d as [|[k1 v1] d IHd]; simpl in *.
      * destruct Hin as [?|[]]. congruence.
      * destruct (String.eqb_spec k1 k) as [->|Hk1]; simpl in *; [exact Hin|].
        destruct Hin as [?|Hin]; [now left | right; now apply IHd].
Qed.

(** The loop that starts the workers: the [i]-th item of [items] gets a
    new daemon thread, stored under the key of the item after those of
    the items before it; one second is slept after each start. *)
Lemma start_workers_spec E items : forall s,
  NoDup (map fst items) ->
  exists ts w,
    start_workers E items s =
      (Ok tt, {| self := with_threads ts (self s); outside := w |}) /\
    (forall i k ad,
        nth_error items i = Some (k, ad) ->
        Dict.get ts k =
        Some {| thread_id := objects (outside s) + i;
                thread_name := name (config_of (self s) ad);
                thread_target := instance ad;
                daemon := true |}) /\
    (forall k, ~ In k (map fst items) ->
               Dict.get ts k = Dict.get (threads (self s)) k) /\
    w = {| clock := clock (outside s);
           calls := calls (outside s);
           sleeps := sleeps (outside s) ++ repeat 1 (List.length items);
           joins := joins (outside s);
           objects := objects (outside s) + List.length items |}.
Proof.
  induction items as [|[k0 ad0] items IH]; intros s Hnd.
  - exists (threads (self s)), (outside s). simpl.
    split; [destruct s as [[] ?]; reflexivity|].
    split; [intros [|i] k ad; discriminate|].
    split; [reflexivity|].
    rewrite app_nil_r, Nat.add_0_r. now destruct (outside s).
  - inversion Hnd as [|? ? Hk0 Hnd']; subst.
    set (t0 := {| thread_id := objects (outside s);
                  thread_name := name (config_of (self s) ad0);
                  thread_target := instance ad0;
                  daemon := true |}).
    set (s1 := {| self := with_threads (Dict.set (threads (self s)) k0 t0)
                            (self s);
                  outside := log_sleep 1 (allocate (outside s)) |}).
    destruct (IH s1 Hnd') as (ts & w & Heq & Hnew & Hold & Hw).
    exists ts, w. split; [|split; [|split]].
    + change (start_workers E ((k0, ad0) :: items) s)
        with (start_workers E items s1).
      rewrite Heq. reflexivity.
    + intros [|i] k ad Hnth; simpl in Hnth.
      * injection Hnth as <- <-. rewrite (Hold k0 Hk0). unfold s1. simpl.
        rewrite DictFacts.get_set_same, Nat.add_0_r. reflexivity.
      * rewrite (Hnew i k ad Hnth). unfold s1. simpl.
        unfold config_of. simpl. do 2 f_equal. lia.
    + intros k Hk. simpl in Hk.
      rewrite (Hold k (fun Hin => Hk (or_intror Hin))). unfold s1. simpl.
      apply DictFacts.get_set_other. intros ->. apply Hk. now left.
    + rewrite Hw. unfold s1. simpl. rewrite <- app_assoc. simpl.
      f_equal. lia.
Qed.

Lemma get_nth_error {V} (d : Dict.t V) k v :
  Dict.get d k = Some v -> exists i, nth_error d i = Some (k, v).
Proof.
  induction d as [|[k0 v0] d IH]; simpl.
  - discriminate.
  - destruct (String.eqb_spec k0 k) as [->|Hk].
    + intros [= ->]. now exists 0%nat.
    + intros H. destruct (IH H) as (i & Hi). now exists (S i).
Qed.

(** X13.  [_run_concurrent_forever] starts one daemon thread for every
    loaded agent, whether its descriptor is enabled or not: under the key
    of the agent, [self.threads] holds a new thread of its own, named
    after the descriptor of the agent and targeting its instance.  Threads
    under other keys stay; one second is slept after each start; no
    [run_once] is called by the runner itself, and nothing else of the
    runner changes. *)
Theorem X13_concurrent_mode_starts_a_thread_per_agent :
  forall (E : env) (s : state),
    NoDup (Dict.keys (agents (self s))) ->
    exists ts w,
      _run_concurrent_forever E s =
        (Ok tt, {| self := with_threads ts (self s); outside := w |}) /\
      (forall k ad,
          Dict.get (agents (self s)) k = Some ad ->
          exists t,
            Dict.get ts k = Some t /\
            thread_name t = name (config_of (self s) ad) /\
            thread_target t = instance ad /\
            daemon t = true /\
            (objects (outside s) <= thread_id t < objects w)%nat) /\
      (forall k1 k2 t1 t2,
          Dict.mem (agents (self s)) k1 = true ->
          Dict.mem (agents (self s)) k2 = true ->
          Dict.get ts k1 = Some t1 -> Dict.get ts k2 = Some t2 ->
          thread_id t1 = thread_id t2 -> k1 = k2) /\
      (forall k, Dict.mem (agents (self s)) k = false ->
                 Dict.get ts k = Dict.get (threads (self s)) k) /\
      calls w = calls (outside s) /\
      sleeps w = sleeps (outside s)
                 ++ repeat 1 (List.length (agents (self s))).
Proof.
  intros E s Hnd. unfold _run_concurrent_forever, bind, gets. simpl.
  destruct (start_workers_spec E (agents (self s)) s Hnd)
    as (ts & w & Heq & Hnew & Hold & Hw).
  assert (Hix := get_nth_error (agents (self s))).
  assert (Hnth : forall i j k1 k2 (a1 a2 : agent_data),
             nth_error (agents (self s)) i = Some (k1, a1) ->
             nth_error (agents (self s)) j = Some (k2, a2) ->
             i = j -> k1 = k2).
  { intros i j k1 k2 a1 a2 H1 H2 <-. congruence. }
  exists ts, w. split; [exact Heq|]. split; [|split; [|split]].
  - intros k ad Hget. destruct (Hix k ad Hget) as (i & Hi).
    eexists. split; [apply (Hnew i k ad Hi)|]. simpl.
    repeat split; try lia.
    rewrite Hw. simpl.
    assert (i < List.length (agents (self s)))%nat; [|lia].
    apply nth_error_Some. now rewrite Hi.
  - intros k1 k2 t1 t2 Hm1 Hm2 Hg1 Hg2 Hid. unfold Dict.mem in Hm1, Hm2.
    destruct (Dict.get (agents (self s)) k1) as [a1|] eqn:Ha1; [|discriminate].
    destruct (Dict.get (agents (self s)) k2) as [a2|] eqn:Ha2; [|discriminate].
    destruct (Hix k1 a1 Ha1) as (i & Hi). destruct (Hix k2 a2 Ha2) as (j & Hj).
    rewrite (Hnew i k1 a1 Hi) in Hg1. rewrite (Hnew j k2 a2 Hj) in Hg2.
    injection Hg1 as <-. injection Hg2 as <-. simpl in Hid.
    apply (Hnth i j k1 k2 a1 a2 Hi Hj). lia.
  - intros k Hm. apply Hold. intros Hin.
    apply DictFacts.mem_keys in Hin. congruence.
  - rewrite Hw. simpl. auto.
Qed.

Lemma X13_concurrent_mode_starts_a_thread_per_agent_witness :
  NoDup (Dict.keys (agents (self (loaded "run_forever")))) /\
  exists ts w,
    _run_concurrent_forever env_all_ok (loaded "run_forever") =
      (Ok tt, {| self := with_threads ts (self (loaded "run_forever"));
                 outside := w |}) /\
    Dict.keys ts = map module static_registry /\
    sleeps w = [1; 1; 1; 1; 1; 1].
Proof.
  assert (Hnd : NoDup (Dict.keys (agents (self (loaded "run_forever"))))).
  { exact static_registry_modules_distinct. }
  split; [exact Hnd|].
  destruct (X13_concurrent_mode_starts_a_thread_per_agent env_all_ok
              (loaded "run_forever") Hnd)
    as (ts & w & Heq & _ & _ & _ & _ & Hsleeps).
  exists ts, w. split; [exact Heq|]. split; [|exact Hsleeps].
  vm_compute in Heq. injection Heq as <- _. reflexivity.
Defined.

(** ** What [stop] joins *)

(** The threads that [stop] waits for: those alive when it looks. *)
Definition live_threads (E : env) (s : state) : list thread :=
  filter (fun t => is_alive E (thread_id t) (clock (outside s)))
         (map snd (threads (self s))).

Lemma join_threads_spec E items : forall s,
  join_threads E items s =
  (Ok tt,
   {| self := self s;
      outside :=
        {| clock := clock (outside s);
           calls := calls (outside s);
           sleeps := sleeps (outside s);
           joins := joins (outside s) ++
                    map (fun t => (thread_id t, 5))
                        (filter (fun t => is_alive E (thread_id t)
                                            (clock (outside s)))
                                (map snd items));
           objects := objects (outside s) |} |}).
Proof.
  induction items as [|[k t] items IH]; intros s.
  - simpl. rewrite app_nil_r. now destruct s as [? []].
  - simpl. unfold bind at 1. unfold thread_is_alive, bind at 1.
    unfold read_world, ret. simpl.
    destruct (is_alive E (thread_id t) (clock (outside s))).
    + unfold bind at 1. unfold thread_join, on_world. simpl.
      rewrite IH. simpl. now rewrite <- app_assoc.
    + unfold bind at 1. rewrite IH. reflexivity.
Qed.

(** X14.  [stop] always returns and leaves the runner not running.  On a
    running runner it waits, with a timeout of 5 seconds each and in the
    order of [self.threads], for exactly the threads that are alive; on a
    runner that is not running it does nothing at all, whatever threads
    are alive.  So a second [stop] changes nothing.  [stop] never removes
    a thread from [self.threads] nor an agent from [self.agents]. *)
Theorem X14_stop_joins_live_threads_once :
  forall (E : env) (s : state),
    exists s',
      stop E s = (Ok tt, s') /\
      running (self s') = false /\
      stop E s' = (Ok tt, s') /\
      (running (self s) = false -> s' = s) /\
      joins (outside s') =
        joins (outside s) ++
        (if running (self s)
         then map (fun t => (thread_id t, 5)) (live_threads E s)
         else []) /\
      threads (self s') = threads (self s) /\
      agents (self s') = agents (self s) /\
      self_stats (self s') = self_stats (self s) /\
      calls (outside s') = calls (outside s) /\
      sleeps (outside s') = sleeps (outside s).
Proof.
  intros E s. rewrite stop_eq. destruct (running (self s)) eqn:Hr.
  - unfold stop_rest. unfold bind at 1, gets at 1. cbn [self].
    unfold bind at 1. rewrite join_threads_spec.
    unfold _print_final_summary, bind at 1, gets at 1. cbn [self].
    destruct (start_time (self_stats (with_running false (self s))));
      (eexists; split; [reflexivity|]; rewrite stop_eq; simpl;
       repeat split; try reflexivity; discriminate).
  - exists s. rewrite stop_eq, Hr, app_nil_r. repeat split; reflexivity.
Qed.

(** ** The concurrent mode from [run] *)

Lemma load_configs_NoDup E cs : forall ix sc tc s r s',
  NoDup (Dict.keys (agents (self s))) ->
  load_configs E cs ix sc tc s = (r, s') ->
  NoDup (Dict.keys (agents (self s'))).
Proof.
  induction cs as [|c cs IH]; intros ix sc tc s r s' Hnd Heq;
    simpl load_configs in Heq.
  - injection Heq as _ <-. exact Hnd.
  - destruct (enabled c); cbn [negb] in Heq; [|eapply IH; eauto].
    unfold bind at 1 in Heq. rewrite _load_agent_eq in Heq.
    destruct (loads E c); [|eapply IH; eauto].
    unfold bind at 1, modify at 1 in Heq.
    eapply IH; [|exact Heq]. simpl. now apply keys_set_NoDup.
Qed.

(** The monitoring loop of a running runner only sleeps. *)
Lemma monitor_running E fuel : forall s,
  running (self s) = true ->
  monitor E fuel s =
  (Ok tt,
   {| self := self s;
      outside :=
        {| clock := clock (outside s);
           calls := calls (outside s);
           sleeps := sleeps (outside s) ++ repeat 10 fuel;
           joins := joins (outside s);
           objects := objects (outside s) |} |}).
Proof.
  induction fuel as [|fuel IH]; intros s Hrun.
  - simpl. rewrite app_nil_r. now destruct s as [? []].
  - simpl. unfold bind at 1, gets at 1. rewrite Hrun.
    unfold bind at 1. unfold time_sleep, on_world. simpl.
    rewrite IH by exact Hrun. simpl. now rewrite <- app_assoc.
Qed.

(** X15.  The concurrent mode.  When every enabled descriptor loads (and
    there is one), [run] in mode ["run_forever"] starts a thread for every
    loaded agent and then only sleeps, 10 seconds in each of the [fuel]
    rounds of its monitoring loop, before [stop] runs.  The runner itself
    never calls [run_once] and never records
    anything: the entries of [self.agents], with their stats, are exactly
    those that the loader made, and the cycle counter and the error log
    are untouched. *)
Theorem X15_run_forever_mode_only_supervises :
  forall (E : env) (fuel : nat) (s : state),
    mode (self s) = "run_forever" ->
    NoDup (Dict.keys (agents (self s))) ->
    (forall c, In c (agent_configs (self s)) -> enabled c = true ->
               loads E c = true) ->
    (exists c, In c (agent_configs (self s)) /\ enabled c = true) ->
    exists s1 s',
      _load_all_agents E s = (Ok true, s1) /\
      run E fuel s = (Ok tt, s') /\
      agents (self s') = agents (self s1) /\
      (forall k ad,
          Dict.get (agents (self s1)) k = Some ad ->
          exists t, Dict.get (threads (self s')) k = Some t /\
                    thread_target t = instance ad /\ daemon t = true) /\
      calls (outside s') = calls (outside s) /\
      sleeps (outside s') =
        sleeps (outside s)
        ++ repeat 1 (List.length (agents (self s1))) ++ repeat 10 fuel /\
      total_cycles (self_stats (self s')) = total_cycles (self_stats (self s)) /\
      error_log (self_stats (self s')) = error_log (self_stats (self s)) /\
      running (self s') = false.
Proof.
  intros E fuel s Hmode Hnd Hall Hsome.
  destruct (load_complete E s Hall Hsome) as (s1 & Hload & Hf & Hne).
  assert (Hnd1 : NoDup (Dict.keys (agents (self s1)))).
  { unfold _load_all_agents, bind, gets in Hload.
    eapply load_configs_NoDup; [exact Hnd | exact Hload]. }
  exists s1. rewrite (run_loaded E fuel s s1 Hload Hne).
  rewrite (lf_mode _ _ Hf), Hmode. cbv zeta.
  set (s2 := {| self := set_start_time (isoformat E (clock (outside s1)))
                          (with_running true (self s1));
                outside := tick (outside s1) |}).
  unfold run_mode.
  change ("run_forever" =? "run_once")%string with false.
  change ("run_forever" =? "pipeline")%string with false.
  rewrite String.eqb_refl. cbv iota.
  unfold _run_mode_forever. unfold bind at 1.
  unfold _run_concurrent_forever, bind at 1, gets at 1.
  destruct (start_workers_spec E (agents (self s2)) s2 Hnd1)
    as (ts & w & Heq & Hnew & _ & Hw).
  rewrite Heq. rewrite monitor_running by reflexivity.
  match goal with
  | |- context [stop E ?st] =>
      destruct (stop_spec E st) as (w' & -> & Hc & Hsl & _)
  end.
  eexists. split; [exact Hload|]. split; [reflexivity|]. simpl.
  split; [reflexivity|]. split.
  - intros k ad Hget. destruct (get_nth_error _ _ _ Hget) as (i & Hi).
    eexists. split; [apply (Hnew i k ad Hi)|]. simpl. auto.
  - rewrite Hc, Hsl, Hw. simpl.
    rewrite (lf_calls _ _ Hf), (lf_sleeps _ _ Hf), (lf_stats _ _ Hf).
    rewrite <- app_assoc. auto.
Qed.

Lemma X15_run_forever_mode_only_supervises_witness :
  (mode (self (fresh "run_forever")) = "run_forever" /\
   NoDup (Dict.keys (agents (self (fresh "run_forever")))) /\
   (forall c, In c (agent_configs (self (fresh "run_forever"))) ->
              enabled c = true -> loads env_all_ok c = true) /\
   (exists c, In c (agent_configs (self (fresh "run_forever"))) /\
              enabled c = true)) /\
  exists s',
    run env_all_ok 2 (fresh "run_forever") = (Ok tt, s') /\
    calls (outside s') = [] /\
    sleeps (outside s') = [1; 1; 1; 1; 1; 1; 10; 10].
Proof.
  assert (H0 : NoDup (Dict.keys (agents (self (fresh "run_forever")))))
    by constructor.
  assert (H1 : forall c, In c (agent_configs (self (fresh "run_forever"))) ->
                         enabled c = true -> loads env_all_ok c = true).
  { simpl. intros c Hc _.
    repeat (destruct Hc as [<-|Hc]; [reflexivity|]). contradiction. }
  assert (H2 : exists c, In c (agent_configs (self (fresh "run_forever"))) /\
                         enabled c = true).
  { exists hotspot_agent. split; [left|]; reflexivity. }
  split; [repeat split; assumption|].
  destruct (X15_run_forever_mode_only_supervises env_all_ok 2
              (fresh "run_forever") eq_refl H0 H1 H2)
    as (s1 & s' & Hload & Hrun & _ & _ & Hcalls & Hsleeps & _).
  exists s'. split; [exact Hrun|]. split; [exact Hcalls|].
  rewrite Hsleeps. vm_compute in Hload. injection Hload as <-. reflexivity.
Defined.

(** ** The report of [get_status] *)

Lemma keys_set_absent {V} (d : Dict.t V) k v :
  ~ In k (Dict.keys d) -> Dict.keys (Dict.set d k v) = Dict.keys d ++ [k].
Proof.
  induction d as [|[k0 v0] d IH]; simpl; intros H; [reflexivity|].
  destruct (String.eqb_spec k0 k) as [->|Hk]; [tauto|]. simpl.
  rewrite IH; [reflexivity | tauto].
Qed.

(** A dictionary filled by assignments under distinct new keys. *)
Lemma fold_set_distinct {A V} (nm : A -> string) (f : A -> V) items :
  forall acc : Dict.t V,
    NoDup (Dict.keys acc ++ map nm items) ->
    let res := fold_left (fun d p => Dict.set d (nm p) (f p)) items acc in
    Dict.keys res = Dict.keys acc ++ map nm items /\
    (forall n, In n (Dict.keys acc) -> Dict.get res n = Dict.get acc n) /\
    (forall p, In p items -> Dict.get res (nm p) = Some (f p)).
Proof.
  induction items as [|p items IH]; intros acc Hnd; simpl.
  - rewrite app_nil_r. repeat split; tauto.
  - assert (Hp : ~ In (nm p) (Dict.keys acc)).
    { intros Hin. apply NoDup_remove_2 in Hnd. apply Hnd.
      apply in_or_app. now left. }
    assert (Hnd' : NoDup (Dict.keys (Dict.set acc (nm p) (f p))
                          ++ map nm items)).
    { rewrite keys_set_absent by exact Hp. rewrite <- app_assoc. exact Hnd. }
    destruct (IH _ Hnd') as (Hkeys & Hacc & Hitems).
    rewrite keys_set_absent in Hkeys, Hacc by exact Hp.
    split; [rewrite Hkeys, <- app_assoc; reflexivity|]. split.
    + intros n Hn. rewrite Hacc by (apply in_or_app; now left).
      apply DictFacts.get_set_other. intros <-. contradiction.
    + intros q [<-|Hq]; [|now apply Hitems].
      rewrite Hacc by (apply in_or_app; right; now left).
      apply DictFacts.get_set_same.
Qed.

(** The name under which [get_status] reports an agent. *)
Definition report_name (r : runner) (p : string * agent_data) : string :=
  name (config_of r (snd p)).

(** The report of [get_status] on the agent [ad] stored under [k]. *)
Definition report_of (E : env) (s : state) (p : string * agent_data)
    : agent_status :=
  let cfg := config_of (self s) (snd p) in
  {| status_enabled := enabled cfg;
     status_priority := priority cfg;
     status_thread_alive :=
       match Dict.get (threads (self s)) (fst p) with
       | Some t => is_alive E (thread_id t) (clock (outside s))
       | None => false
       end;
     status_runs := runs (stats (snd p));
     status_successes := successes (stats (snd p));
     status_errors := errors (stats (snd p));
     status_last_run := last_run (stats (snd p));
     status_last_result := last_result (stats (snd p)) |}.

Lemma agent_statuses_eq E s items : forall acc,
  agent_statuses E items acc s =
  (Ok (fold_left (fun d p => Dict.set d (report_name (self s) p)
                               (report_of E s p)) items acc), s).
Proof.
  induction items as [|[k ad] items IH]; intros acc; simpl.
  - reflexivity.
  - unfold bind at 1, gets at 1. unfold bind at 1, gets at 1.
    unfold bind at 1.
    destruct (Dict.get (threads (self s)) k) as [t|] eqn:Ht.
    + unfold thread_is_alive, bind at 1, read_world, ret.
      rewrite IH. unfold report_of, report_name. simpl. now rewrite Ht.
    + unfold ret at 1. rewrite IH. unfold report_of, report_name. simpl.
      now rewrite Ht.
Qed.

(** X16.  [get_status] reads and never writes: it returns, with the state
    as it was.  When the loaded agents have distinct display names, the
    report has one entry for each of them, in the order of [self.agents],
    under the display name: the [enabled] flag and the priority are those
    of the descriptor now, the counters those of the stats of the agent,
    and [thread_alive] is [False] for an agent without a thread. *)
Theorem X16_get_status_reports_every_agent :
  forall (E : env) (s : state),
    NoDup (map (report_name (self s)) (agents (self s))) ->
    exists st,
      get_status E s = (Ok st, s) /\
      status_running st = running (self s) /\
      status_mode st = mode (self s) /\
      status_start_time st = start_time (self_stats (self s)) /\
      status_total_cycles st = total_cycles (self_stats (self s)) /\
      Dict.keys (status_agents st)
      = map (report_name (self s)) (agents (self s)) /\
      (forall k ad,
          In (k, ad) (agents (self s)) ->
          Dict.get (status_agents st) (name (config_of (self s) ad))
          = Some (report_of E s (k, ad))) /\
      (forall k ad,
          In (k, ad) (agents (self s)) ->
          Dict.get (threads (self s)) k = None ->
          status_thread_alive (report_of E s (k, ad)) = false).
Proof.
  intros E s Hnd. unfold get_status, bind at 1, gets at 1. cbn [self].
  unfold bind at 1. rewrite agent_statuses_eq. unfold ret.
  eexists. split; [reflexivity|]. simpl.
  destruct (fold_set_distinct (report_name (self s)) (report_of E s)
              (agents (self s)) Dict.empty Hnd) as (Hkeys & _ & Hitems).
  repeat split; try assumption.
  - intros k ad Hin. apply (Hitems (k, ad) Hin).
  - intros k ad _ Hnone. unfold report_of. simpl. now rewrite Hnone.
Qed.

Lemma X16_get_status_reports_every_agent_witness :
  NoDup (map (report_name (self (loaded "pipeline")))
             (agents (self (loaded "pipeline")))) /\
  exists st,
    get_status env_all_ok (loaded "pipeline") = (Ok st, loaded "pipeline") /\
    Dict.keys (status_agents st) = map name static_registry /\
    option_map status_thread_alive (Dict.get (status_agents st) "热点抓取")
    = Some false.
Proof.
  assert (Hnd : NoDup (map (report_name (self (loaded "pipeline")))
                           (agents (self (loaded "pipeline"))))).
  { vm_compute. repeat constructor; simpl; intuition discriminate. }
  split; [exact Hnd|].
  destruct (X16_get_status_reports_every_agent env_all_ok (loaded "pipeline")
              Hnd) as (st & Heq & _ & _ & _ & _ & Hkeys & Hget & _).
  exists st. split; [exact Heq|]. split; [rewrite Hkeys; reflexivity|].
  assert (Hin : In ("agents.hotspot_agent",
                    {| instance := 0; config_ref := 0; stats := new_stats |})
                   (agents (self (loaded "pipeline"))))
    by (left; reflexivity).
  apply Hget in Hin. vm_compute in Hin |- *. rewrite Hin. reflexivity.
Defined.

(** * The workers of the concurrent mode

    The target of a thread of [_run_concurrent_forever] is the closure
    [agent_worker], which calls [BaseAgent.run_forever] of the instance
    ([src/agents/base_agent.py]; no agent class overrides it, nor
    [_handle_error]).  [key] is the key of the agent, under which the
    calls of its [run_once] are recorded; [interval] is [self.interval]
    of the instance. *)











(** * The constructor of an agent

    [agent_class()] in [_load_agent] runs [BaseAgent.__init__]
    ([src/agents/base_agent.py]) before anything else of the constructor
    of the agent class. *)

Module BaseAgent.

(** The clients that the constructor makes. *)
Inductive client :=
| ESClient (es_host : string)
| GLMClient (api_key : string).

(** The object under construction: the attributes assigned by [setattr]
    are in [attrs]; an attribute that is not assigned yet is [None]. *)
Record agent := mkAgent {
  agent_name : option string;
  attrs : Dict.t string;
  es : option string;
  llm : option string;
  interval : option Z;
  max_batch_size : option Z
}.

(** [self] and the constructors called so far. *)
Record st := mkSt {
  self : agent;
  made : list client
}.

(** What the constructor does not decide: whether the constructor of a
    client raises, and [int] of a string. *)
Record externals := mkExternals {
  connect_es : string -> outcome unit;
  connect_glm : string -> outcome unit;
  int_of_str : string -> outcome Z
}.

Definition I (A : Type) : Type := st -> result A * st.

Definition ret {A} (a : A) : I A := fun s => (Ok a, s).

Definition bind {A B} (m : I A) (k : A -> I B) : I B :=
  fun s =>
    match m s with
    | (Ok a, s') => k a s'
    | (Exc e, s') => (Exc e, s')
    end.

Definition raise {A} (e : exn) : I A := fun s => (Exc e, s).

Definition try_except {A} (m : I A) (h : exn -> I A) : I A :=
  fun s =>
    match m s with
    | (Ok a, s') => (Ok a, s')
    | (Exc e, s') => h e s'
    end.

Declare Scope agent_scope.
Delimit Scope agent_scope with agent.
Notation "x <- m ;; k" := (bind m (fun x => k))
  (at level 61, m at next level, right associativity) : agent_scope.
Notation "m ;; k" := (bind m (fun _ => k))
  (at level 61, right associativity) : agent_scope.
Local Open Scope agent_scope.

Definition assign (f : agent -> agent) : I unit :=
  fun s => (Ok tt, {| self := f (self s); made := made s |}).

Definition set_agent_name (v : string) (a : agent) : agent :=
  {| agent_name := Some v; attrs := attrs a; es := es a; llm := llm a;
     interval := interval a; max_batch_size := max_batch_size a |}.

Definition setattr (k v : string) (a : agent) : agent :=
  {| agent_name := agent_name a; attrs := Dict.set (attrs a) k v;
     es := es a; llm := llm a;
     interval := interval a; max_batch_size := max_batch_size a |}.

Definition set_es (v : string) (a : agent) : agent :=
  {| agent_name := agent_name a; attrs := attrs a; es := Some v;
     llm := llm a;
     interval := interval a; max_batch_size := max_batch_size a |}.

Definition set_llm (v : string) (a : agent) : agent :=
  {| agent_name := agent_name a; attrs := attrs a; es := es a;
     llm := Some v;
     interval := interval a; max_batch_size := max_batch_size a |}.

Definition set_interval (v : Z) (a : agent) : agent :=
  {| agent_name := agent_name a; attrs := attrs a; es := es a;
     llm := llm a;
     interval := Some v; max_batch_size := max_batch_size a |}.

Definition set_max_batch_size (v : Z) (a : agent) : agent :=
  {| agent_name := agent_name a; attrs := attrs a; es := es a;
     llm := llm a;
     interval := interval a; max_batch_size := Some v |}.

(** The call of the constructor of a client. *)
Definition construct_client (c : client) (o : outcome unit) : I unit :=
  fun s =>
    let s' := {| self := self s; made := made s ++ [c] |} in
    match o with
    | Returns _ => (Ok tt, s')
    | Raises e => (Exc e, s')
    end.

(** [os.getenv(key)] and [os.getenv(key, default)] with a string. *)
Definition getenv (environ : Dict.t string) (key : string) : option string :=
  Dict.get environ key.

Definition getenv_or (environ : Dict.t string) (key default : string)
    : string :=
  match Dict.get environ key with
  | Some v => v
  | None => default
  end.

(** [str.lower] on ASCII letters. *)
Definition lower_ascii (c : Ascii.ascii) : Ascii.ascii :=
  let n := Ascii.nat_of_ascii c in
  if ((65 <=? n) && (n <=? 90))%nat then Ascii.ascii_of_nat (n + 32) else c.

Fixpoint lower (s : string) : string :=
  match s with
  | EmptyString => EmptyString
  | String c s' => String (lower_ascii c) (lower s')
  end.

Definition required_vars : list (string * option string) :=
  [("ES_HOST", Some "101.201.58.151:9200"); ("GLM_API_KEY", None)].

(** The loop of [BaseAgent._validate_config]. *)
Fixpoint validate_vars (environ : Dict.t string)
    (vars : list (string * option string)) : I unit :=
  match vars with
  | [] => ret tt
  | (var_name, default_value) :: rest =>
      let value := match getenv environ var_name with
                   | Some v => Some v
                   | None => default_value
                   end in
      match value with
      | None =>
          raise {| exn_class := "ValueError";
                   exn_str := ("环境变量 " ++ var_name ++ " 未设置")%string |}
      | Some v =>
          assign (setattr (lower var_name) v) ;;
          validate_vars environ rest
      end
  end.

(** [BaseAgent._validate_config] *)
Definition _validate_config (environ : Dict.t string) : I unit :=
  validate_vars environ required_vars.

(** [BaseAgent._init_clients]; the handler logs and raises again. *)
Definition _init_clients (X : externals) (environ : Dict.t string) : I unit :=
  try_except
    (let es_host := getenv_or environ "ES_HOST" "http://101.201.58.151:9200" in
     let es_host := if negb (String.prefix "http" es_host)
                    then ("http://" ++ es_host)%string
                    else es_host in
     construct_client (ESClient es_host) (connect_es X es_host) ;;
     assign (set_es es_host) ;;
     match getenv environ "GLM_API_KEY" with
     | Some (String c k) =>
         let glm_api_key := String c k in
         construct_client (GLMClient glm_api_key)
                          (connect_glm X glm_api_key) ;;
         assign (set_llm glm_api_key)
     | _ =>
         raise {| exn_class := "ValueError";
                  exn_str := "GLM_API_KEY 环境变量未设置" |}
     end)
    (fun e => raise e).

(** [int(os.getenv(key, default))] with an integer default. *)
Definition getenv_int (X : externals) (environ : Dict.t string)
    (key : string) (default : Z) : I Z :=
  match getenv environ key with
  | None => ret default
  | Some v =>
      match int_of_str X v with
      | Returns z => ret z
      | Raises e => raise e
      end
  end.

(** [BaseAgent.__init__], called on an object of the class [class_name];
    [_setup_logger] only sets up the log. *)
Definition __init__ (X : externals) (environ : Dict.t string)
    (class_name : string) (name : option string) : I unit :=
  assign (set_agent_name
            match name with
            | Some (String c n) => String c n
            | _ => class_name
            end) ;;
  _validate_config environ ;;
  _init_clients X environ ;;
  i <- getenv_int X environ "AGENT_INTERVAL" 300 ;;
  assign (set_interval i) ;;
  b <- getenv_int X environ "MAX_BATCH_SIZE" 10 ;;
  assign (set_max_batch_size b).

(** The object before its constructor runs. *)
Definition new_agent : agent :=
  {| agent_name := None; attrs := Dict.empty; es := None; llm := None;
     interval := None; max_batch_size := None |}.

End BaseAgent.

(** ** Properties of the constructor *)

(** The host that [_init_clients] gives to the ES client. *)
Definition es_url (environ : Dict.t string) : string :=
  let es_host :=
    BaseAgent.getenv_or environ "ES_HOST" "http://101.201.58.151:9200" in
  if negb (String.prefix "http" es_host)
  then ("http://" ++ es_host)%string
  else es_host.

Lemma es_url_prefix environ : String.prefix "http" (es_url environ) = true.
Proof.
  unfold es_url.
  destruct (String.prefix "http" (BaseAgent.getenv_or environ _ _)) eqn:H;
    [exact H | reflexivity].
Qed.

Lemma _validate_config_eq environ s :
  BaseAgent._validate_config environ s =
  let a := BaseAgent.setattr "es_host"
             (BaseAgent.getenv_or environ "ES_HOST" "101.201.58.151:9200")
             (BaseAgent.self s) in
  match BaseAgent.getenv environ "GLM_API_KEY" with
  | None =>
      (Exc {| exn_class := "ValueError";
              exn_str := "环境变量 GLM_API_KEY 未设置" |},
       {| BaseAgent.self := a; BaseAgent.made := BaseAgent.made s |})
  | Some k =>
      (Ok tt,
       {| BaseAgent.self := BaseAgent.setattr "glm_api_key" k a;
          BaseAgent.made := BaseAgent.made s |})
  end.
Proof.
  unfold BaseAgent._validate_config, BaseAgent.required_vars,
    BaseAgent.validate_vars, BaseAgent.getenv_or, BaseAgent.getenv.
  destruct (Dict.get environ "ES_HOST");
    destruct (Dict.get environ "GLM_API_KEY"); reflexivity.
Qed.

Lemma _init_clients_eq X environ s :
  BaseAgent._init_clients X environ s =
  let s1 := {| BaseAgent.self := BaseAgent.self s;
               BaseAgent.made :=
                 BaseAgent.made s ++ [BaseAgent.ESClient (es_url environ)] |} in
  match BaseAgent.connect_es X (es_url environ) with
  | Raises e => (Exc e, s1)
  | Returns _ =>
      let a := BaseAgent.set_es (es_url environ) (BaseAgent.self s) in
      match BaseAgent.getenv environ "GLM_API_KEY" with
      | Some (String c k) =>
          let s2 := {| BaseAgent.self := a;
                       BaseAgent.made :=
                         BaseAgent.made s1
                         ++ [BaseAgent.GLMClient (String c k)] |} in
          match BaseAgent.connect_glm X (String c k) with
          | Raises e => (Exc e, s2)
          | Returns _ =>
              (Ok tt,
               {| BaseAgent.self := BaseAgent.set_llm (String c k) a;
                  BaseAgent.made := BaseAgent.made s2 |})
          end
      | _ =>
          (Exc {| exn_class := "ValueError";
                  exn_str := "GLM_API_KEY 环境变量未设置" |},
           {| BaseAgent.self := a; BaseAgent.made := BaseAgent.made s1 |})
      end
  end.
Proof.
  unfold BaseAgent._init_clients, BaseAgent.try_except. fold (es_url environ).
  unfold BaseAgent.bind at 1. unfold BaseAgent.construct_client at 1.
  destruct (BaseAgent.connect_es X (es_url environ)) as [[]|e];
    [|reflexivity].
  unfold BaseAgent.bind at 1. unfold BaseAgent.assign at 1.
  cbn [BaseAgent.self BaseAgent.made].
  destruct (BaseAgent.getenv environ "GLM_API_KEY") as [[|c k]|];
    try reflexivity.
  unfold BaseAgent.bind, BaseAgent.construct_client, BaseAgent.assign.
  cbn [BaseAgent.self BaseAgent.made].
  destruct (BaseAgent.connect_glm X (String c k)) as [[]|e]; reflexivity.
Qed.

(** X19.  Without [GLM_API_KEY] in the environment the constructor of an
    agent raises [ValueError] from [_validate_config], before any client
    is made: no connection to Elasticsearch is attempted.  [ES_HOST] is
    never the reason: it has a default, already assigned to
    [self.es_host] when the error is raised. *)
Theorem X19_missing_api_key_fails_before_any_client :
  forall (X : BaseAgent.externals) (environ : Dict.t string)
         (class_name : string) (name : option string) (s : BaseAgent.st),
    BaseAgent.getenv environ "GLM_API_KEY" = None ->
    exists s',
      BaseAgent.__init__ X environ class_name name s =
        (Exc {| exn_class := "ValueError";
                exn_str := "环境变量 GLM_API_KEY 未设置" |}, s') /\
      BaseAgent.made s' = BaseAgent.made s /\
      BaseAgent.es (BaseAgent.self s') = BaseAgent.es (BaseAgent.self s) /\
      BaseAgent.llm (BaseAgent.self s') = BaseAgent.llm (BaseAgent.self s) /\
      Dict.get (BaseAgent.attrs (BaseAgent.self s')) "es_host" =
        Some (BaseAgent.getenv_or environ "ES_HOST" "101.201.58.151:9200").
Proof.
  intros X environ class_name name s Hkey.
  unfold BaseAgent.__init__. unfold BaseAgent.bind at 1.
  unfold BaseAgent.assign at 1. unfold BaseAgent.bind at 1.
  rewrite _validate_config_eq, Hkey. cbv zeta.
  eexists. split; [reflexivity|]. simpl.
  repeat split. apply DictFacts.get_set_same.
Qed.

(** The environment of the examples and clients that connect. *)
Definition environ_without_key : Dict.t string :=
  [("ES_HOST", "es.example:9200")].

Definition environ_with_key (key : string) : Dict.t string :=
  [("ES_HOST", "es.example:9200"); ("GLM_API_KEY", key)].

Definition clients_connect : BaseAgent.externals :=
  {| BaseAgent.connect_es := fun _ => Returns tt;
     BaseAgent.connect_glm := fun _ => Returns tt;
     BaseAgent.int_of_str := fun _ =>
       Raises {| exn_class := "ValueError";
                 exn_str := "invalid literal for int()" |} |}.

Definition before_init : BaseAgent.st :=
  {| BaseAgent.self := BaseAgent.new_agent; BaseAgent.made := [] |}.

Lemma X19_missing_api_key_fails_before_any_client_witness :
  BaseAgent.getenv environ_without_key "GLM_API_KEY" = None /\
  exists s',
    BaseAgent.__init__ clients_connect environ_without_key "HotspotAgent"
      (Some "HotspotAgent") before_init =
      (Exc {| exn_class := "ValueError";
              exn_str := "环境变量 GLM_API_KEY 未设置" |}, s') /\
    BaseAgent.made s' = [] /\
    Dict.get (BaseAgent.attrs (BaseAgent.self s')) "es_host"
    = Some "es.example:9200".
Proof.
  split; [reflexivity|].
  destruct (X19_missing_api_key_fails_before_any_client clients_connect
              environ_without_key "HotspotAgent" (Some "HotspotAgent")
              before_init eq_refl)
    as (s' & Heq & Hmade & _ & _ & Hhost).
  exists s'. split; [exact Heq|]. split; [exact Hmade | exact Hhost].
Defined.

(** X20.  An empty [GLM_API_KEY].  The variable is set, so
    [_validate_config] accepts it; [_init_clients] then makes the ES
    client first and only afterwards refuses the key.  The constructor
    always raises, and always after the attempt to connect to
    Elasticsearch; no GLM client is made.  When the ES client connects,
    the error is the [ValueError] of [_init_clients]. *)
Theorem X20_empty_api_key_fails_after_es_client :
  forall (X : BaseAgent.externals) (environ : Dict.t string)
         (class_name : string) (name : option string) (s : BaseAgent.st),
    BaseAgent.getenv environ "GLM_API_KEY" = Some "" ->
    exists e s',
      BaseAgent.__init__ X environ class_name name s = (Exc e, s') /\
      BaseAgent.made s' =
        BaseAgent.made s ++ [BaseAgent.ESClient (es_url environ)] /\
      BaseAgent.llm (BaseAgent.self s') = BaseAgent.llm (BaseAgent.self s) /\
      Dict.get (BaseAgent.attrs (BaseAgent.self s')) "glm_api_key" = Some "" /\
      (forall u, BaseAgent.connect_es X (es_url environ) = Returns u ->
                 e = {| exn_class := "ValueError";
                        exn_str := "GLM_API_KEY 环境变量未设置" |} /\
                 BaseAgent.es (BaseAgent.self s') = Some (es_url environ)).
Proof.
  intros X environ class_name name s Hkey.
  unfold BaseAgent.__init__. unfold BaseAgent.bind at 1.
  unfold BaseAgent.assign at 1. unfold BaseAgent.bind at 1.
  rewrite _validate_config_eq, Hkey. cbv zeta.
  unfold BaseAgent.bind at 1. rewrite _init_clients_eq, Hkey. cbv zeta.
  cbn [BaseAgent.self BaseAgent.made].
  destruct (BaseAgent.connect_es X (es_url environ)) as [[]|e].
  - eexists _, _. split; [reflexivity|]. simpl.
    repeat split. apply DictFacts.get_set_same.
  - eexists _, _. split; [reflexivity|]. simpl.
    repeat split; try discriminate. apply DictFacts.get_set_same.
Qed.

Lemma X20_empty_api_key_fails_after_es_client_witness :
  BaseAgent.getenv (environ_with_key "") "GLM_API_KEY" = Some "" /\
  exists s',
    BaseAgent.__init__ clients_connect (environ_with_key "") "Editor"
      (Some "Editor") before_init =
      (Exc {| exn_class := "ValueError";
              exn_str := "GLM_API_KEY 环境变量未设置" |}, s') /\
    BaseAgent.made s' = [BaseAgent.ESClient "http://es.example:9200"].
Proof.
  split; [reflexivity|].
  destruct (X20_empty_api_key_fails_after_es_client clients_connect
              (environ_with_key "") "Editor" (Some "Editor")
              before_init eq_refl)
    as (e & s' & Heq & Hmade & _ & _ & He).
  destruct (He tt eq_refl) as (-> & _).
  exists s'. split; [exact Heq | exact Hmade].
Defined.

(** X21.  A constructed agent.  When [BaseAgent.__init__] returns, it has
    made exactly two clients, the ES client and then the GLM client.  The
    host of the ES client starts with ["http"]: it is [ES_HOST], with
    ["http://"] put before it when it does not start so.  The key of the
    GLM client is [GLM_API_KEY], which is not empty.  [self.es_host]
    holds [ES_HOST] as it is in the environment, and the default without
    a scheme when it is not set; and [self.interval] is 300 seconds when
    [AGENT_INTERVAL] is not set. *)
Theorem X21_constructed_agent_has_both_clients :
  forall (X : BaseAgent.externals) (environ : Dict.t string)
         (class_name : string) (name : option string) (s s' : BaseAgent.st),
    BaseAgent.__init__ X environ class_name name s = (Ok tt, s') ->
    exists key,
      BaseAgent.getenv environ "GLM_API_KEY" = Some key /\ key <> "" /\
      BaseAgent.made s' =
        BaseAgent.made s
        ++ [BaseAgent.ESClient (es_url environ); BaseAgent.GLMClient key] /\
      BaseAgent.es (BaseAgent.self s') = Some (es_url environ) /\
      BaseAgent.llm (BaseAgent.self s') = Some key /\
      String.prefix "http" (es_url environ) = true /\
      (forall h, BaseAgent.getenv environ "ES_HOST" = Some h ->
                 es_url environ = h \/
                 es_url environ = ("http://" ++ h)%string) /\
      Dict.get (BaseAgent.attrs (BaseAgent.self s')) "es_host" =
        Some (BaseAgent.getenv_or environ "ES_HOST" "101.201.58.151:9200") /\
      Dict.get (BaseAgent.attrs (BaseAgent.self s')) "glm_api_key" = Some key /\
      (BaseAgent.getenv environ "AGENT_INTERVAL" = None ->
       BaseAgent.interval (BaseAgent.self s') = Some 300) /\
      (BaseAgent.getenv environ "MAX_BATCH_SIZE" = None ->
       BaseAgent.max_batch_size (BaseAgent.self s') = Some 10).
Proof.
  intros X environ class_name name s s'.
  unfold BaseAgent.__init__. unfold BaseAgent.bind at 1.
  unfold BaseAgent.assign at 1. unfold BaseAgent.bind at 1.
  rewrite _validate_config_eq. cbv zeta.
  destruct (BaseAgent.getenv environ "GLM_API_KEY") as [key|] eqn:Hkey;
    [|discriminate].
  unfold BaseAgent.bind at 1. rewrite _init_clients_eq, Hkey. cbv zeta.
  cbn [BaseAgent.self BaseAgent.made].
  destruct (BaseAgent.connect_es X (es_url environ)) as [[]|e];
    [|discriminate].
  destruct key as [|c k]; [discriminate|].
  destruct (BaseAgent.connect_glm X (String c k)) as [[]|e]; [|discriminate].
  unfold BaseAgent.bind at 1. unfold BaseAgent.getenv_int at 1.
  assert (Hurl : forall h, BaseAgent.getenv environ "ES_HOST" = Some h ->
                           es_url environ = h \/
                           es_url environ = ("http://" ++ h)%string).
  { intros h Hh. unfold es_url, BaseAgent.getenv_or.
    unfold BaseAgent.getenv in Hh. rewrite Hh.
    destruct (String.prefix "http" h); auto. }
  assert (Hfin : forall i st0,
    BaseAgent.bind (BaseAgent.assign (BaseAgent.set_interval i))
      (fun _ =>
         BaseAgent.bind (BaseAgent.getenv_int X environ "MAX_BATCH_SIZE" 10)
           (fun b => BaseAgent.assign (BaseAgent.set_max_batch_size b))) st0
    = (Ok tt, s') ->
    exists b,
      s' = {| BaseAgent.self :=
                BaseAgent.set_max_batch_size b
                  (BaseAgent.set_interval i (BaseAgent.self st0));
              BaseAgent.made := BaseAgent.made st0 |} /\
      (BaseAgent.getenv environ "MAX_BATCH_SIZE" = None -> b = 10)).
  { intros i st0. unfold BaseAgent.bind at 1. unfold BaseAgent.assign at 1.
    unfold BaseAgent.bind, BaseAgent.getenv_int.
    destruct (BaseAgent.getenv environ "MAX_BATCH_SIZE") as [v|].
    - destruct (BaseAgent.int_of_str X v) as [z|e]; [|discriminate].
      unfold BaseAgent.ret, BaseAgent.assign. simpl. intros [= <-].
      exists z. split; [reflexivity | discriminate].
    - unfold BaseAgent.ret, BaseAgent.assign. simpl. intros [= <-].
      exists 10. split; reflexivity. }
  destruct (BaseAgent.getenv environ "AGENT_INTERVAL") as [v|] eqn:Hiv.
  - destruct (BaseAgent.int_of_str X v) as [z|e]; [|discriminate].
    unfold BaseAgent.ret at 1. intros H.
    apply Hfin in H. destruct H as (b & -> & Hb).
    exists (String c k). simpl. rewrite <- app_assoc.
    repeat split; try discriminate; auto using es_url_prefix.
    + rewrite DictFacts.get_set_other by discriminate.
      apply DictFacts.get_set_same.
    + apply DictFacts.get_set_same.
    + intros Hn. now rewrite (Hb Hn).
  - unfold BaseAgent.ret at 1. intros H.
    apply Hfin in H. destruct H as (b & -> & Hb).
    exists (String c k). simpl. rewrite <- app_assoc.
    repeat split; try discriminate; auto using es_url_prefix.
    + rewrite DictFacts.get_set_other by discriminate.
      apply DictFacts.get_set_same.
    + apply DictFacts.get_set_same.
    + intros Hn. now rewrite (Hb Hn).
Qed.

Lemma X21_constructed_agent_has_both_clients_witness :
  exists s',
    BaseAgent.__init__ clients_connect (environ_with_key "k-1") "Editor"
      (Some "Editor") before_init = (Ok tt, s') /\
    BaseAgent.made s' = [BaseAgent.ESClient "http://es.example:9200";
                         BaseAgent.GLMClient "k-1"] /\
    Dict.get (BaseAgent.attrs (BaseAgent.self s')) "es_host"
    = Some "es.example:9200" /\
    BaseAgent.interval (BaseAgent.self s') = Some 300.
Proof.
  eexists. split; [vm_compute; reflexivity|].
  destruct (X21_constructed_agent_has_both_clients clients_connect
              (environ_with_key "k-1") "Editor" (Some "Editor") before_init
              _ eq_refl)
    as (key & Hkey & _ & Hmade & _ & _ & _ & _ & Hhost & _ & Hiv & _).
  injection Hkey as <-.
  split; [exact Hmade|]. split; [exact Hhost|]. exact (Hiv eq_refl).
Defined.

(** * Enabling after disabling *)

Lemma set_enabled_back b b' c :
  enabled c = b -> set_enabled b (set_enabled b' c) = c.
Proof. destruct c. simpl. now intros ->. Qed.

Lemma set_agent_back b agent_name s pre c post :
  agent_configs (self s) = pre ++ c :: post ->
  (forall c', In c' pre -> ~ matches agent_name c') ->
  matches agent_name c ->
  enabled c = b ->
  (set_agent (negb b) agent_name ;; set_agent b agent_name) s = (Ok true, s).
Proof.
  intros Hcs Hpre Hc Hen. unfold bind.
  rewrite set_agent_eq, Hcs.
  rewrite (assign_enabled_first _ agent_name pre c post Hpre Hc).
  rewrite set_agent_eq. cbn [self agent_configs with_agent_configs].
  assert (Hc' : matches agent_name (set_enabled (negb b) c)) by exact Hc.
  rewrite (assign_enabled_first _ agent_name pre _ post Hpre Hc').
  rewrite (set_enabled_back b (negb b) c Hen), <- Hcs.
  destruct s as [[] ?]. reflexivity.
Qed.

(** X22.  [disable_agent] and [enable_agent] undo each other.  On a name
    that matches a descriptor, disabling and then enabling an enabled
    agent, or enabling and then disabling a disabled one, returns [True]
    and leaves the runner exactly as it was.  The flag is all that is
    remembered: disabling and then enabling an agent that was disabled
    leaves it enabled; whatever the flag was, after disabling and then
    enabling the descriptor at that position is enabled and the others are
    the same. *)
Theorem X22_disable_and_enable_undo_each_other :
  forall (agent_name : string) (s : state) (pre : list config) (c : config)
         (post : list config),
    agent_configs (self s) = pre ++ c :: post ->
    (forall c', In c' pre -> ~ matches agent_name c') ->
    matches agent_name c ->
    (enabled c = true ->
     (disable_agent agent_name ;; enable_agent agent_name) s = (Ok true, s)) /\
    (enabled c = false ->
     (enable_agent agent_name ;; disable_agent agent_name) s = (Ok true, s)) /\
    (enabled c = false ->
     (disable_agent agent_name ;; enable_agent agent_name) s =
     (Ok true,
      {| self := with_agent_configs (pre ++ set_enabled true c :: post)
                   (self s);
         outside := outside s |})) /\
    (forall r s',
        (disable_agent agent_name ;; enable_agent agent_name) s = (r, s') ->
        r = Ok true /\
        option_map enabled
          (nth_error (agent_configs (self s')) (List.length pre)) = Some true /\
        (forall i, i <> List.length pre ->
                   nth_error (agent_configs (self s')) i
                   = nth_error (agent_configs (self s)) i)).
Proof.
  intros agent_name s pre c post Hcs Hpre Hc.
  assert (H1 : enabled c = true ->
               (disable_agent agent_name ;; enable_agent agent_name) s
               = (Ok true, s))
    by apply (set_agent_back true agent_name s pre c post Hcs Hpre Hc).
  assert (H3 : enabled c = false ->
               (disable_agent agent_name ;; enable_agent agent_name) s =
               (Ok true,
                {| self := with_agent_configs
                             (pre ++ set_enabled true c :: post) (self s);
                   outside := outside s |})).
  { intros Hen. unfold bind.
    change (disable_agent agent_name s) with (set_agent false agent_name s).
    rewrite set_agent_eq, Hcs.
    rewrite (assign_enabled_first _ agent_name pre c post Hpre Hc).
    change (enable_agent agent_name) with (set_agent true agent_name).
    rewrite set_agent_eq. cbn [self agent_configs with_agent_configs].
    rewrite (set_enabled_same false c Hen).
    rewrite (assign_enabled_first _ agent_name pre c post Hpre Hc).
    destruct s as [[] ?]. reflexivity. }
  split; [exact H1|]. split; [|split; [exact H3|]].
  - apply (set_agent_back false agent_name s pre c post Hcs Hpre Hc).
  - intros r s'. destruct (enabled c) eqn:Hen.
    + rewrite (H1 eq_refl). intros [= <- <-]. split; [reflexivity|].
      rewrite Hcs, nth_error_app2 by lia. rewrite Nat.sub_diag. simpl.
      now rewrite Hen.
    + rewrite (H3 eq_refl). intros [= <- <-]. split; [reflexivity|].
      cbn [self agent_configs with_agent_configs].
      split.
      * rewrite nth_error_app2 by lia. rewrite Nat.sub_diag. simpl.
        now destruct c.
      * intros i Hi. rewrite Hcs.
        destruct (Nat.lt_ge_cases i (List.length pre)) as [Hlt|Hge].
        -- now rewrite !nth_error_app1 by exact Hlt.
        -- rewrite !nth_error_app2 by exact Hge.
           destruct (i - List.length pre)%nat as [|n] eqn:Hn; [lia|].
           reflexivity.
Qed.

Lemma X22_disable_and_enable_undo_each_other_witness :
  (agent_configs (self (loaded "pipeline"))
   = [hotspot_agent] ++ risk_analyzer_agent ::
     [material_collector_agent; product_matcher_agent;
      content_creator_agent; editor_agent] /\
   (forall c', In c' [hotspot_agent] -> ~ matches "风险分析" c') /\
   matches "风险分析" risk_analyzer_agent) /\
  (disable_agent "风险分析" ;; enable_agent "风险分析") (loaded "pipeline")
  = (Ok true, loaded "pipeline").
Proof.
  assert (Hpre : forall c', In c' [hotspot_agent] -> ~ matches "风险分析" c').
  { intros c' [<-|[]] [H|H]; discriminate H. }
  assert (Hc : matches "风险分析" risk_analyzer_agent) by (left; reflexivity).
  split; [split; [reflexivity | split; assumption]|].
  exact (proj1 (X22_disable_and_enable_undo_each_other "风险分析"
                  (loaded "pipeline") [hotspot_agent] risk_analyzer_agent _
                  eq_refl Hpre Hc) eq_refl).
Defined.
